(** * experto_chat: retrieval by cosine similarity over a bag of words

    A shallow embedding of [002_Módulo_de_adquisición_del_conocimiento.py],
    the properties its specification states about it, and further
    properties of its functions and of its console loop.

    - Python [str] values are lists of Unicode code points ([ustring]).
    - Python [float] is IEEE 754 binary64, taken from the Standard
      Library's [SpecFloat] ([prec = 53], [emax = 1024]).
    - Python [int] is [Z]; [Dict[str, int]] is [gmap ustring Z].
    - Exceptions are the [Raise] side of the [result] monad.
    - The SQLite table [kb] is the list of its rows in rowid order.
    - The console is a list of keyboard entries read by [input] and the
      list of the messages written by [print]. *)

From Stdlib Require Import ZArith List Lia Bool String Ascii.
From Stdlib Require Import Reals Lra.
From Stdlib Require Import Floats.SpecFloat.
From Stdlib Require Import FunInd.
From stdpp Require Import gmap list.

Open Scope Z_scope.

(* ================================================================= *)
(** ** Exceptions *)

Inductive exc :=
| OverflowError       (* int too large to convert to float *)
| ValueError          (* math domain error *)
| ZeroDivisionError   (* float division by zero *)
| OperationalError.   (* sqlite3: no such table: kb *)

Inductive result (A : Type) :=
| Ok (a : A)
| Raise (e : exc).
Arguments Ok {A} a.
Arguments Raise {A} e.

#[export] Instance result_ret : MRet result := fun A a => Ok a.

#[export] Instance result_bind : MBind result := fun A B k r =>
  match r with
  | Ok a => k a
  | Raise e => Raise e
  end.

(* ================================================================= *)
(** ** Strings and the Unicode character database *)

(** A Python [str]: a sequence of code points. *)
Definition ustring := list N.

(** The code points of an ASCII literal. *)
Definition U (s : string) : ustring := map N_of_ascii (list_ascii_of_string s).

(** What [normalizar] reads from Python's Unicode tables.  They belong to
    the interpreter, not to the program, and enter the model as a
    parameter. *)
Record UCD := {
  str_lower : ustring -> ustring;   (* str.lower() *)
  nfd : ustring -> ustring;         (* unicodedata.normalize("NFD", _) *)
  category_Mn : N -> bool;          (* unicodedata.category(c) == "Mn" *)
  isspace : N -> bool;              (* \s of re on str; the set of str.strip() *)
}.

Definition SPACE : N := 32.
Definition ENYE : N := 241.       (* U+00F1, the ñ of the two patterns *)
Definition TILDE : N := 771.      (* U+0303 COMBINING TILDE *)

Definition in_range (lo hi c : N) : bool := ((lo <=? c) && (c <=? hi))%N.
Definition is_az (c : N) : bool := in_range 97 122 c.
Definition is_09 (c : N) : bool := in_range 48 57 c.

(** [[a-z0-9ñ]]: the complement of the separator class of [tokenizar]. *)
Definition is_tok_char (c : N) : bool := is_az c || is_09 c || (c =? ENYE)%N.

(** The punctuation [\?\!\.,] of the pattern of [normalizar]. *)
Definition is_punct (c : N) : bool :=
  ((c =? 63) || (c =? 33) || (c =? 46) || (c =? 44))%N.

(** [x.lstrip()], [x.rstrip()], [x.strip()] for a class of characters. *)
Fixpoint lstrip (sp : N -> bool) (t : ustring) : ustring :=
  match t with
  | [] => []
  | c :: r => if sp c then lstrip sp r else t
  end.

Definition rstrip (sp : N -> bool) (t : ustring) : ustring :=
  rev (lstrip sp (rev t)).

Definition strip (sp : N -> bool) (t : ustring) : ustring :=
  rstrip sp (lstrip sp t).

(** [re.sub(cls + "+", " ", t)]: every maximal run of characters of the
    class becomes one space.  [in_run] says that the previous character
    was in the class. *)
Fixpoint sub_runs (sp : N -> bool) (in_run : bool) (t : ustring) : ustring :=
  match t with
  | [] => []
  | c :: r =>
      if sp c
      then (if in_run then sub_runs sp true r else SPACE :: sub_runs sp true r)
      else c :: sub_runs sp false r
  end.

(** [re.split(cls + "+", t)]: the pieces between the maximal runs of
    separators, the empty pieces at both ends included.  [cur] is the piece
    being read, reversed. *)
Fixpoint re_split (sep : N -> bool) (cur : ustring) (in_sep : bool)
    (t : ustring) : list ustring :=
  match t with
  | [] => [rev cur]
  | c :: r =>
      if sep c
      then (if in_sep then re_split sep cur true r
            else rev cur :: re_split sep [] true r)
      else re_split sep (c :: cur) false r
  end.

Definition nonempty (t : ustring) : bool :=
  match t with [] => false | _ => true end.

Section Texto.

Variable ucd : UCD.

(** [[a-z0-9ñ\s\?\!\.,]]: what the first substitution of [normalizar]
    leaves in place. *)
Definition retained (c : N) : bool :=
  is_az c || is_09 c || (c =? ENYE)%N || isspace ucd c || is_punct c.

Definition normalizar (texto : ustring) : ustring :=
  let t := str_lower ucd texto in
  let t := nfd ucd t in
  let t := List.filter (fun c => negb (category_Mn ucd c)) t in
  let t := map (fun c => if retained c then c else SPACE) t in
  let t := strip (isspace ucd) (sub_runs (isspace ucd) false t) in
  t.

Definition tokenizar (texto : ustring) : list ustring :=
  List.filter nonempty
    (re_split (fun c => negb (is_tok_char c)) [] false (normalizar texto)).

End Texto.

(* ================================================================= *)
(** ** A fragment of the character database

    The tables of Python's [unicodedata] on U+0000..U+00FF and on the
    combining diacritical marks U+0300..U+036F.  Code points outside are
    left as they are.  It is the instance at which the theorems below are
    exercised. *)

(** Upper-case Latin-1 letters with a canonical decomposition:
    code point, base letter, combining mark.  The lower-case ones are
    32 above, with a base 32 above. *)
Definition latin_decomp : list (N * (N * N)) :=
  [ (192, (65, 768)); (193, (65, 769)); (194, (65, 770)); (195, (65, 771));
    (196, (65, 776)); (197, (65, 778)); (199, (67, 807));
    (200, (69, 768)); (201, (69, 769)); (202, (69, 770)); (203, (69, 776));
    (204, (73, 768)); (205, (73, 769)); (206, (73, 770)); (207, (73, 776));
    (209, (78, 771));
    (210, (79, 768)); (211, (79, 769)); (212, (79, 770)); (213, (79, 771));
    (214, (79, 776));
    (217, (85, 768)); (218, (85, 769)); (219, (85, 770)); (220, (85, 776));
    (221, (89, 769)) ]%N.

Fixpoint assoc (c : N) (tbl : list (N * (N * N))) : option (N * N) :=
  match tbl with
  | [] => None
  | (k, v) :: r => if (k =? c)%N then Some v else assoc c r
  end.

Definition latin_nfd_cp (c : N) : ustring :=
  match assoc c latin_decomp with
  | Some (b, m) => [b; m]
  | None =>
      match assoc (c - 32) latin_decomp with
      | Some (b, m) => if in_range 224 253 c then [(b + 32)%N; m] else [c]
      | None => if (c =? 255)%N then [121; 776]%N else [c]
      end
  end.

Definition latin_lower_cp (c : N) : N :=
  if in_range 65 90 c then (c + 32)%N
  else if in_range 192 222 c && negb (c =? 215)%N then (c + 32)%N
  else c.

Definition latin_isspace (c : N) : bool :=
  in_range 9 13 c || in_range 28 32 c || (c =? 133)%N || (c =? 160)%N.

Definition ucd_latin : UCD := {|
  str_lower := map latin_lower_cp;
  nfd := flat_map latin_nfd_cp;
  category_Mn := in_range 768 879;
  isspace := latin_isspace;
|}.

(* ================================================================= *)
(** ** Floats

    A Python [float] is a binary64.  The operations are those of
    [SpecFloat], which round the exact result to nearest, ties to even. *)

Definition float := spec_float.
Definition prec : Z := 53.
Definition emax : Z := 1024.

Definition fmul : float -> float -> float := SFmul prec emax.
Definition fdiv : float -> float -> float := SFdiv prec emax.
Definition fsqrt : float -> float := SFsqrt prec emax.
Definition feqb : float -> float -> bool := SFeqb.   (* x == y *)
Definition fltb : float -> float -> bool := SFltb.   (* x < y *)
Definition fleb : float -> float -> bool := SFleb.   (* x <= y *)

Definition fzero : float := S754_zero false.                       (* 0.0 *)
Definition fone : float := S754_finite false 4503599627370496 (-52). (* 1.0 *)

(** The binary64 nearest to the quotient of two positive integers:
    [SFdiv] divides the integer mantissas exactly and rounds once.  It is
    the value of a decimal literal, and of the decimal string that
    [round] converts back. *)
Definition nearest_quotient (s : bool) (p q : positive) : float :=
  fdiv (S754_finite s p 0) (S754_finite false q 0).

(** Conversion of an [int], as [math.sqrt] and [/] do it on an [int]
    operand: nearest, ties to even, and [OverflowError] past the range. *)
Definition float_of_int (n : Z) : result float :=
  match binary_normalize prec emax n 0 false with
  | S754_infinity _ => Raise OverflowError
  | f => Ok f
  end.

(** [math.sqrt(n)] for an [int] [n]. *)
Definition math_sqrt (n : Z) : result float :=
  x ← float_of_int n;
  if fltb x fzero then Raise ValueError else Ok (fsqrt x).

(** [n / y] for an [int] [n] and a [float] [y]. *)
Definition truediv (n : Z) (y : float) : result float :=
  x ← float_of_int n;
  if feqb y fzero then Raise ZeroDivisionError else Ok (fdiv x y).

(** The integer nearest to [n / d] for [d > 0], ties to even. *)
Definition round_half_even (n d : Z) : Z :=
  let q := n / d in
  match 2 * (n mod d) ?= d with
  | Lt => q
  | Gt => q + 1
  | Eq => if Z.even q then q else q + 1
  end.

(** [round(x, 3)]: the decimal with three places nearest to the exact
    value of [x] (ties to even), converted back to the nearest float. *)
Definition round3 (x : float) : float :=
  match x with
  | S754_finite s m e =>
      let k := if 0 <=? e then Zpos m * 1000 * 2 ^ e
               else round_half_even (Zpos m * 1000) (2 ^ (- e)) in
      match k with
      | Zpos p => nearest_quotient s p 1000
      | _ => S754_zero s
      end
  | _ => x
  end.

(* ================================================================= *)
(** ** Bag of words and cosine similarity *)

Definition vectorizar (tokens : list ustring) : gmap ustring Z :=
  foldl (fun vec tok => <[tok := default 0 (vec !! tok) + 1]> vec) ∅ tokens.

(** [sum(a.get(k, 0) * b.get(k, 0) for k in set(a) | set(b))] *)
Definition dot (a b : gmap ustring Z) : Z :=
  foldr (fun k acc => default 0 (a !! k) * default 0 (b !! k) + acc) 0
    (elements (dom a ∪ dom b)).

(** [sum(v * v for v in a.values())] *)
Definition sumsq (a : gmap ustring Z) : Z :=
  map_fold (fun _ v acc => v * v + acc) 0 a.

Definition similitud_coseno (a b : gmap ustring Z) : result float :=
  let d := dot a b in
  na ← math_sqrt (sumsq a);
  nb ← math_sqrt (sumsq b);
  if feqb (fmul na nb) fzero then Ok fzero else truediv d (fmul na nb).

(* ================================================================= *)
(** ** Storage

    The table [kb] of [data.db].  [cargar_todas] reads it without an
    [ORDER BY]; SQLite scans a rowid table in rowid order, which is the
    order of insertion here, and the list keeps that order.  [seq] is
    the largest rowid that AUTOINCREMENT has handed out.  The column
    [creado_en] is never read and is left out. *)

Record fila := { fid : Z; preg : ustring; resp : ustring }.

Inductive store :=
| SinTabla
| Tabla (filas : list fila) (seq : Z).

Definition insertar (t : list fila * Z) (pr : ustring * ustring)
    : list fila * Z :=
  let '(filas, seq) := t in
  let i := foldr Z.max seq (map fid filas) + 1 in
  (filas ++ [{| fid := i; preg := fst pr; resp := snd pr |}], i).

Definition semillas : list (ustring * ustring) :=
  [ (U "hola",
     U "Hola, " ++ [191%N] ++ U "en qu" ++ [233%N] ++ U " te ayudo?");
    (U "como estas",
     U "Bien. " ++ [191%N] ++ U "Qu" ++ [233%N] ++ U " necesitas?");
    (U "de que te gustaria hablar",
     U "Podemos hablar de ingenier" ++ [237%N] ++ U "a, programaci"
       ++ [243%N] ++ U "n o del tema que traes.") ].

Definition iniciar_db (s : store) : store :=
  let t := match s with SinTabla => ([], 0) | Tabla filas seq => (filas, seq) end in
  if (length (fst t) =? 0)%nat
  then let '(filas, seq) := foldl insertar t semillas in Tabla filas seq
  else Tabla (fst t) (snd t).

Definition cargar_todas (s : store) : result (list fila) :=
  match s with
  | SinTabla => Raise OperationalError
  | Tabla filas _ => Ok filas
  end.

(** The dict [mejor] of [mejor_coincidencia]. *)
Record coincidencia_t := {
  m_id : Z;
  m_score : float;
  m_pregunta : ustring;
  m_respuesta : ustring;
}.

Definition centinela : coincidencia_t :=
  {| m_id := -1; m_score := fzero; m_pregunta := []; m_respuesta := [] |}.

Record Resultado := {
  coincidencia : bool;
  respuesta : ustring;
  puntaje : float;
  pregunta_coincidente : option ustring;
}.

(** [UMBRAL = 0.72]: the float nearest to 72/100. *)
Definition UMBRAL : float := nearest_quotient false 72 100.

(** "No tengo una respuesta para eso todavía." *)
Definition SIN_RESPUESTA : ustring :=
  U "No tengo una respuesta para eso todav" ++ [237%N] ++ U "a.".

Section Nucleo.

Variable ucd : UCD.

Definition guardar_entrada (s : store) (pregunta respuesta : ustring)
    : result store :=
  let norm := normalizar ucd pregunta in
  match s with
  | SinTabla => Raise OperationalError
  | Tabla filas seq =>
      let '(filas', seq') := insertar (filas, seq) (norm, respuesta) in
      Ok (Tabla filas' seq')
  end.

(* ================================================================= *)
(** ** Matching *)

(** One turn of the loop over [filas]. *)
Definition paso (vec_q : gmap ustring Z) (mejor : coincidencia_t) (f : fila)
    : result coincidencia_t :=
  let vec := vectorizar (tokenizar ucd (preg f)) in
  s ← similitud_coseno vec_q vec;
  if fltb (m_score mejor) s
  then Ok {| m_id := fid f; m_score := s;
             m_pregunta := preg f; m_respuesta := resp f |}
  else Ok mejor.

Fixpoint recorrer (vec_q : gmap ustring Z) (mejor : coincidencia_t)
    (filas : list fila) : result coincidencia_t :=
  match filas with
  | [] => Ok mejor
  | f :: r => mejor' ← paso vec_q mejor f; recorrer vec_q mejor' r
  end.

Definition mejor_coincidencia (s : store) (texto_usuario : ustring)
    : result (coincidencia_t * ustring) :=
  let norm := normalizar ucd texto_usuario in
  let vec_q := vectorizar (tokenizar ucd norm) in
  filas ← cargar_todas s;
  mejor ← recorrer vec_q centinela filas;
  Ok (mejor, norm).

(* ================================================================= *)
(** ** Response policy *)

Definition responder (s : store) (mensaje : ustring) : result Resultado :=
  '(mejor, _) ← mejor_coincidencia s mensaje;
  if fleb UMBRAL (m_score mejor)
  then Ok {| coincidencia := true;
             respuesta := m_respuesta mejor;
             puntaje := round3 (m_score mejor);
             pregunta_coincidente := Some (m_pregunta mejor) |}
  else Ok {| coincidencia := false;
             respuesta := SIN_RESPUESTA;
             puntaje := round3 (m_score mejor);
             pregunta_coincidente := None |}.

End Nucleo.

(* ================================================================= *)
(** ** The console loop

    [repl] reads with [input] and writes with [print].  What the user
    does at the keyboard is a list of entries, one for each call of
    [input]: a line, or Ctrl+C while [input] waits.  When the list runs
    out the standard input is at its end, and [input] raises [EOFError].
    What [repl] writes is the list of its messages, the prompts of
    [input] included.  A Ctrl+C between two calls of [input] is not
    modelled. *)

Inductive entrada :=
| Linea (t : ustring)   (* a line, without its newline *)
| CtrlC.                (* KeyboardInterrupt *)

Inductive impreso :=
| Bienvenida           (* "Sistema experto (sin web). Ctrl+C para salir." *)
| Indicador            (* the prompt "Tú: " *)
| BotAcierto (r : Resultado)
    (* "Bot: {respuesta}  [match='{pregunta_coincidente}', score={puntaje}]" *)
| BotFallo (r : Resultado)
    (* "Bot: {respuesta}  [score≈{puntaje}]" *)
| BotPregunta          (* "Bot: ¿Qué te gustaría que respondiera la próxima vez?" *)
| IndicadorRespuesta   (* the prompt "Enséñame la respuesta: " *)
| BotAprendido         (* "Bot: Listo. Ya lo aprendí." *)
| Saliendo.            (* "\nSaliendo…" *)

(** How [repl] ends: by [break] after a KeyboardInterrupt, or by an
    exception that its [try] does not catch. *)
Inductive fin :=
| Salida
| FinDeEntrada          (* EOFError *)
| Excepcion (e : exc).

(** A run of [repl]: what it printed, the table it left, how it ended. *)
Record sesion := {
  impresos : list impreso;
  almacen : store;
  termino : fin;
}.

Definition imprime (o : list impreso) (x : sesion) : sesion :=
  {| impresos := o ++ impresos x; almacen := almacen x; termino := termino x |}.

Section Consola.

Variable ucd : UCD.

(** The [while True] of [repl], from the store [s] on the entries [ins].
    [x.strip()] is [strip (isspace ucd) x]; an empty [str] is false. *)
Function bucle (s : store) (ins : list entrada) {struct ins} : sesion :=
  match ins with
  | [] => {| impresos := [Indicador]; almacen := s; termino := FinDeEntrada |}
  | CtrlC :: _ =>
      {| impresos := [Indicador; Saliendo]; almacen := s; termino := Salida |}
  | Linea t :: r =>
      if nonempty (strip (isspace ucd) t) then
        match responder ucd s (strip (isspace ucd) t) with
        | Raise e =>
            {| impresos := [Indicador]; almacen := s; termino := Excepcion e |}
        | Ok res =>
            if coincidencia res
            then imprime [Indicador; BotAcierto res] (bucle s r)
            else
              match r with
              | [] =>
                  {| impresos := [Indicador; BotFallo res; BotPregunta;
                                  IndicadorRespuesta];
                     almacen := s; termino := FinDeEntrada |}
              | CtrlC :: _ =>
                  {| impresos := [Indicador; BotFallo res; BotPregunta;
                                  IndicadorRespuesta; Saliendo];
                     almacen := s; termino := Salida |}
              | Linea t2 :: r2 =>
                  if nonempty (strip (isspace ucd) t2) then
                    match guardar_entrada ucd s (strip (isspace ucd) t)
                            (strip (isspace ucd) t2) with
                    | Raise e =>
                        {| impresos := [Indicador; BotFallo res; BotPregunta;
                                        IndicadorRespuesta];
                           almacen := s; termino := Excepcion e |}
                    | Ok s' =>
                        imprime [Indicador; BotFallo res; BotPregunta;
                                 IndicadorRespuesta; BotAprendido]
                          (bucle s' r2)
                    end
                  else
                    imprime [Indicador; BotFallo res; BotPregunta;
                             IndicadorRespuesta]
                      (bucle s r2)
              end
        end
      else imprime [Indicador] (bucle s r)
  end.

Definition repl (s : store) (ins : list entrada) : sesion :=
  imprime [Bienvenida] (bucle s ins).

(** The entry point: [iniciar_db()] and then [repl()]. *)
Definition principal (s : store) (ins : list entrada) : sesion :=
  repl (iniciar_db s) ins.

End Consola.

(* ================================================================= *)
(** ** Notions used in the statements *)

(** The candidate a row becomes when it wins. *)
Definition candidato (f : fila) (s : float) : coincidencia_t :=
  {| m_id := fid f; m_score := s; m_pregunta := preg f; m_respuesta := resp f |}.

(** What [responder] returns on a hit and on a miss. *)
Definition acierto (mejor : coincidencia_t) : Resultado :=
  {| coincidencia := true;
     respuesta := m_respuesta mejor;
     puntaje := round3 (m_score mejor);
     pregunta_coincidente := Some (m_pregunta mejor) |}.

Definition fallo (mejor : coincidencia_t) : Resultado :=
  {| coincidencia := false;
     respuesta := SIN_RESPUESTA;
     puntaje := round3 (m_score mejor);
     pregunta_coincidente := None |}.

Definition filas_de (s : store) : list fila :=
  match s with SinTabla => [] | Tabla filas _ => filas end.

Definition par (f : fila) : ustring * ustring := (preg f, resp f).

(** The characters a normalized question is made of: [a-z], [0-9], the
    space and the four punctuation marks. *)
Definition estable (c : N) : bool :=
  is_az c || is_09 c || (c =? SPACE)%N || is_punct c.

(** What the proofs use of the character database.  Each is a fact of
    Unicode: lower-casing and canonical decomposition leave ASCII
    lower-case letters, digits, the space and punctuation alone; none of
    them is a combining mark; of them only the space is white space; and
    a canonical decomposition holds no U+00F1, which decomposes into
    U+006E U+0303. *)
Record ucd_ok (ucd : UCD) : Prop := {
  lower_estable : forall t, forallb estable t = true -> str_lower ucd t = t;
  nfd_estable : forall t, forallb estable t = true -> nfd ucd t = t;
  mn_estable : forall c, estable c = true -> category_Mn ucd c = false;
  space_space : isspace ucd SPACE = true;
  space_estable :
    forall c, estable c = true -> c <> SPACE -> isspace ucd c = false;
  nfd_sin_enye : forall t, ~ In ENYE (nfd ucd t);
}.

(** [a.get(k, 0)] *)
Definition get (a : gmap ustring Z) (k : ustring) : Z := default 0 (a !! k).

(** A frequency map: no count is negative. *)
Definition no_negativo (a : gmap ustring Z) : Prop :=
  forall k v, a !! k = Some v -> 0 <= v.

Definition bpow (e : Z) : R := powerRZ 2 e.

(** The real number a float stands for; zero for what is not finite. *)
Definition F2R (f : float) : R :=
  match f with
  | S754_finite s m e => (IZR (cond_Zopp s (Zpos m)) * bpow e)%R
  | _ => 0%R
  end.

(** Neither infinite nor NaN. *)
Definition finito (f : float) : bool :=
  match f with
  | S754_zero _ | S754_finite _ _ _ => true
  | _ => false
  end.

Definition es_nan (f : float) : bool :=
  match f with S754_nan => true | _ => false end.

(** How many times [k] occurs among the tokens. *)
Definition veces (k : ustring) (l : list ustring) : Z :=
  Z.of_nat (count_occ (fun x y : ustring => decide (x = y)) l k).

(** A text of moderate length: fewer than 2^500 tokens. *)
Definition moderada (ucd : UCD) (t : ustring) : Prop :=
  Z.of_nat (length (tokenizar ucd t)) < 2 ^ 500.

(** [k] thousandths, as [round(_, 3)] returns them. *)
Definition milesimas (k : Z) : float :=
  match k with
  | Zpos p => nearest_quotient false p 1000
  | _ => fzero
  end.

(** The ids of the rows are 1, 2, 3, ... in the order of the rows, and
    the last of them is the largest id handed out. *)
Definition ids_en_orden (s : store) : Prop :=
  match s with
  | SinTabla => True
  | Tabla filas n =>
      n = Z.of_nat (length filas) /\
      map fid filas = map Z.of_nat (List.seq 1 (length filas))
  end.

Definition es_aprendido (o : impreso) : bool :=
  match o with BotAprendido => true | _ => false end.

Definition es_fallo (o : impreso) : bool :=
  match o with BotFallo _ => true | _ => false end.

(** How many of the printed messages are of a kind. *)
Definition cuenta (p : impreso -> bool) (o : list impreso) : nat :=
  length (List.filter p o).


(** A row taught in a session: its question and its answer are two
    consecutive lines of the session, the question stripped and
    normalized, the answer stripped and not empty. *)
Definition ensenada (ucd : UCD) (ins : list entrada) (f : fila) : Prop :=
  exists pre t u post, ins = pre ++ Linea t :: Linea u :: post /\
    preg f = normalizar ucd (strip (isspace ucd) t) /\
    resp f = strip (isspace ucd) u /\ resp f <> [].

(* ================================================================= *)
(** ** Worked inputs *)

(** One row with 25 distinct tokens, and a query that shares 18 of them
    among its own 25: the cosine is 18 / (5 * 5), the float [UMBRAL]. *)
Definition fila_umbral : fila :=
  {| fid := 1;
     preg := U "a b c d e f g h i j k l m n o p q r s t u v w x y";
     resp := U "veinticinco" |}.

Definition kb_umbral : store := Tabla [fila_umbral] 1.

Definition q_umbral : ustring :=
  U "A B C D E F G H I J K L M N O P Q R z 0 1 2 3 4 5".

(** The seeded table with a second row for "hola" taught later. *)
Definition fila_hola : fila :=
  {| fid := 1; preg := U "hola";
     resp := U "Hola, " ++ [191%N] ++ U "en qu" ++ [233%N] ++ U " te ayudo?" |}.

Definition fila_hola_bis : fila :=
  {| fid := 4; preg := U "hola"; resp := U "Buenas." |}.

Definition filas_medio : list fila :=
  [ {| fid := 2; preg := U "como estas";
       resp := U "Bien. " ++ [191%N] ++ U "Qu" ++ [233%N] ++ U " necesitas?" |};
    {| fid := 3; preg := U "de que te gustaria hablar";
       resp := U "Podemos hablar de ingenier" ++ [237%N] ++ U "a, programaci"
                 ++ [243%N] ++ U "n o del tema que traes." |} ].

(** "¿Dónde está el BAÑO?" taught to the seeded store. *)
Definition q_banyo : ustring :=
  [191%N] ++ U "D" ++ [243%N] ++ U "nde est" ++ [225%N] ++ U " el BA"
    ++ [209%N] ++ U "O?".

Definition kb_banyo : store :=
  Tabla ([fila_hola] ++ filas_medio ++
         [{| fid := 4; preg := U "donde esta el bano?"; resp := U "Al fondo." |}])
        4.

(** Two and three distinct tokens. *)
Definition v_ab : gmap ustring Z := vectorizar [U "a"; U "b"].
Definition v_abc : gmap ustring Z := vectorizar [U "a"; U "b"; U "c"].

(** 0.9999999999999998 and 1.0000000000000002, the neighbours of 1.0. *)
Definition bajo_uno : float := S754_finite false 9007199254740990 (-53).
Definition sobre_uno : float := S754_finite false 4503599627370497 (-52).

(** "a" 28 times and "b" 27 times: against the query "a" the cosine is
    28 / sqrt(1513), about 0.71984. *)
Definition fila_redondeo : fila :=
  {| fid := 1;
     preg := U "a a a a a a a a a a a a a a a a a a a a a a a a a a a a b b b b b b b b b b b b b b b b b b b b b b b b b b b";
     resp := U "muchas" |}.

Definition crudo_redondeo : float := S754_finite false 6483781001242750 (-53).

(** The table that [iniciar_db] leaves in an empty database. *)
Definition filas_semilla : list fila := fila_hola :: filas_medio.

(** A session: a question that is not known, its answer, the question
    again, Ctrl+C. *)
Definition entradas_banyo : list entrada :=
  [Linea q_banyo; Linea (U " Al fondo. "); Linea q_banyo; CtrlC].

(* ================================================================= *)
(** * Properties *)

(** ** The order of floats *)

Lemma SFcompare_antisym (x y : float) :
  SFcompare y x = option_map CompOpp (SFcompare x y).
Proof.
  destruct x as [sx|sx| |sx mx ex], y as [sy|sy| |sy my ey]; simpl;
    try reflexivity;
    try (destruct sx; try destruct sy; reflexivity);
    try (destruct sy; reflexivity).
  destruct sx, sy; simpl; try reflexivity;
    rewrite (Z.compare_antisym ex ey); destruct (ex ?= ey); simpl;
    try reflexivity;
    change (Pos.compare_cont Eq my mx) with (my ?= mx)%positive;
    change (Pos.compare_cont Eq mx my) with (mx ?= my)%positive;
    rewrite (Pos.compare_antisym mx my);
    destruct (mx ?= my)%positive; reflexivity.
Qed.

Lemma fltb_irrefl (x : float) : fltb x x = false.
Proof.
  unfold fltb, SFltb.
  destruct x as [s|s| |s m e]; simpl; try reflexivity.
  - destruct s; reflexivity.
  - destruct s; rewrite Z.compare_refl;
      change (Pos.compare_cont Eq m m) with (m ?= m)%positive;
      rewrite Pos.compare_refl; reflexivity.
Qed.

Lemma fltb_fleb_false (x y : float) : fltb x y = true -> fleb y x = false.
Proof.
  unfold fltb, fleb, SFltb, SFleb. rewrite (SFcompare_antisym x y).
  destruct (SFcompare x y) as [[ | | ]|]; simpl; congruence.
Qed.

Lemma feqb_fltb_false (x y : float) : feqb x y = true -> fltb y x = false.
Proof.
  unfold fltb, feqb, SFltb, SFeqb. rewrite (SFcompare_antisym x y).
  destruct (SFcompare x y) as [[ | | ]|]; simpl; congruence.
Qed.

Ltac cmp_cases :=
  repeat match goal with
    | H : context [(?a ?= ?b)%Z] |- _ =>
        destruct (Z.compare_spec a b); try discriminate H
    | H : context [Pos.compare_cont Eq ?a ?b] |- _ =>
        change (Pos.compare_cont Eq a b) with (a ?= b)%positive in H;
        destruct (Pos.compare_spec a b); try discriminate H
    | |- context [(?a ?= ?b)%Z] =>
        destruct (Z.compare_spec a b)
    | |- context [Pos.compare_cont Eq ?a ?b] =>
        change (Pos.compare_cont Eq a b) with (a ?= b)%positive;
        destruct (Pos.compare_spec a b)
    end.

Lemma fltb_trans (x y z : float) :
  fltb x y = true -> fltb y z = true -> fltb x z = true.
Proof.
  unfold fltb, SFltb.
  destruct x as [sx|sx| |sx mx ex], y as [sy|sy| |sy my ey],
    z as [sz|sz| |sz mz ez]; simpl;
    try discriminate;
    try (destruct sx; try destruct sy; try destruct sz; simpl; congruence);
    try (destruct sy; try destruct sz; simpl; congruence).
  destruct sx, sy, sz; simpl; try congruence; intros Hxy Hyz;
    cmp_cases; simpl in *; try reflexivity; try discriminate; try lia.
Qed.

Lemma feqb_zero_inv (z : float) :
  feqb z fzero = true -> exists s, z = S754_zero s.
Proof.
  destruct z as [s|s| |s m e]; simpl; try discriminate; eauto.
  - destruct s; discriminate.
  - destruct s; discriminate.
Qed.

Lemma fltb_zero_sign (b : float) (s : bool) :
  fltb b (S754_zero s) = fltb b fzero.
Proof. destruct b as [sb|sb| |sb m e]; reflexivity. Qed.

(* ================================================================= *)
(** ** The scan of [mejor_coincidencia] *)

Section Recorrido.

Variable ucd : UCD.
Variable vec_q : gmap ustring Z.

(** The score of a row against the query vector, as [paso] computes it. *)
Definition puntuar (f : fila) : result float :=
  similitud_coseno vec_q (vectorizar (tokenizar ucd (preg f))).

Lemma paso_deja (mejor : coincidencia_t) (f : fila) (s : float) :
  puntuar f = Ok s -> fltb (m_score mejor) s = false ->
  paso ucd vec_q mejor f = Ok mejor.
Proof.
  unfold paso, puntuar. intros -> Hlt. simpl. rewrite Hlt. reflexivity.
Qed.

Lemma paso_toma (mejor : coincidencia_t) (f : fila) (s : float) :
  puntuar f = Ok s -> fltb (m_score mejor) s = true ->
  paso ucd vec_q mejor f = Ok (candidato f s).
Proof.
  unfold paso, puntuar. intros -> Hlt. simpl. rewrite Hlt. reflexivity.
Qed.

Lemma paso_inv (mejor mejor' : coincidencia_t) (f : fila) :
  paso ucd vec_q mejor f = Ok mejor' ->
  exists s, puntuar f = Ok s /\
    ((fltb (m_score mejor) s = true /\ mejor' = candidato f s) \/
     (fltb (m_score mejor) s = false /\ mejor' = mejor)).
Proof.
  unfold paso, puntuar.
  destruct (similitud_coseno _ _) as [s|e]; simpl; [|discriminate].
  destruct (fltb (m_score mejor) s) eqn:Hlt; intros [= <-]; eauto.
Qed.

Lemma recorrer_app (mejor : coincidencia_t) (l1 l2 : list fila) :
  recorrer ucd vec_q mejor (l1 ++ l2) =
  (recorrer ucd vec_q mejor l1 ≫= fun m => recorrer ucd vec_q m l2).
Proof.
  revert mejor. induction l1 as [|f l1 IH]; intros mejor; simpl.
  - reflexivity.
  - destruct (paso ucd vec_q mejor f) as [m|e]; simpl; [apply IH|reflexivity].
Qed.

(** The running best never goes down: what it is not below, it stays
    not below. *)
Lemma paso_mono (mejor mejor' : coincidencia_t) (f : fila) (s : float) :
  paso ucd vec_q mejor f = Ok mejor' ->
  fltb (m_score mejor) s = false -> fltb (m_score mejor') s = false.
Proof.
  intros Hp Hs. apply paso_inv in Hp as (t & _ & [[Hlt ->]|[_ ->]]); [|exact Hs].
  simpl. destruct (fltb t s) eqn:Hts; [|reflexivity].
  rewrite (fltb_trans _ _ _ Hlt Hts) in Hs. discriminate.
Qed.

Lemma recorrer_mono (l : list fila) (mejor mejor' : coincidencia_t) (s : float) :
  recorrer ucd vec_q mejor l = Ok mejor' ->
  fltb (m_score mejor) s = false -> fltb (m_score mejor') s = false.
Proof.
  revert mejor. induction l as [|f l IH]; intros mejor; simpl.
  - intros [= <-]. auto.
  - destruct (paso ucd vec_q mejor f) as [m|e] eqn:Hp; simpl; [|discriminate].
    intros Hr Hs. eapply IH; [exact Hr|]. eapply paso_mono; eauto.
Qed.

(** A row whose score the running best is not below changes nothing. *)
Lemma recorrer_salta (l1 l2 : list fila) (f : fila) (s : float)
    (mejor : coincidencia_t) :
  puntuar f = Ok s ->
  (forall m, recorrer ucd vec_q mejor l1 = Ok m -> fltb (m_score m) s = false) ->
  recorrer ucd vec_q mejor (l1 ++ f :: l2) = recorrer ucd vec_q mejor (l1 ++ l2).
Proof.
  intros Hf Hm. rewrite !recorrer_app.
  destruct (recorrer ucd vec_q mejor l1) as [m|e]; simpl; [|reflexivity].
  rewrite (paso_deja m f s Hf (Hm m eq_refl)). reflexivity.
Qed.

(** Rows that score strictly below [s] leave a best that is below [s]. *)
Lemma recorrer_debajo (l : list fila) (mejor : coincidencia_t) (s : float) :
  fltb (m_score mejor) s = true ->
  Forall (fun f => exists t, puntuar f = Ok t /\ fltb t s = true) l ->
  exists m, recorrer ucd vec_q mejor l = Ok m /\ fltb (m_score m) s = true.
Proof.
  revert mejor. induction l as [|f l IH]; intros mejor Hb Hl; simpl.
  - eauto.
  - inversion Hl as [|? ? (t & Ht & Hts) Hl']; subst.
    destruct (fltb (m_score mejor) t) eqn:Hlt.
    + rewrite (paso_toma _ _ _ Ht Hlt). simpl. apply IH; auto.
    + rewrite (paso_deja _ _ _ Ht Hlt). simpl. apply IH; auto.
Qed.

(** Rows that do not score above the running best leave it as it is. *)
Lemma recorrer_queda (l : list fila) (mejor : coincidencia_t) :
  Forall (fun f => exists t, puntuar f = Ok t /\
                     fltb (m_score mejor) t = false) l ->
  recorrer ucd vec_q mejor l = Ok mejor.
Proof.
  induction l as [|f l IH]; intros Hl; simpl.
  - reflexivity.
  - inversion Hl as [|? ? (t & Ht & Hts) Hl']; subst.
    rewrite (paso_deja _ _ _ Ht Hts). simpl. auto.
Qed.

End Recorrido.

Section Politica.

Variable ucd : UCD.

(** The query vector of [mejor_coincidencia]. *)
Definition consulta (q : ustring) : gmap ustring Z :=
  vectorizar (tokenizar ucd (normalizar ucd q)).

Lemma mejor_coincidencia_tabla (filas : list fila) (seq : Z) (q : ustring) :
  mejor_coincidencia ucd (Tabla filas seq) q =
  (recorrer ucd (consulta q) centinela filas ≫=
     fun mejor => Ok (mejor, normalizar ucd q)).
Proof. reflexivity. Qed.

Lemma recorrer_origen (vq : gmap ustring Z) (l : list fila)
    (m0 m : coincidencia_t) :
  recorrer ucd vq m0 l = Ok m ->
  m = m0 \/ exists f t, In f l /\ m = candidato f t.
Proof.
  revert m0. induction l as [|f l IH]; intros m0; simpl.
  - intros [= <-]. auto.
  - destruct (paso ucd vq m0 f) as [m1|e] eqn:Hp; simpl; [|discriminate].
    intros Hr. apply IH in Hr as [->|(g & t & Hg & ->)].
    + apply paso_inv in Hp as (t & _ & [[_ ->]|[_ ->]]); [|auto].
      right. exists f, t. split; [apply in_eq|reflexivity].
    + right. exists g, t. split; [apply in_cons; exact Hg|reflexivity].
Qed.

(** C1.  Threshold boundary.  Whatever the best match of a query is, a
    score at or above [UMBRAL] makes [responder] return the hit (flag set,
    the stored answer, the matched question present), a score strictly
    below makes it return the miss; a score equal to [UMBRAL] is a hit. *)
Theorem umbral_frontera (s : store) (mensaje : ustring)
    (mejor : coincidencia_t) (norm : ustring) :
  mejor_coincidencia ucd s mensaje = Ok (mejor, norm) ->
  (fleb UMBRAL (m_score mejor) = true ->
   responder ucd s mensaje = Ok (acierto mejor)) /\
  (fltb (m_score mejor) UMBRAL = true ->
   responder ucd s mensaje = Ok (fallo mejor)) /\
  (m_score mejor = UMBRAL ->
   responder ucd s mensaje = Ok (acierto mejor)).
Proof.
  intros Hm. unfold responder. rewrite Hm. simpl.
  split; [|split].
  - intros ->. reflexivity.
  - intros Hlt. rewrite (fltb_fleb_false _ _ Hlt). reflexivity.
  - intros Heq.
    assert (Hge : fleb UMBRAL (m_score mejor) = true)
      by (rewrite Heq; vm_compute; reflexivity).
    rewrite Hge. reflexivity.
Qed.

(** C7.  Sentinel and guaranteed miss.  When the table is empty or every
    row scores zero against the query, [mejor_coincidencia] returns the
    sentinel and [responder] the miss with score 0.0 and the fixed
    message.  In any table, a row that scores zero never becomes the
    match: the scan gives what it gives without that row. *)
Theorem centinela_y_fallo (q : ustring) :
  (forall filas seq,
     Forall (fun f => exists z, puntuar ucd (consulta q) f = Ok z /\
                        feqb z fzero = true) filas ->
     mejor_coincidencia ucd (Tabla filas seq) q
       = Ok (centinela, normalizar ucd q) /\
     responder ucd (Tabla filas seq) q
       = Ok {| coincidencia := false; respuesta := SIN_RESPUESTA;
               puntaje := fzero; pregunta_coincidente := None |}) /\
  (forall l1 f l2 seq z,
     puntuar ucd (consulta q) f = Ok z -> feqb z fzero = true ->
     mejor_coincidencia ucd (Tabla (l1 ++ f :: l2) seq) q
       = mejor_coincidencia ucd (Tabla (l1 ++ l2) seq) q).
Proof.
  split.
  - intros filas seq Hz.
    assert (Hr : recorrer ucd (consulta q) centinela filas = Ok centinela).
    { apply recorrer_queda. eapply Forall_impl; [exact Hz|].
      intros f (z & Hf & Hz0). exists z. split; [exact Hf|].
      apply feqb_fltb_false. exact Hz0. }
    unfold responder. rewrite mejor_coincidencia_tabla, Hr. simpl. auto.
  - intros l1 f l2 seq z Hf Hz. rewrite !mejor_coincidencia_tabla.
    f_equal. apply recorrer_salta with (s := z); [exact Hf|].
    intros m Hm. apply feqb_zero_inv in Hz as [sz ->].
    rewrite fltb_zero_sign.
    eapply recorrer_mono; [exact Hm|reflexivity].
Qed.

(** C5.  Tie-break.  The best is replaced only on a strictly greater
    score.  So of two rows with the same score the later one is never
    returned: the scan gives what it gives without it, and its id is not
    the id of the result.  When that score is positive, above all earlier
    rows and not below any other row, the earlier of the two is the
    result. *)
Theorem desempate (q : ustring) (seq : Z) (l1 l2 l3 : list fila)
    (f1 f2 : fila) (s : float) :
  puntuar ucd (consulta q) f1 = Ok s ->
  puntuar ucd (consulta q) f2 = Ok s ->
  (forall mejor, fltb (m_score mejor) s = false ->
     paso ucd (consulta q) mejor f2 = Ok mejor) /\
  mejor_coincidencia ucd (Tabla (l1 ++ f1 :: l2 ++ f2 :: l3) seq) q
    = mejor_coincidencia ucd (Tabla (l1 ++ f1 :: l2 ++ l3) seq) q /\
  (forall m n,
     mejor_coincidencia ucd (Tabla (l1 ++ f1 :: l2 ++ f2 :: l3) seq) q
       = Ok (m, n) ->
     fid f2 <> -1 -> ~ In (fid f2) (map fid (l1 ++ f1 :: l2 ++ l3)) ->
     m_id m <> fid f2) /\
  (fltb fzero s = true ->
   Forall (fun f => exists t, puntuar ucd (consulta q) f = Ok t /\
                      fltb t s = true) l1 ->
   Forall (fun f => exists t, puntuar ucd (consulta q) f = Ok t /\
                      fltb s t = false) (l2 ++ l3) ->
   mejor_coincidencia ucd (Tabla (l1 ++ f1 :: l2 ++ f2 :: l3) seq) q
     = Ok (candidato f1 s, normalizar ucd q)).
Proof.
  intros H1 H2.
  assert (Hsalta :
    mejor_coincidencia ucd (Tabla (l1 ++ f1 :: l2 ++ f2 :: l3) seq) q
    = mejor_coincidencia ucd (Tabla (l1 ++ f1 :: l2 ++ l3) seq) q).
  { rewrite !mejor_coincidencia_tabla. f_equal.
    change (l1 ++ f1 :: l2 ++ f2 :: l3) with (l1 ++ (f1 :: l2) ++ f2 :: l3).
    change (l1 ++ f1 :: l2 ++ l3) with (l1 ++ (f1 :: l2) ++ l3).
    rewrite !(app_assoc l1).
    apply recorrer_salta with (s := s); [exact H2|].
    intros m. rewrite recorrer_app.
    destruct (recorrer ucd (consulta q) centinela l1) as [m1|e]; simpl;
      [|discriminate].
    destruct (paso ucd (consulta q) m1 f1) as [m2|e] eqn:Hp; simpl;
      [|discriminate].
    intros Hr. eapply recorrer_mono; [exact Hr|].
    apply paso_inv in Hp as (t & Ht & Hcase).
    rewrite H1 in Ht. injection Ht as <-.
    destruct Hcase as [[_ ->]|[Hlt ->]]; [apply fltb_irrefl|exact Hlt]. }
  split; [|split; [exact Hsalta|split]].
  - intros mejor Hlt. eapply paso_deja; eauto.
  - intros m n Hm Hid Hnotin. rewrite Hsalta, mejor_coincidencia_tabla in Hm.
    destruct (recorrer _ _ _ _) as [m'|e] eqn:Hr; simpl in Hm; [|discriminate].
    injection Hm as <- <-.
    apply recorrer_origen in Hr as [->|(g & t & Hg & ->)]; simpl.
    + congruence.
    + intros Heq. apply Hnotin. rewrite <- Heq. apply in_map. exact Hg.
  - intros Hpos Hl1 Hl23. rewrite Hsalta, mejor_coincidencia_tabla.
    rewrite recorrer_app.
    destruct (recorrer_debajo ucd (consulta q) l1 centinela s Hpos Hl1)
      as (m1 & -> & Hm1). simpl.
    rewrite (paso_toma _ _ _ _ _ H1 Hm1). simpl.
    rewrite recorrer_queda; [reflexivity|exact Hl23].
Qed.

End Politica.

(* ================================================================= *)
(** ** Bootstrap *)

(** C9.  Bootstrap idempotence.  On a store with no row, [iniciar_db]
    leaves exactly the three seed rows; on a store with a row it
    inserts nothing; so the seeds go in if and only if the store is empty,
    and a second call changes nothing. *)
Theorem iniciar_db_idempotente (s : store) :
  (filas_de s = [] ->
   map par (filas_de (iniciar_db s)) = semillas /\
   length (filas_de (iniciar_db s)) = 3%nat) /\
  (filas_de s <> [] -> filas_de (iniciar_db s) = filas_de s) /\
  (filas_de (iniciar_db s) <> filas_de s <-> filas_de s = []) /\
  iniciar_db (iniciar_db s) = iniciar_db s.
Proof.
  destruct s as [|[|f filas] seq]; simpl;
    repeat split; intros; try reflexivity; try congruence; try discriminate.
Qed.

(* ================================================================= *)
(** ** The normalizer *)

Section Strip.

Variable sp : N -> bool.

Lemma lstrip_In (c : N) (t : ustring) : In c (lstrip sp t) -> In c t.
Proof.
  induction t as [|d t IH]; simpl; [tauto|].
  destruct (sp d); simpl; tauto.
Qed.

Lemma rstrip_In (c : N) (t : ustring) : In c (rstrip sp t) -> In c t.
Proof.
  unfold rstrip. rewrite <- in_rev. intros H. apply lstrip_In in H.
  rewrite <- in_rev in H. exact H.
Qed.

Lemma sub_runs_In (c : N) (b : bool) (t : ustring) :
  In c (sub_runs sp b t) -> c = SPACE \/ (In c t /\ sp c = false).
Proof.
  revert b. induction t as [|d t IH]; intros b; simpl; [tauto|].
  destruct (sp d) eqn:Hd; [destruct b|]; simpl; intros H.
  - apply IH in H. tauto.
  - destruct H as [<-|H]; [tauto|]. apply IH in H. tauto.
  - destruct H as [<-|H]; [tauto|]. apply IH in H. tauto.
Qed.

Lemma lstrip_head (t : ustring) :
  lstrip sp t = [] \/ exists c r, lstrip sp t = c :: r /\ sp c = false.
Proof.
  induction t as [|d t IH]; simpl; [auto|].
  destruct (sp d) eqn:Hd; [exact IH|]. right. eauto.
Qed.

Lemma lstrip_snoc (t : ustring) (c : N) :
  sp c = false -> lstrip sp (t ++ [c]) = lstrip sp t ++ [c].
Proof.
  intros Hc. induction t as [|d t IH]; simpl.
  - rewrite Hc. reflexivity.
  - destruct (sp d); [exact IH|reflexivity].
Qed.

Lemma rstrip_cons (c : N) (t : ustring) :
  sp c = false -> rstrip sp (c :: t) = c :: rstrip sp t.
Proof.
  intros Hc. unfold rstrip. simpl. rewrite (lstrip_snoc _ _ Hc).
  rewrite rev_app_distr. reflexivity.
Qed.

Lemma lstrip_suffix (t : ustring) : exists pre, t = pre ++ lstrip sp t.
Proof.
  induction t as [|d t [pre IH]]; simpl.
  - exists []. reflexivity.
  - destruct (sp d).
    + exists (d :: pre). simpl. f_equal. exact IH.
    + exists []. reflexivity.
Qed.

Lemma rstrip_prefix (t : ustring) : exists post, t = rstrip sp t ++ post.
Proof.
  unfold rstrip. destruct (lstrip_suffix (rev t)) as [pre H].
  exists (rev pre). rewrite <- rev_app_distr, <- H, rev_involutive.
  reflexivity.
Qed.

(** No two neighbours are both in the class; [prev] says that the
    character before the list is in it. *)
Fixpoint sin_dobles (prev : bool) (t : ustring) : bool :=
  match t with
  | [] => true
  | c :: r => if sp c then negb prev && sin_dobles true r
              else sin_dobles false r
  end.

Lemma sin_dobles_weaken (t : ustring) :
  sin_dobles true t = true -> sin_dobles false t = true.
Proof. destruct t as [|c r]; simpl; [auto|]. destruct (sp c); simpl; auto; discriminate. Qed.

Lemma sin_dobles_app_r (b : bool) (t1 t2 : ustring) :
  sin_dobles b (t1 ++ t2) = true -> sin_dobles false t2 = true.
Proof.
  revert b. induction t1 as [|c t1 IH]; intros b; simpl.
  - destruct b; [apply sin_dobles_weaken|auto].
  - destruct (sp c); [|apply IH].
    rewrite andb_true_iff. intros [_ H]. eapply IH; exact H.
Qed.

Lemma sin_dobles_app_l (b : bool) (t1 t2 : ustring) :
  sin_dobles b (t1 ++ t2) = true -> sin_dobles b t1 = true.
Proof.
  revert b. induction t1 as [|c t1 IH]; intros b; simpl; [auto|].
  destruct (sp c); [|apply IH].
  rewrite !andb_true_iff. intros [Hb H]. split; [exact Hb|]. eapply IH; exact H.
Qed.

Lemma sub_runs_sin_dobles (b : bool) (t : ustring) :
  sp SPACE = true -> sin_dobles b (sub_runs sp b t) = true.
Proof.
  intros Hsp. revert b. induction t as [|c t IH]; intros b; simpl; [reflexivity|].
  destruct (sp c) eqn:Hc; [destruct b|]; simpl.
  - apply IH.
  - rewrite Hsp. simpl. apply IH.
  - rewrite Hc. apply IH.
Qed.

Lemma sub_runs_fijo (b : bool) (t : ustring) :
  (forall c, In c t -> sp c = true -> c = SPACE) ->
  sin_dobles b t = true -> sub_runs sp b t = t.
Proof.
  revert b. induction t as [|c t IH]; intros b Hsp; simpl; [reflexivity|].
  destruct (sp c) eqn:Hc.
  - rewrite andb_true_iff. intros [Hb H]. destruct b; [discriminate|].
    rewrite (Hsp c) by (simpl; auto). f_equal.
    apply IH; [|exact H]. intros d Hd. apply Hsp. simpl; auto.
  - intros H. f_equal. apply IH; [|exact H].
    intros d Hd. apply Hsp. simpl; auto.
Qed.

Lemma strip_infix (t : ustring) :
  exists pre post, t = pre ++ strip sp t ++ post.
Proof.
  unfold strip. destruct (lstrip_suffix t) as [pre Hpre].
  destruct (rstrip_prefix (lstrip sp t)) as [post Hpost].
  exists pre, post. rewrite <- Hpost. exact Hpre.
Qed.

End Strip.

Definition es_espacio (c : N) : bool := (c =? SPACE)%N.

(** The shape of a normalized question: stable characters, single
    spaces, none at either end. *)
Definition limpia (y : ustring) : bool :=
  forallb estable y && sin_dobles es_espacio false y
  && match y with [] => true | c :: _ => negb (es_espacio c) end
  && match rev y with [] => true | c :: _ => negb (es_espacio c) end.

Lemma sin_dobles_ext (sp1 sp2 : N -> bool) (b : bool) (t : ustring) :
  (forall c, In c t -> sp1 c = sp2 c) ->
  sin_dobles sp1 b t = sin_dobles sp2 b t.
Proof.
  revert b. induction t as [|c t IH]; intros b H; simpl; [reflexivity|].
  rewrite (H c) by (simpl; auto).
  rewrite !IH by (intros d Hd; apply H; simpl; auto). reflexivity.
Qed.

Lemma filter_fijo (p : N -> bool) (t : ustring) :
  (forall c, In c t -> p c = true) -> List.filter p t = t.
Proof.
  induction t as [|c t IH]; intros H; simpl; [reflexivity|].
  rewrite (H c) by (simpl; auto). f_equal. apply IH.
  intros d Hd. apply H. simpl; auto.
Qed.

Lemma map_fijo (g : N -> N) (t : ustring) :
  (forall c, In c t -> g c = c) -> map g t = t.
Proof.
  induction t as [|c t IH]; intros H; simpl; [reflexivity|].
  rewrite (H c) by (simpl; auto). f_equal. apply IH.
  intros d Hd. apply H. simpl; auto.
Qed.

Section Normalizador.

Variable ucd : UCD.

(** No normalized string holds an ñ, whatever the input: [nfd] leaves
    none, and the later steps only delete characters or write spaces. *)
Lemma normalizar_sin_enye :
  (forall t, ~ In ENYE (nfd ucd t)) ->
  forall texto, ~ In ENYE (normalizar ucd texto).
Proof.
  intros Hnfd texto H. unfold normalizar, strip in H.
  apply rstrip_In, lstrip_In, sub_runs_In in H as [H|[H _]]; [discriminate|].
  apply in_map_iff in H as (c & Hc & Hin).
  apply filter_In in Hin as [Hin _].
  destruct (retained ucd c); [|discriminate].
  subst c. exact (Hnfd _ Hin).
Qed.

Hypothesis Hok : ucd_ok ucd.

Lemma estable_espacio (c : N) :
  estable c = true -> isspace ucd c = es_espacio c.
Proof.
  intros Hc. unfold es_espacio. destruct (N.eqb_spec c SPACE) as [->|Hne].
  - apply (space_space _ Hok).
  - apply (space_estable _ Hok); assumption.
Qed.

Lemma estable_retained (c : N) : estable c = true -> retained ucd c = true.
Proof.
  unfold estable, retained. intros H.
  destruct (is_az c); [reflexivity|]. destruct (is_09 c); [reflexivity|].
  simpl in *. destruct (N.eqb_spec c SPACE) as [Heq|_].
  - rewrite Heq, (space_space _ Hok). rewrite orb_true_r. reflexivity.
  - simpl in H. rewrite H. rewrite !orb_true_r. reflexivity.
Qed.

Lemma normalizar_In (c : N) (texto : ustring) :
  In c (normalizar ucd texto) -> estable c = true.
Proof.
  intros H. assert (Hne : c <> ENYE).
  { intros ->. exact (normalizar_sin_enye (nfd_sin_enye _ Hok) _ H). }
  unfold normalizar, strip in H.
  apply rstrip_In, lstrip_In, sub_runs_In in H as [->|[H Hsp]]; [reflexivity|].
  apply in_map_iff in H as (d & Hd & _).
  destruct (retained ucd d) eqn:Hr; [|subst c; reflexivity].
  subst d. unfold retained in Hr. unfold estable.
  destruct (is_az c); [reflexivity|]. destruct (is_09 c); [reflexivity|].
  simpl in *. rewrite Hsp in Hr.
  destruct (N.eqb_spec c ENYE); [contradiction|]. simpl in Hr.
  rewrite Hr. apply orb_true_r.
Qed.

Lemma normalizar_estable (texto : ustring) :
  forallb estable (normalizar ucd texto) = true.
Proof. apply forallb_forall. intros c. apply normalizar_In. Qed.

(** A clean string is a fixed point of [normalizar]. *)
Lemma normalizar_fijo (y : ustring) : limpia y = true -> normalizar ucd y = y.
Proof.
  unfold limpia. rewrite !andb_true_iff. intros [[[Hest Hdob] Hini] Hfin].
  assert (Hc : forall c, In c y -> estable c = true)
    by (apply forallb_forall; exact Hest).
  unfold normalizar.
  rewrite (lower_estable _ Hok _ Hest), (nfd_estable _ Hok _ Hest).
  rewrite filter_fijo
    by (intros c Hin; rewrite (mn_estable _ Hok _ (Hc c Hin)); reflexivity).
  rewrite map_fijo
    by (intros c Hin; rewrite (estable_retained _ (Hc c Hin)); reflexivity).
  rewrite sub_runs_fijo.
  - unfold strip.
    assert (Hl : lstrip (isspace ucd) y = y).
    { destruct y as [|c r]; [reflexivity|]. simpl.
      rewrite (estable_espacio c) by (apply Hc; simpl; auto).
      apply negb_true_iff in Hini. rewrite Hini. reflexivity. }
    rewrite Hl. unfold rstrip.
    destruct (rev y) as [|c r] eqn:Hrev.
    + simpl. rewrite <- (rev_involutive y), Hrev. reflexivity.
    + simpl. rewrite (estable_espacio c).
      * apply negb_true_iff in Hfin. rewrite Hfin.
        rewrite <- Hrev. apply rev_involutive.
      * apply Hc. apply in_rev. rewrite Hrev. simpl; auto.
  - intros c Hin Hsp. rewrite (estable_espacio c (Hc c Hin)) in Hsp.
    apply N.eqb_eq. exact Hsp.
  - rewrite (sin_dobles_ext (isspace ucd) es_espacio); [exact Hdob|].
    intros c Hin. apply estable_espacio, Hc, Hin.
Qed.

Lemma normalizar_limpia (texto : ustring) :
  limpia (normalizar ucd texto) = true.
Proof.
  pose proof (normalizar_In) as Hin.
  unfold limpia. rewrite !andb_true_iff. repeat split.
  - apply normalizar_estable.
  - rewrite <- (sin_dobles_ext (isspace ucd) es_espacio)
      by (intros c Hc; apply estable_espacio; eapply Hin; exact Hc).
    unfold normalizar.
    match goal with |- context [sub_runs _ false ?t] => set (u := sub_runs _ false t) end.
    destruct (strip_infix (isspace ucd) u) as (pre & post & Hu).
    pose proof (sub_runs_sin_dobles (isspace ucd) false
                  (map (fun c => if retained ucd c then c else SPACE)
                     (List.filter (fun c => negb (category_Mn ucd c))
                        (nfd ucd (str_lower ucd texto))))
                  (space_space _ Hok)) as Hs.
    fold u in Hs. rewrite Hu in Hs.
    apply sin_dobles_app_r in Hs. apply sin_dobles_app_l in Hs. exact Hs.
  - destruct (normalizar ucd texto) as [|c r] eqn:Hn; [reflexivity|].
    assert (Hc : estable c = true) by (apply (Hin c texto); rewrite Hn; simpl; auto).
    rewrite <- (estable_espacio c Hc).
    unfold normalizar, strip in Hn.
    destruct (lstrip_head (isspace ucd)
                (sub_runs (isspace ucd) false
                   (map (fun c => if retained ucd c then c else SPACE)
                      (List.filter (fun c => negb (category_Mn ucd c))
                         (nfd ucd (str_lower ucd texto))))))
      as [He|(d & r' & He & Hd)]; rewrite He in Hn.
    + discriminate.
    + rewrite (rstrip_cons _ _ _ Hd) in Hn. injection Hn as -> _.
      rewrite Hd. reflexivity.
  - destruct (rev (normalizar ucd texto)) as [|c r] eqn:Hn; [reflexivity|].
    assert (Hc : estable c = true).
    { apply (Hin c texto). apply in_rev. rewrite Hn. simpl; auto. }
    rewrite <- (estable_espacio c Hc).
    unfold normalizar, strip, rstrip in Hn. rewrite rev_involutive in Hn.
    match type of Hn with lstrip _ ?t = _ =>
      destruct (lstrip_head (isspace ucd) t) as [He|(d & r' & He & Hd)];
      rewrite He in Hn end.
    + discriminate.
    + injection Hn as -> _. rewrite Hd. reflexivity.
Qed.

(** [normalizar] is idempotent. *)
Lemma normalizar_idem (texto : ustring) :
  normalizar ucd (normalizar ucd texto) = normalizar ucd texto.
Proof. apply normalizar_fijo, normalizar_limpia. Qed.

End Normalizador.

(* ================================================================= *)
(** ** The Latin fragment satisfies the facts used *)

Ltac nbool :=
  unfold estable, is_az, is_09, is_punct, in_range, SPACE, ENYE in *;
  repeat match goal with
    | H : _ || _ = true |- _ => apply orb_true_iff in H; destruct H
    | H : _ && _ = true |- _ => apply andb_true_iff in H; destruct H
    | H : (_ <=? _)%N = true |- _ => apply N.leb_le in H
    | H : (_ =? _)%N = true |- _ => apply N.eqb_eq in H
    end.

Lemma estable_cota (c : N) : estable c = true -> (c <= 122)%N.
Proof. intros H. nbool; lia. Qed.

Lemma assoc_In (c : N) (tbl : list (N * (N * N))) (v : N * N) :
  assoc c tbl = Some v -> In (c, v) tbl.
Proof.
  induction tbl as [|[k w] tbl IH]; simpl; [discriminate|].
  destruct (N.eqb_spec k c) as [->|_].
  - intros [= ->]. auto.
  - intros H. auto.
Qed.

Lemma latin_decomp_cotas (c b m : N) :
  assoc c latin_decomp = Some (b, m) ->
  (192 <= c <= 221 /\ 65 <= b <= 89 /\ 768 <= m)%N.
Proof.
  intros H. apply assoc_In in H. unfold latin_decomp in H. simpl in H.
  repeat match type of H with
    | _ \/ _ => destruct H as [H|H]
    end; try contradiction; injection H as <- <- <-; lia.
Qed.

Lemma assoc_fuera (c : N) :
  (c < 192 \/ 221 < c)%N -> assoc c latin_decomp = None.
Proof.
  intros H. destruct (assoc c latin_decomp) as [[b m]|] eqn:Ha; [|reflexivity].
  apply latin_decomp_cotas in Ha. lia.
Qed.

Lemma latin_lower_estable (c : N) : estable c = true -> latin_lower_cp c = c.
Proof.
  intros H. apply estable_cota in H as Hc. unfold latin_lower_cp, in_range.
  destruct (N.leb_spec 65 c), (N.leb_spec c 90); simpl;
    try (exfalso; clear Hc; nbool; lia).
  - destruct (N.leb_spec 192 c); [lia|]. reflexivity.
  - destruct (N.leb_spec 192 c); [lia|]. reflexivity.
Qed.

Lemma latin_nfd_estable (c : N) : estable c = true -> latin_nfd_cp c = [c].
Proof.
  intros H. apply estable_cota in H. unfold latin_nfd_cp.
  rewrite (assoc_fuera c) by lia. rewrite (assoc_fuera (c - 32)) by lia.
  destruct (N.eqb_spec c 255); [lia|reflexivity].
Qed.

Lemma latin_nfd_sin_enye (c : N) : ~ In ENYE (latin_nfd_cp c).
Proof.
  unfold latin_nfd_cp, ENYE.
  destruct (assoc c latin_decomp) as [[b m]|] eqn:H1.
  - apply latin_decomp_cotas in H1. simpl. lia.
  - destruct (assoc (c - 32) latin_decomp) as [[b m]|] eqn:H2.
    + apply latin_decomp_cotas in H2. unfold in_range.
      destruct (N.leb_spec 224 c), (N.leb_spec c 253); simpl; lia.
    + destruct (N.eqb_spec c 255); simpl; [lia|].
      intros [->|[]]. vm_compute in H2. discriminate.
Qed.

Lemma ucd_latin_ok : ucd_ok ucd_latin.
Proof.
  split; simpl.
  - intros t Ht. apply map_fijo. intros c Hc. apply latin_lower_estable.
    rewrite forallb_forall in Ht. auto.
  - induction t as [|c t IH]; simpl; [reflexivity|].
    rewrite andb_true_iff. intros [Hc Ht].
    rewrite (latin_nfd_estable c Hc), IH by exact Ht. reflexivity.
  - intros c H. apply estable_cota in H. unfold in_range.
    destruct (N.leb_spec 768 c); [lia|reflexivity].
  - reflexivity.
  - intros c H Hne. apply estable_cota in H as Hc. unfold latin_isspace, in_range.
    destruct (N.leb_spec 9 c), (N.leb_spec c 13), (N.leb_spec 28 c),
      (N.leb_spec c 32), (N.eqb_spec c 133), (N.eqb_spec c 160); simpl;
      try reflexivity; exfalso; clear Hc; nbool; lia.
  - intros t H. apply in_flat_map in H as (c & _ & H).
    exact (latin_nfd_sin_enye c H).
Qed.

(** C3.  The pattern of [normalizar] lists ñ among the characters it
    keeps, but no ñ reaches it: the decomposition two steps earlier has
    turned every ñ into n and a combining tilde, and the tilde is deleted.
    So no normalized string holds an ñ; the ñ of the input comes out as
    n.  The claim that ñ is kept fails on the code. *)
Theorem enye_no_se_conserva (ucd : UCD) :
  (forall t, ~ In ENYE (nfd ucd t)) ->
  forall texto, ~ In ENYE (normalizar ucd texto).
Proof. intros H texto. apply normalizar_sin_enye. exact H. Qed.

(* ================================================================= *)
(** ** The stored questions *)

Lemma insertar_filas (filas : list fila) (seq : Z) (p r : ustring) :
  exists i, insertar (filas, seq) (p, r)
            = (filas ++ [{| fid := i; preg := p; resp := r |}], i).
Proof. unfold insertar. simpl. eauto. Qed.

Section Invariante.

Variable ucd : UCD.

(** A row whose question is its own normalization. *)
Definition normalizada (f : fila) : Prop := normalizar ucd (preg f) = preg f.

Definition todas_normalizadas (s : store) : Prop :=
  Forall normalizada (filas_de s).

(** The stores the program can be in: no table at first, then any
    sequence of [iniciar_db] and successful [guardar_entrada].  The other
    functions only read. *)
Inductive alcanzable : store -> Prop :=
| alc_vacio : alcanzable SinTabla
| alc_iniciar (s : store) : alcanzable s -> alcanzable (iniciar_db s)
| alc_guardar (s s' : store) (q a : ustring) :
    alcanzable s -> guardar_entrada ucd s q a = Ok s' -> alcanzable s'.

Hypothesis Hok : ucd_ok ucd.

Lemma semillas_fijas (p : ustring * ustring) :
  In p semillas -> normalizar ucd (fst p) = fst p.
Proof.
  intros H. apply (normalizar_fijo ucd Hok).
  destruct H as [<-|[<-|[<-|[]]]]; reflexivity.
Qed.

Lemma iniciar_db_filas (s : store) :
  exists nuevas, filas_de (iniciar_db s) = filas_de s ++ nuevas /\
    Forall (fun f => In (par f) semillas) nuevas.
Proof.
  destruct s as [|[|f filas] seq].
  - exists (filas_de (iniciar_db SinTabla)). split; [reflexivity|].
    vm_compute. repeat (constructor; [auto 6|]). constructor.
  - exists (filas_de (iniciar_db (Tabla [] seq))). split; [reflexivity|].
    vm_compute. repeat (constructor; [auto 6|]). constructor.
  - exists []. split; [|constructor]. rewrite app_nil_r. reflexivity.
Qed.

Lemma guardar_entrada_filas (s s' : store) (q a : ustring) :
  guardar_entrada ucd s q a = Ok s' ->
  exists i, filas_de s' =
    filas_de s ++ [{| fid := i; preg := normalizar ucd q; resp := a |}].
Proof.
  destruct s as [|filas seq]; simpl; [discriminate|].
  intros [= <-]. simpl. eauto.
Qed.

(** C8.  Every stored question is its own normalization.  The seed
    questions are fixed points of [normalizar]; [iniciar_db] and
    [guardar_entrada] only add rows after the existing ones, the first
    the seeds, the second the normalized question; so both preserve the
    invariant, and it holds in every store the program reaches. *)
Theorem pregunta_normalizada_invariante :
  (forall p, In p semillas -> normalizar ucd (fst p) = fst p) /\
  (forall s, todas_normalizadas s ->
     todas_normalizadas (iniciar_db s) /\
     exists nuevas, filas_de (iniciar_db s) = filas_de s ++ nuevas) /\
  (forall s s' q a, todas_normalizadas s ->
     guardar_entrada ucd s q a = Ok s' ->
     todas_normalizadas s' /\
     exists i, filas_de s' =
       filas_de s ++ [{| fid := i; preg := normalizar ucd q; resp := a |}]) /\
  (forall s, alcanzable s -> todas_normalizadas s).
Proof.
  assert (Hini : forall s, todas_normalizadas s ->
            todas_normalizadas (iniciar_db s) /\
            exists nuevas, filas_de (iniciar_db s) = filas_de s ++ nuevas).
  { intros s Hs. destruct (iniciar_db_filas s) as (nuevas & Hn & Hsem).
    split; [|eauto]. unfold todas_normalizadas. rewrite Hn.
    apply Forall_app. split; [exact Hs|].
    eapply Forall_impl; [exact Hsem|]. intros f Hf.
    exact (semillas_fijas _ Hf). }
  assert (Hgua : forall s s' q a, todas_normalizadas s ->
            guardar_entrada ucd s q a = Ok s' ->
            todas_normalizadas s' /\
            exists i, filas_de s' =
              filas_de s ++ [{| fid := i; preg := normalizar ucd q; resp := a |}]).
  { intros s s' q a Hs Hg.
    destruct (guardar_entrada_filas _ _ _ _ Hg) as [i Hi].
    split; [|eauto]. unfold todas_normalizadas. rewrite Hi.
    apply Forall_app. split; [exact Hs|].
    constructor; [|constructor]. apply (normalizar_idem ucd Hok). }
  split; [exact semillas_fijas|]. split; [exact Hini|]. split; [exact Hgua|].
  intros s Hs. induction Hs as [|s _ IH|s s' q a _ IH Hg].
  - constructor.
  - apply Hini, IH.
  - eapply Hgua; eauto.
Qed.

End Invariante.

(* ================================================================= *)
(** ** Sums over the keys of frequency maps *)

Definition suma (g : ustring -> Z) (l : list ustring) : Z :=
  foldr (fun k acc => g k + acc) 0 l.

Lemma dot_suma (a b : gmap ustring Z) :
  dot a b = suma (fun k => get a k * get b k) (elements (dom a ∪ dom b)).
Proof. reflexivity. Qed.

Lemma suma_perm (g : ustring -> Z) (l1 l2 : list ustring) :
  l1 ≡ₚ l2 -> suma g l1 = suma g l2.
Proof.
  induction 1 as [|k l1 l2 _ IH|k1 k2 l|l1 l2 l3 _ IH1 _ IH2]; simpl.
  - reflexivity.
  - rewrite IH. reflexivity.
  - lia.
  - congruence.
Qed.

Lemma suma_ext (g h : ustring -> Z) (l : list ustring) :
  (forall k, k ∈ l -> g k = h k) -> suma g l = suma h l.
Proof.
  induction l as [|k l IH]; intros H; simpl; [reflexivity|].
  rewrite (H k) by left. rewrite IH; [reflexivity|].
  intros j Hj. apply H. right. exact Hj.
Qed.

Lemma suma_nonneg (g : ustring -> Z) (l : list ustring) :
  (forall k, 0 <= g k) -> 0 <= suma g l.
Proof.
  intros H. induction l as [|k l IH]; simpl; [lia|]. specialize (H k). lia.
Qed.

Lemma suma_cero (g : ustring -> Z) (l : list ustring) :
  (forall k, k ∈ l -> g k = 0) -> suma g l = 0.
Proof.
  induction l as [|k l IH]; intros H; simpl; [reflexivity|].
  rewrite (H k) by left. rewrite IH; [reflexivity|].
  intros j Hj. apply H. right. exact Hj.
Qed.

(** Cauchy-Schwarz. *)
Lemma suma_cauchy_schwarz (x y : ustring -> Z) (l : list ustring) :
  suma (fun k => x k * y k) l * suma (fun k => x k * y k) l
  <= suma (fun k => x k * x k) l * suma (fun k => y k * y k) l.
Proof.
  induction l as [|k l IH]; simpl; [lia|].
  set (s := suma (fun k => x k * y k) l) in *.
  set (A := suma (fun k => x k * x k) l) in *.
  set (B := suma (fun k => y k * y k) l) in *.
  assert (HA : 0 <= A) by (apply suma_nonneg; intros; nia).
  assert (HB : 0 <= B) by (apply suma_nonneg; intros; nia).
  set (p := x k). set (q := y k). clearbody p q s A B.
  assert (Hpp : 0 <= p * p) by apply Z.square_nonneg.
  assert (Hqq : 0 <= q * q) by apply Z.square_nonneg.
  assert (HY : 0 <= p * p * B + A * (q * q)).
  { apply Z.add_nonneg_nonneg; apply Z.mul_nonneg_nonneg; assumption. }
  assert (H1 : (p * q) * (p * q) * (s * s) <= (p * q) * (p * q) * (A * B))
    by (apply Z.mul_le_mono_nonneg_l; [apply Z.square_nonneg|exact IH]).
  pose proof (Z.square_nonneg (p * p * B - A * (q * q))) as H2.
  assert (HXY : (2 * (p * q * s)) * (2 * (p * q * s))
                <= (p * p * B + A * (q * q)) * (p * p * B + A * (q * q))).
  { replace ((2 * (p * q * s)) * (2 * (p * q * s)))
      with (4 * ((p * q) * (p * q) * (s * s))) by ring.
    replace ((p * p * B + A * (q * q)) * (p * p * B + A * (q * q)))
      with ((p * p * B - A * (q * q)) * (p * p * B - A * (q * q))
            + 4 * ((p * q) * (p * q) * (A * B))) by ring.
    lia. }
  assert (HX : 2 * (p * q * s) <= p * p * B + A * (q * q)).
  { destruct (Z_le_gt_dec (2 * (p * q * s)) (p * p * B + A * (q * q)))
      as [H|H]; [exact H|].
    assert ((p * p * B + A * (q * q)) * (p * p * B + A * (q * q))
            < (2 * (p * q * s)) * (2 * (p * q * s)))
      by (apply Z.mul_lt_mono_nonneg; lia).
    lia. }
  replace ((p * q + s) * (p * q + s))
    with ((p * q) * (p * q) + 2 * (p * q * s) + s * s) by ring.
  replace ((p * p + A) * (q * q + B))
    with ((p * q) * (p * q) + (p * p * B + A * (q * q)) + A * B) by ring.
  lia.
Qed.

Lemma get_insert (m : gmap ustring Z) (i k : ustring) (x : Z) :
  get (<[i:=x]> m) k = if decide (i = k) then x else get m k.
Proof.
  unfold get. rewrite lookup_insert. destruct (decide (i = k)); reflexivity.
Qed.

Lemma sumsq_insert (m : gmap ustring Z) (i : ustring) (x : Z) :
  m !! i = None -> sumsq (<[i:=x]> m) = x * x + sumsq m.
Proof.
  intros H. unfold sumsq. rewrite map_fold_insert_L; [reflexivity| |exact H].
  intros. lia.
Qed.

(** [sumsq] is the sum of the squared counts over any set of keys that
    holds the keys of the map. *)
Lemma sumsq_suma (a : gmap ustring Z) :
  forall K : gset ustring, dom a ⊆ K ->
  sumsq a = suma (fun k => get a k * get a k) (elements K).
Proof.
  induction a as [|i x m Hi IH] using map_ind; intros K HK.
  - unfold sumsq. rewrite map_fold_empty. symmetry. apply suma_cero.
    intros k _. unfold get. rewrite lookup_empty. reflexivity.
  - rewrite sumsq_insert by exact Hi.
    assert (HiK : i ∈ K) by (apply HK; rewrite dom_insert_L; set_solver).
    assert (HKeq : K = {[i]} ∪ (K ∖ {[i]})).
    { apply set_eq. intros k. destruct (decide (k = i)); set_solver. }
    rewrite (suma_perm _ (elements K) (i :: elements (K ∖ {[i]}))).
    + simpl. rewrite get_insert, decide_True by reflexivity. f_equal.
      rewrite (IH (K ∖ {[i]})).
      * apply suma_ext. intros k Hk. apply elem_of_elements in Hk.
        rewrite get_insert, decide_False by set_solver. reflexivity.
      * intros k Hk. apply elem_of_difference. split.
        -- apply HK. rewrite dom_insert_L. set_solver.
        -- apply not_elem_of_dom in Hi. set_solver.
    + rewrite HKeq at 1. apply elements_union_singleton. set_solver.
Qed.

Lemma sumsq_nonneg (a : gmap ustring Z) : 0 <= sumsq a.
Proof.
  rewrite (sumsq_suma a (dom a)) by reflexivity.
  apply suma_nonneg. intros; nia.
Qed.

Lemma dot_cauchy_schwarz (a b : gmap ustring Z) :
  dot a b * dot a b <= sumsq a * sumsq b.
Proof.
  rewrite dot_suma.
  rewrite (sumsq_suma a (dom a ∪ dom b)) by set_solver.
  rewrite (sumsq_suma b (dom a ∪ dom b)) by set_solver.
  apply suma_cauchy_schwarz.
Qed.

Lemma dot_self (a : gmap ustring Z) : dot a a = sumsq a.
Proof.
  rewrite dot_suma, (sumsq_suma a (dom a ∪ dom a)) by set_solver.
  reflexivity.
Qed.

Lemma get_nonneg (a : gmap ustring Z) (k : ustring) :
  no_negativo a -> 0 <= get a k.
Proof.
  intros H. unfold get. destruct (a !! k) as [v|] eqn:Hk; simpl; [|lia].
  exact (H k v Hk).
Qed.

Lemma dot_nonneg (a b : gmap ustring Z) :
  no_negativo a -> no_negativo b -> 0 <= dot a b.
Proof.
  intros Ha Hb. rewrite dot_suma. apply suma_nonneg. intros k.
  pose proof (get_nonneg a k Ha). pose proof (get_nonneg b k Hb). nia.
Qed.

Lemma sumsq_empty : sumsq ∅ = 0.
Proof. unfold sumsq. apply map_fold_empty. Qed.

(* ================================================================= *)
(** ** The value of a float *)

Lemma bpow_pos (e : Z) : (0 < bpow e)%R.
Proof. apply powerRZ_lt. lra. Qed.

Lemma bpow_add (a b : Z) : bpow (a + b) = (bpow a * bpow b)%R.
Proof. apply powerRZ_add. lra. Qed.

Lemma bpow_IZR (n : Z) : 0 <= n -> bpow n = IZR (2 ^ n).
Proof.
  intros Hn. unfold bpow. destruct n as [|p|p]; [reflexivity| |lia].
  change (2 ^ Z.pos p) with (Z.pow_pos 2 p).
  rewrite Zpower_pos_powerRZ. reflexivity.
Qed.

Lemma bpow_le (a b : Z) : a <= b -> (bpow a <= bpow b)%R.
Proof.
  intros H. replace b with (a + (b - a)) by lia. rewrite bpow_add.
  rewrite (bpow_IZR (b - a)) by lia.
  assert (1 <= IZR (2 ^ (b - a)))%R.
  { apply IZR_le. assert (0 < 2 ^ (b - a)) by (apply Z.pow_pos_nonneg; lia). lia. }
  pose proof (bpow_pos a). nra.
Qed.

Lemma digits2_pos_spec (p : positive) :
  2 ^ (Zpos (digits2_pos p) - 1) <= Zpos p < 2 ^ Zpos (digits2_pos p).
Proof.
  induction p as [p IH|p IH|]; simpl digits2_pos.
  - rewrite Pos2Z.inj_succ.
    replace (Z.succ (Z.pos (digits2_pos p)) - 1) with (Z.pos (digits2_pos p) - 1 + 1) by lia.
    rewrite Z.pow_succ_r, Z.pow_add_r by lia. lia.
  - rewrite Pos2Z.inj_succ.
    replace (Z.succ (Z.pos (digits2_pos p)) - 1) with (Z.pos (digits2_pos p) - 1 + 1) by lia.
    rewrite Z.pow_succ_r, Z.pow_add_r by lia. lia.
  - simpl. lia.
Qed.

Lemma digits2_pos_unique (p : positive) (d : Z) :
  2 ^ (d - 1) <= Zpos p < 2 ^ d -> Zpos (digits2_pos p) = d.
Proof.
  intros [Hlo Hhi]. pose proof (digits2_pos_spec p) as [Hlo' Hhi'].
  set (d' := Zpos (digits2_pos p)) in *.
  assert (Hd : 0 < d).
  { destruct (Z.lt_trichotomy d 0) as [H|[H|H]]; [|subst d; simpl in Hhi; lia|exact H].
    rewrite Z.pow_neg_r in Hhi by lia. lia. }
  destruct (Z.lt_trichotomy d' d) as [H|[H|H]]; [|exact H|].
  - assert (2 ^ d' <= 2 ^ (d - 1)) by (apply Z.pow_le_mono_r; lia). lia.
  - assert (2 ^ d <= 2 ^ (d' - 1)) by (apply Z.pow_le_mono_r; lia). lia.
Qed.

Lemma shr_1_m (mrs : shr_record) :
  0 <= shr_m mrs -> shr_m (shr_1 mrs) = shr_m mrs / 2.
Proof.
  destruct mrs as [m r s]. simpl. intros Hm.
  destruct m as [|[p|p|]|p]; cbn [shr_m]; try lia; try reflexivity.
  - apply Z.div_unique with (r := 1); lia.
  - apply Z.div_unique with (r := 0); lia.
Qed.

Lemma iter_pos_shr_m (n : positive) (mrs : shr_record) :
  0 <= shr_m mrs ->
  shr_m (SpecFloat.iter_pos shr_1 n mrs) = shr_m mrs / 2 ^ Zpos n.
Proof.
  revert mrs. induction n as [n IH|n IH|]; intros mrs Hm; simpl SpecFloat.iter_pos.
  - assert (H1 : 0 <= shr_m (shr_1 mrs)).
    { rewrite shr_1_m by exact Hm. apply Z.div_pos; lia. }
    assert (H2 : 0 <= shr_m (SpecFloat.iter_pos shr_1 n (shr_1 mrs))).
    { rewrite IH by exact H1. apply Z.div_pos; [exact H1|]. apply Z.pow_pos_nonneg; lia. }
    rewrite IH, IH, shr_1_m by assumption.
    assert (Hp : 0 < 2 ^ Zpos n) by (apply Z.pow_pos_nonneg; lia).
    rewrite !Z.div_div by lia. f_equal.
    rewrite Pos2Z.inj_xI, Z.pow_add_r, Z.pow_mul_r by lia.
    change (2 ^ 2) with 4. change (2 ^ 1) with 2.
    replace (4 ^ Z.pos n) with (2 ^ Z.pos n * 2 ^ Z.pos n).
    + ring.
    + rewrite <- Z.pow_mul_l. reflexivity.
  - assert (H2 : 0 <= shr_m (SpecFloat.iter_pos shr_1 n mrs)).
    { rewrite IH by exact Hm. apply Z.div_pos; [exact Hm|]. apply Z.pow_pos_nonneg; lia. }
    rewrite IH, IH by assumption.
    assert (Hp : 0 < 2 ^ Zpos n) by (apply Z.pow_pos_nonneg; lia).
    rewrite !Z.div_div by lia. f_equal.
    rewrite (Pos2Z.inj_xO n), Z.pow_mul_r by lia. change (2 ^ 2) with 4.
    rewrite <- Z.pow_mul_l. reflexivity.
  - rewrite shr_1_m by exact Hm. reflexivity.
Qed.

Lemma shr_record_of_loc_m (m : Z) (l : location) :
  shr_m (shr_record_of_loc m l) = m.
Proof. destruct l as [|[ | | ]]; reflexivity. Qed.

Lemma shr_fexp_spec (m e : Z) (l : location) :
  0 <= m ->
  let n := Z.max 0 (fexp prec emax (Zdigits2 m + e) - e) in
  shr_m (fst (shr_fexp prec emax m e l)) = m / 2 ^ n /\
  snd (shr_fexp prec emax m e l) = e + n.
Proof.
  intros Hm n. unfold shr_fexp, shr. subst n.
  destruct (fexp prec emax (Zdigits2 m + e) - e) as [|p|p]; simpl fst; simpl snd.
  - rewrite shr_record_of_loc_m. simpl. rewrite Z.div_1_r. lia.
  - rewrite iter_pos_shr_m by (rewrite shr_record_of_loc_m; exact Hm).
    rewrite shr_record_of_loc_m. rewrite Z.max_r by lia. auto.
  - rewrite shr_record_of_loc_m. rewrite Z.max_l by lia.
    simpl. rewrite Z.div_1_r. lia.
Qed.

Lemma round_nearest_even_cases (m : Z) (l : location) :
  round_nearest_even m l = m \/ round_nearest_even m l = m + 1.
Proof.
  destruct l as [|[ | | ]]; simpl; auto. destruct (Z.even m); auto.
Qed.

Lemma Zdigits2_unique (m d : Z) :
  0 < m -> 2 ^ (d - 1) <= m < 2 ^ d -> Zdigits2 m = d.
Proof.
  intros Hm H. destruct m as [|p|p]; try lia. simpl.
  apply digits2_pos_unique. exact H.
Qed.

Lemma Zdigits2_spec (m : Z) :
  0 < m -> 2 ^ (Zdigits2 m - 1) <= m < 2 ^ Zdigits2 m.
Proof.
  intros Hm. destruct m as [|p|p]; try lia. simpl. apply digits2_pos_spec.
Qed.

(** Rounding a mantissa of at least 53 bits, away from underflow and
    overflow: the result is normal, and lies in the same binade step as
    the truncated mantissa. *)
Lemma binary_round_aux_spec (s : bool) (mx ex : Z) (lx : location) :
  0 < mx -> 53 <= Zdigits2 mx ->
  -1074 <= ex + Zdigits2 mx - 53 < 971 ->
  let n := Zdigits2 mx - 53 in
  let m0 := mx / 2 ^ n in
  2 ^ 52 <= m0 < 2 ^ 53 /\
  exists m e, binary_round_aux prec emax s mx ex lx = S754_finite s m e /\
    2 ^ 52 <= Zpos m < 2 ^ 53 /\
    ((e = ex + n /\ (Zpos m = m0 \/ Zpos m = m0 + 1)) \/
     (e = ex + n + 1 /\ m0 + 1 = 2 ^ 53 /\ Zpos m = 2 ^ 52)).
Proof.
  intros Hmx Hd Hr n m0.
  pose proof (Zdigits2_spec mx Hmx) as [Hlo Hhi].
  assert (Hn : 0 <= n) by (unfold n; lia).
  assert (Hpn : 0 < 2 ^ n) by (apply Z.pow_pos_nonneg; lia).
  assert (Hsplit : 2 ^ Zdigits2 mx = 2 ^ 53 * 2 ^ n).
  { rewrite <- Z.pow_add_r by lia. f_equal. unfold n. lia. }
  assert (Hsplit' : 2 ^ (Zdigits2 mx - 1) = 2 ^ 52 * 2 ^ n).
  { rewrite <- Z.pow_add_r by lia. f_equal. unfold n. lia. }
  assert (Hm0 : 2 ^ 52 <= m0 < 2 ^ 53).
  { unfold m0. split.
    - apply Z.div_le_lower_bound; lia.
    - apply Z.div_lt_upper_bound; lia. }
  split; [exact Hm0|].
  unfold binary_round_aux.
  pose proof (shr_fexp_spec mx ex lx (Z.lt_le_incl _ _ Hmx)) as [H1m H1e].
  destruct (shr_fexp prec emax mx ex lx) as [mrs1 e1]. simpl in H1m, H1e.
  assert (Hf1 : fexp prec emax (Zdigits2 mx + ex) - ex = n).
  { unfold fexp, emin, prec, emax, n. lia. }
  rewrite Hf1, Z.max_r in H1m, H1e by lia. fold m0 in H1m.
  set (m2 := round_nearest_even (shr_m mrs1) (loc_of_shr_record mrs1)).
  assert (Hm2 : m2 = m0 \/ m2 = m0 + 1).
  { unfold m2. rewrite <- H1m. apply round_nearest_even_cases. }
  assert (Hm2pos : 0 <= m2) by lia.
  pose proof (shr_fexp_spec m2 e1 loc_Exact Hm2pos) as [H2m H2e].
  destruct (shr_fexp prec emax m2 e1 loc_Exact) as [mrs2 e2]. simpl in H2m, H2e.
  destruct (Z_lt_le_dec m2 (2 ^ 53)) as [Hlt|Hge].
  - assert (Hd2 : Zdigits2 m2 = 53) by (apply Zdigits2_unique; simpl; lia).
    assert (Hf2 : fexp prec emax (Zdigits2 m2 + e1) - e1 = 0).
    { rewrite Hd2. unfold fexp, emin, prec, emax. lia. }
    rewrite Hf2 in H2m, H2e. simpl in H2m, H2e. rewrite Z.div_1_r in H2m.
    rewrite H2m. destruct m2 as [|p|p]; try lia.
    assert (Hle : (e2 <=? emax - prec) = true) by (apply Z.leb_le; unfold emax, prec; lia).
    rewrite Hle. exists p, e2. split; [reflexivity|]. split; [lia|].
    left. split; [lia|]. lia.
  - assert (Hm2eq : m2 = 2 ^ 53) by lia.
    assert (Hd2 : Zdigits2 m2 = 54) by (rewrite Hm2eq; reflexivity).
    assert (Hf2 : fexp prec emax (Zdigits2 m2 + e1) - e1 = 1).
    { rewrite Hd2. unfold fexp, emin, prec, emax. lia. }
    rewrite Hf2 in H2m, H2e. simpl Z.max in H2m, H2e.
    rewrite H2m, Hm2eq. change (2 ^ 53 / 2 ^ 1) with (Zpos 4503599627370496).
    assert (Hle : (e2 <=? emax - prec) = true) by (apply Z.leb_le; unfold emax, prec; lia).
    rewrite Hle. exists 4503599627370496%positive, e2.
    split; [reflexivity|]. split; [simpl; lia|].
    right. split; [lia|]. split; [lia|reflexivity].
Qed.

(** The relative distance between neighbouring floats. *)
Definition u : R := bpow (-52).

(** [f] is a positive normal float with exponent between [lo] and [hi],
    and [x] and [f] are within a factor [1 + u] of each other. *)
Definition cerca (x : R) (f : float) (lo hi : Z) : Prop :=
  exists m e, f = S754_finite false m e /\
    2 ^ 52 <= Zpos m < 2 ^ 53 /\ lo <= e <= hi /\
    (x <= (1 + u) * F2R f)%R /\ (F2R f <= (1 + u) * x)%R.

Lemma u_pos : (0 < u)%R.
Proof. apply bpow_pos. Qed.

Lemma bpow_opp_mul (n : Z) : (bpow (- n) * bpow n = 1)%R.
Proof. rewrite <- bpow_add. replace (- n + n) with 0 by lia. reflexivity. Qed.

Lemma binary_round_aux_cerca (mx ex : Z) (lx : location) (x : R) :
  0 < mx -> 53 <= Zdigits2 mx ->
  -1074 <= ex + Zdigits2 mx - 53 < 971 ->
  (IZR mx * bpow ex <= x <= IZR (mx + 1) * bpow ex)%R ->
  cerca x (binary_round_aux prec emax false mx ex lx)
    (ex + Zdigits2 mx - 53) (ex + Zdigits2 mx - 52).
Proof.
  intros Hmx Hd Hr Hx.
  destruct (binary_round_aux_spec false mx ex lx Hmx Hd Hr)
    as (Hm0 & m & e & Hf & Hm & He).
  set (n := Zdigits2 mx - 53) in *. set (m0 := mx / 2 ^ n) in *.
  assert (Hn : 0 <= n) by (unfold n; lia).
  assert (Hpn : 0 < 2 ^ n) by (apply Z.pow_pos_nonneg; lia).
  assert (Hdiv : m0 * 2 ^ n <= mx < (m0 + 1) * 2 ^ n).
  { unfold m0. pose proof (Z.div_mod mx (2 ^ n)).
    pose proof (Z.mod_pos_bound mx (2 ^ n) Hpn). nia. }
  set (B := bpow (ex + n)). set (L := (IZR m0 * B)%R).
  assert (HB : B = (bpow ex * IZR (2 ^ n))%R).
  { unfold B. rewrite bpow_add, (bpow_IZR n) by lia. reflexivity. }
  assert (HBpos : (0 < B)%R) by apply bpow_pos.
  pose proof (bpow_pos ex) as Hexpos.
  assert (HLx : (L <= x <= L + B)%R).
  { unfold L. rewrite HB. destruct Hx as [Hx1 Hx2]. split.
    - eapply Rle_trans; [|exact Hx1].
      replace (IZR m0 * (bpow ex * IZR (2 ^ n)))%R
        with (IZR (m0 * 2 ^ n) * bpow ex)%R by (rewrite mult_IZR; ring).
      apply Rmult_le_compat_r; [lra|]. apply IZR_le. lia.
    - eapply Rle_trans; [exact Hx2|].
      replace (IZR m0 * (bpow ex * IZR (2 ^ n)) + bpow ex * IZR (2 ^ n))%R
        with (IZR ((m0 + 1) * 2 ^ n) * bpow ex)%R
        by (rewrite mult_IZR, plus_IZR; ring).
      apply Rmult_le_compat_r; [lra|]. apply IZR_le. lia. }
  assert (Hu : (B <= u * L)%R).
  { unfold L, u.
    assert (H52 : (IZR (2 ^ 52) <= IZR m0)%R) by (apply IZR_le; lia).
    pose proof (bpow_opp_mul 52) as H1. rewrite (bpow_IZR 52) in H1 by lia.
    pose proof (bpow_pos (-52)) as Hp.
    assert (H1' : (1 <= bpow (-52) * IZR m0)%R).
    { rewrite <- H1. apply Rmult_le_compat_l; lra. }
    replace (bpow (-52) * (IZR m0 * B))%R with ((bpow (-52) * IZR m0) * B)%R by ring.
    nra. }
  assert (HLv : (L <= F2R (S754_finite false m e) <= L + B)%R).
  { simpl. destruct He as [[-> [Hm'|Hm']]|(-> & Hc & Hm')]; rewrite Hm'.
    - fold B. fold L. lra.
    - fold B. rewrite plus_IZR. unfold L. lra.
    - replace (ex + n + 1) with (1 + (ex + n)) by lia.
      rewrite bpow_add. fold B. unfold L.
      replace (IZR m0) with (IZR (2 ^ 53) - 1)%R
        by (rewrite <- Hc, plus_IZR; ring).
      replace (bpow 1) with 2%R by (unfold bpow; simpl; ring).
      replace (IZR (2 ^ 53)) with (2 * IZR (2 ^ 52))%R
        by (rewrite <- mult_IZR; reflexivity).
      lra. }
  assert (HLpos : (0 < L)%R).
  { unfold L. apply Rmult_lt_0_compat; [|exact HBpos].
    apply IZR_lt. lia. }
  pose proof u_pos.
  exists m, e. split; [exact Hf|]. split; [exact Hm|]. split.
  - fold n. destruct He as [[-> _]|(-> & _)]; lia.
  - rewrite Hf. set (v := F2R (S754_finite false m e)) in *.
    assert (u * L <= u * v)%R by (apply Rmult_le_compat_l; lra).
    assert (u * L <= u * x)%R by (apply Rmult_le_compat_l; lra).
    split; lra.
Qed.

Lemma cerca_weaken (x : R) (f : float) (lo hi lo' hi' : Z) :
  cerca x f lo hi -> lo' <= lo -> hi <= hi' -> cerca x f lo' hi'.
Proof.
  intros (m & e & Hf & Hm & He & Hx) Hlo Hhi.
  exists m, e. repeat split; try tauto; lia.
Qed.

Lemma iter_xO (p d : positive) :
  Zpos (Pos.iter xO p d) = Zpos p * 2 ^ Zpos d.
Proof.
  induction d as [|d IH] using Pos.peano_ind.
  - simpl. lia.
  - rewrite Pos.iter_succ, Pos2Z.inj_succ, Z.pow_succ_r by lia.
    rewrite (Pos2Z.inj_xO (Pos.iter xO p d)), IH. ring.
Qed.

Lemma shl_align_spec (p : positive) (ex ex' : Z) :
  snd (shl_align p ex ex') = Z.min ex ex' /\
  Zpos (fst (shl_align p ex ex')) = Zpos p * 2 ^ (ex - Z.min ex ex').
Proof.
  unfold shl_align. destruct (ex' - ex) as [|k|k] eqn:Hk; simpl fst; simpl snd.
  - rewrite Z.min_l by lia. rewrite Z.sub_diag. simpl. lia.
  - rewrite Z.min_l by lia. rewrite Z.sub_diag. simpl. lia.
  - rewrite Z.min_r by lia. rewrite iter_xO.
    replace (ex - ex') with (Zpos k) by lia. auto.
Qed.

(** Conversion of a positive [int] below 2^1000. *)
Lemma float_of_int_cerca (n : Z) :
  0 < n < 2 ^ 1000 ->
  exists f, float_of_int n = Ok f /\ cerca (IZR n) f (-52) 948.
Proof.
  intros [Hpos Hlt]. destruct n as [|p|p]; try lia.
  unfold float_of_int, binary_normalize, binary_round.
  pose proof (digits2_pos_spec p) as [Hlo Hhi].
  set (d := Zpos (digits2_pos p)) in *.
  assert (Hd1 : 1 <= d) by (unfold d; lia).
  assert (Hd2 : d <= 1000).
  { destruct (Z_le_gt_dec d 1000) as [H|H]; [exact H|].
    assert (2 ^ 1000 <= 2 ^ (d - 1)) by (apply Z.pow_le_mono_r; lia). lia. }
  assert (Hfexp : fexp prec emax (d + 0) = d - 53)
    by (unfold fexp, emin, prec, emax; lia).
  rewrite Hfexp.
  pose proof (shl_align_spec p 0 (d - 53)) as [Hez Hmz].
  destruct (shl_align p 0 (d - 53)) as [mz ez]. simpl in Hez, Hmz.
  rewrite Z.sub_0_l in Hmz.
  set (k := - Z.min 0 (d - 53)) in *.
  assert (Hk : 0 <= k) by (unfold k; lia).
  assert (Hpk : 0 < 2 ^ k) by (apply Z.pow_pos_nonneg; lia).
  assert (Hdig : Zdigits2 (Zpos mz) = d + k).
  { apply Zdigits2_unique; [lia|]. rewrite Hmz.
    replace (d + k - 1) with (d - 1 + k) by lia.
    rewrite !Z.pow_add_r by lia. nia. }
  assert (Hx : IZR (Zpos p) = (IZR (Zpos mz) * bpow ez)%R).
  { rewrite Hmz, mult_IZR, <- (bpow_IZR k) by lia.
    replace ez with (- k) by lia.
    rewrite Rmult_assoc. replace (bpow k * bpow (- k))%R with 1%R; [ring|].
    rewrite Rmult_comm. symmetry. apply bpow_opp_mul. }
  assert (Hc : cerca (IZR (Zpos p))
                 (binary_round_aux prec emax false (Zpos mz) ez loc_Exact)
                 (ez + Zdigits2 (Zpos mz) - 53) (ez + Zdigits2 (Zpos mz) - 52)).
  { apply binary_round_aux_cerca; try lia.
    rewrite Hx, plus_IZR. pose proof (bpow_pos ez). split; nra. }
  destruct Hc as (m & e & Hf & Hm & He & Hv).
  rewrite Hf. eexists. split; [reflexivity|].
  exists m, e. repeat split; try tauto; try lia.
  - rewrite <- Hf. tauto.
  - rewrite <- Hf. tauto.
Qed.

Lemma bpow_double (e : Z) : bpow (2 * e) = (bpow e * bpow e)%R.
Proof. replace (2 * e) with (e + e) by lia. apply bpow_add. Qed.

Lemma Rdiv_le_lower (a b c : R) : (0 < c -> a * c <= b -> a <= b / c)%R.
Proof.
  intros Hc H. apply Rmult_le_reg_r with c; [exact Hc|].
  unfold Rdiv. rewrite Rmult_assoc, Rinv_l by lra. lra.
Qed.

Lemma Rdiv_le_upper (a b c : R) : (0 < c -> b <= a * c -> b / c <= a)%R.
Proof.
  intros Hc H. apply Rmult_le_reg_r with c; [exact Hc|].
  unfold Rdiv. rewrite Rmult_assoc, Rinv_l by lra. lra.
Qed.

Lemma fmul_cerca (m1 m2 : positive) (e1 e2 : Z) :
  2 ^ 52 <= Zpos m1 < 2 ^ 53 -> 2 ^ 52 <= Zpos m2 < 2 ^ 53 ->
  -1100 <= e1 + e2 <= 900 ->
  cerca (F2R (S754_finite false m1 e1) * F2R (S754_finite false m2 e2))
    (fmul (S754_finite false m1 e1) (S754_finite false m2 e2))
    (e1 + e2 + 52) (e1 + e2 + 54).
Proof.
  intros H1 H2 He. unfold fmul, SFmul. simpl xorb.
  assert (Hprod : 2 ^ 104 <= Zpos (m1 * m2) < 2 ^ 106).
  { rewrite Pos2Z.inj_mul.
    change (2 ^ 104) with (2 ^ 52 * 2 ^ 52). change (2 ^ 106) with (2 ^ 53 * 2 ^ 53).
    nia. }
  assert (Hd : 105 <= Zdigits2 (Zpos (m1 * m2)) <= 106).
  { pose proof (Zdigits2_spec (Zpos (m1 * m2)) eq_refl) as [Hlo Hhi].
    set (d := Zdigits2 (Zpos (m1 * m2))) in *. split.
    - destruct (Z_le_gt_dec 105 d) as [H|H]; [exact H|].
      assert (2 ^ d <= 2 ^ 104) by (apply Z.pow_le_mono_r; lia). lia.
    - destruct (Z_le_gt_dec d 106) as [H|H]; [exact H|].
      assert (2 ^ 106 <= 2 ^ (d - 1)) by (apply Z.pow_le_mono_r; lia). lia. }
  eapply cerca_weaken.
  - apply binary_round_aux_cerca; try lia.
    simpl F2R. rewrite Pos2Z.inj_mul, plus_IZR, mult_IZR, bpow_add.
    pose proof (bpow_pos e1). pose proof (bpow_pos e2).
    assert (0 < bpow e1 * bpow e2)%R by (apply Rmult_lt_0_compat; lra).
    split; nra.
  - lia.
  - lia.
Qed.

Lemma fsqrt_cerca (m : positive) (e : Z) :
  2 ^ 52 <= Zpos m < 2 ^ 53 -> -1000 <= e <= 1000 ->
  cerca (sqrt (F2R (S754_finite false m e)))
    (fsqrt (S754_finite false m e)) (e / 2 - 26) (e / 2 - 25).
Proof.
  intros Hm He. unfold fsqrt, SFsqrt, SFsqrt_core_binary.
  assert (Hd : Zdigits2 (Zpos m) = 53) by (apply Zdigits2_unique; simpl; lia).
  rewrite Hd, !Z.div2_div.
  assert (He2 : (53 + e + 1) / 2 = e / 2 + 27).
  { replace (53 + e + 1) with (e + 27 * 2) by lia.
    rewrite Z.div_add by lia. reflexivity. }
  rewrite He2.
  pose proof (Z.div_mod e 2 ltac:(lia)) as Hdm.
  pose proof (Z.mod_pos_bound e 2 ltac:(lia)) as Hmod.
  set (h := e / 2) in *.
  assert (Hmin : Z.min (fexp prec emax (h + 27)) h = h - 26)
    by (unfold fexp, emin, prec, emax; lia).
  rewrite Hmin. set (e' := h - 26).
  set (s := e - 2 * e').
  assert (Hs : 52 <= s <= 53) by (unfold s, e'; lia).
  destruct s as [|ps|ps] eqn:Hseq; try lia. rewrite <- Hseq in *.
  rewrite Z.shiftl_mul_pow2 by lia.
  set (m' := Zpos m * 2 ^ s).
  assert (Hm' : 2 ^ 104 <= m' < 2 ^ 106).
  { unfold m'. assert (Hs' : s = 52 \/ s = 53) by lia.
    destruct Hs' as [-> | ->]; lia. }
  pose proof (Z.sqrtrem_spec m' ltac:(lia)) as Hspec.
  destruct (Z.sqrtrem m') as [q r]. destruct Hspec as [Hq Hr].
  assert (Hqb : 2 ^ 52 <= q < 2 ^ 53).
  { change (2 ^ 104) with (2 ^ 52 * 2 ^ 52) in Hm'.
    change (2 ^ 106) with (2 ^ 53 * 2 ^ 53) in Hm'. split; nia. }
  assert (Hdq : Zdigits2 q = 53) by (apply Zdigits2_unique; simpl; lia).
  assert (Hv : F2R (S754_finite false m e)
               = (IZR m' * (bpow e' * bpow e'))%R).
  { simpl F2R. unfold m'. rewrite mult_IZR, <- (bpow_IZR s) by lia.
    rewrite <- bpow_double, Rmult_assoc, <- bpow_add.
    f_equal. f_equal. unfold s. lia. }
  rewrite Hv.
  pose proof (bpow_pos e') as Hbp.
  assert (Hsq : sqrt (IZR m' * (bpow e' * bpow e'))
                = (sqrt (IZR m') * bpow e')%R).
  { rewrite sqrt_mult_alt by (apply IZR_le; lia).
    rewrite sqrt_square by lra. reflexivity. }
  rewrite Hsq.
  assert (Hq1 : (IZR q <= sqrt (IZR m'))%R).
  { rewrite <- (sqrt_square (IZR q)) by (apply IZR_le; lia).
    apply sqrt_le_1_alt. rewrite <- mult_IZR. apply IZR_le. nia. }
  assert (Hq2 : (sqrt (IZR m') <= IZR (q + 1))%R).
  { rewrite <- (sqrt_square (IZR (q + 1))) by (apply IZR_le; lia).
    apply sqrt_le_1_alt. rewrite <- mult_IZR. apply IZR_le. nia. }
  eapply cerca_weaken.
  - apply binary_round_aux_cerca; try (unfold e'; lia).
    split; apply Rmult_le_compat_r; lra.
  - unfold e'. lia.
  - unfold e'. lia.
Qed.

Lemma fdiv_cerca (m1 m2 : positive) (e1 e2 : Z) :
  2 ^ 52 <= Zpos m1 < 2 ^ 53 -> 2 ^ 52 <= Zpos m2 < 2 ^ 53 ->
  -1021 <= e1 - e2 <= 1000 ->
  cerca (F2R (S754_finite false m1 e1) / F2R (S754_finite false m2 e2))
    (fdiv (S754_finite false m1 e1) (S754_finite false m2 e2))
    (e1 - e2 - 53) (e1 - e2 - 51).
Proof.
  intros H1 H2 He. unfold fdiv, SFdiv, SFdiv_core_binary. simpl xorb.
  assert (Hd1 : Zdigits2 (Zpos m1) = 53) by (apply Zdigits2_unique; simpl; lia).
  assert (Hd2 : Zdigits2 (Zpos m2) = 53) by (apply Zdigits2_unique; simpl; lia).
  rewrite Hd1, Hd2.
  assert (Hmin : Z.min (fexp prec emax (53 + e1 - (53 + e2))) (e1 - e2)
                 = e1 - e2 - 53)
    by (unfold fexp, emin, prec, emax; lia).
  rewrite Hmin. set (e' := e1 - e2 - 53).
  replace (e1 - e2 - e') with 53 by (unfold e'; lia).
  rewrite Z.shiftl_mul_pow2 by lia.
  set (m' := Zpos m1 * 2 ^ 53).
  pose proof (Z_div_mod m' (Zpos m2) ltac:(lia)) as Hdm.
  destruct (Z.div_eucl m' (Zpos m2)) as [q r]. destruct Hdm as [Hq Hr].
  assert (Hqb : 2 ^ 52 <= q < 2 ^ 54).
  { unfold m' in Hq. split; nia. }
  assert (Hdq : 53 <= Zdigits2 q <= 54).
  { pose proof (Zdigits2_spec q ltac:(lia)) as [Hlo Hhi].
    set (d := Zdigits2 q) in *. split.
    - destruct (Z_le_gt_dec 53 d) as [H|H]; [exact H|].
      assert (2 ^ d <= 2 ^ 52) by (apply Z.pow_le_mono_r; lia). lia.
    - destruct (Z_le_gt_dec d 54) as [H|H]; [exact H|].
      assert (2 ^ 54 <= 2 ^ (d - 1)) by (apply Z.pow_le_mono_r; lia). lia. }
  pose proof (bpow_pos e') as Hbp. pose proof (bpow_pos e2) as Hb2.
  assert (Hm2 : (0 < IZR (Zpos m2))%R) by (apply IZR_lt; lia).
  assert (Hv : (F2R (S754_finite false m1 e1) / F2R (S754_finite false m2 e2)
               = IZR m' / IZR (Zpos m2) * bpow e')%R).
  { simpl F2R. unfold m'. rewrite mult_IZR, <- (bpow_IZR 53) by lia.
    replace e1 with (53 + e' + e2) by (unfold e'; lia).
    rewrite !bpow_add. field. split; lra. }
  rewrite Hv.
  assert (Hq1 : (IZR q <= IZR m' / IZR (Zpos m2))%R).
  { apply Rdiv_le_lower; [exact Hm2|]. rewrite <- mult_IZR. apply IZR_le. nia. }
  assert (Hq2 : (IZR m' / IZR (Zpos m2) <= IZR (q + 1))%R).
  { apply Rdiv_le_upper; [exact Hm2|]. rewrite <- mult_IZR. apply IZR_le. nia. }
  eapply cerca_weaken.
  - apply binary_round_aux_cerca; try (unfold e'; lia).
    split; apply Rmult_le_compat_r; lra.
  - unfold e'. lia.
  - unfold e'. lia.
Qed.

(* ================================================================= *)
(** ** Accumulated rounding errors *)

(** [x] and [y] are positive and within a factor [(1 + u) ^ k] of each
    other. *)
Definition prox (k : nat) (x y : R) : Prop :=
  (0 < x /\ 0 < y /\ x <= (1 + u) ^ k * y /\ y <= (1 + u) ^ k * x)%R.

Lemma rho_pow_ge_1 (k : nat) : (1 <= (1 + u) ^ k)%R.
Proof. apply pow_R1_Rle. pose proof u_pos. lra. Qed.

Lemma prox_trans (j k : nat) (x y z : R) :
  prox j x y -> prox k y z -> prox (j + k) x z.
Proof.
  intros (Hx & Hy & H1 & H2) (_ & Hz & H3 & H4).
  pose proof (rho_pow_ge_1 j). pose proof (rho_pow_ge_1 k).
  unfold prox. rewrite pow_add. repeat split; try assumption.
  - apply Rle_trans with ((1 + u) ^ j * y)%R; [exact H1|].
    rewrite Rmult_assoc. apply Rmult_le_compat_l; lra.
  - apply Rle_trans with ((1 + u) ^ k * y)%R; [exact H4|].
    rewrite (Rmult_comm ((1 + u) ^ j)), Rmult_assoc.
    apply Rmult_le_compat_l; lra.
Qed.

Lemma prox_mul (j k : nat) (x x' y y' : R) :
  prox j x x' -> prox k y y' -> prox (j + k) (x * y) (x' * y').
Proof.
  intros (Hx & Hx' & H1 & H2) (Hy & Hy' & H3 & H4).
  pose proof (rho_pow_ge_1 j). pose proof (rho_pow_ge_1 k).
  unfold prox. rewrite pow_add.
  split; [apply Rmult_lt_0_compat; assumption|].
  split; [apply Rmult_lt_0_compat; assumption|]. split.
  - replace ((1 + u) ^ j * (1 + u) ^ k * (x' * y'))%R
      with (((1 + u) ^ j * x') * ((1 + u) ^ k * y'))%R by ring.
    apply Rmult_le_compat; lra.
  - replace ((1 + u) ^ j * (1 + u) ^ k * (x * y))%R
      with (((1 + u) ^ j * x) * ((1 + u) ^ k * y))%R by ring.
    apply Rmult_le_compat; lra.
Qed.

Lemma prox_inv (k : nat) (x x' : R) : prox k x x' -> prox k (/ x) (/ x').
Proof.
  intros (Hx & Hx' & H1 & H2).
  pose proof (rho_pow_ge_1 k) as Hr.
  pose proof (Rinv_0_lt_compat _ Hx) as Hix.
  pose proof (Rinv_0_lt_compat _ Hx') as Hix'.
  unfold prox. repeat split; try assumption.
  - apply Rmult_le_reg_r with (x * x')%R; [apply Rmult_lt_0_compat; assumption|].
    replace (/ x * (x * x'))%R with x'%R by (field; lra).
    replace ((1 + u) ^ k * / x' * (x * x'))%R with ((1 + u) ^ k * x)%R
      by (field; lra).
    exact H2.
  - apply Rmult_le_reg_r with (x * x')%R; [apply Rmult_lt_0_compat; assumption|].
    replace (/ x' * (x * x'))%R with x%R by (field; lra).
    replace ((1 + u) ^ k * / x * (x * x'))%R with ((1 + u) ^ k * x')%R
      by (field; lra).
    exact H1.
Qed.

Lemma prox_div (j k : nat) (x x' y y' : R) :
  prox j x x' -> prox k y y' -> prox (j + k) (x / y) (x' / y').
Proof. intros Hx Hy. apply prox_mul; [exact Hx|apply prox_inv; exact Hy]. Qed.

Lemma prox_sqrt (k : nat) (x x' : R) :
  prox k x x' -> prox k (sqrt x) (sqrt x').
Proof.
  intros (Hx & Hx' & H1 & H2).
  pose proof (rho_pow_ge_1 k) as Hr.
  assert (Hs : forall a b, (0 < a -> 0 < b -> a <= (1 + u) ^ k * b ->
                            sqrt a <= (1 + u) ^ k * sqrt b)%R).
  { intros a b Ha Hb Hab.
    rewrite <- (sqrt_square ((1 + u) ^ k)) at 1 by lra.
    rewrite <- sqrt_mult_alt by nra.
    apply sqrt_le_1_alt. apply Rle_trans with ((1 + u) ^ k * b)%R; [exact Hab|].
    rewrite Rmult_assoc. rewrite <- (Rmult_1_l ((1 + u) ^ k * b)) at 1.
    apply Rmult_le_compat_r; [nra|lra]. }
  unfold prox. repeat split; try (apply sqrt_lt_R0; assumption); apply Hs; assumption.
Qed.

Lemma cerca_prox (x : R) (f : float) (lo hi : Z) :
  cerca x f lo hi -> prox 1 x (F2R f).
Proof.
  intros (m & e & -> & Hm & _ & H1 & H2).
  assert (Hv : (0 < F2R (S754_finite false m e))%R).
  { simpl. apply Rmult_lt_0_compat; [apply IZR_lt; lia|apply bpow_pos]. }
  pose proof u_pos. unfold prox. rewrite pow_1.
  repeat split; try assumption.
  destruct (Rlt_le_dec 0 x) as [Hx|Hx]; [exact Hx|].
  exfalso. nra.
Qed.

(** Seven roundings stay within [2 ^ -49] of the exact result. *)
Lemma siete_redondeos : ((1 + u) ^ 7 <= 1 + bpow (-49))%R.
Proof.
  assert (Hu : (bpow (-49) = 8 * u)%R).
  { unfold u. replace (-49) with (3 + -52) by lia. rewrite bpow_add.
    f_equal. unfold bpow. simpl. ring. }
  rewrite Hu.
  assert (Hs : (0 < u <= / 128)%R).
  { split; [apply u_pos|]. unfold u.
    replace (-52) with (-45 + -7) by lia. rewrite bpow_add.
    replace (bpow (-7)) with (/ 128)%R by (unfold bpow; simpl; lra).
    pose proof (bpow_opp_mul 45) as H. rewrite (bpow_IZR 45) in H by lia.
    assert (1 <= IZR (2 ^ 45))%R by (apply IZR_le; lia).
    pose proof (bpow_pos (-45)) as Hp.
    assert (Hb : (bpow (-45) <= 1)%R).
    { rewrite <- H. rewrite <- (Rmult_1_r (bpow (-45))) at 1.
      apply Rmult_le_compat_l; lra. }
    nra. }
  set (w := (u * u)%R).
  assert (Hw : (0 <= w <= u / 128)%R) by (unfold w; nra).
  assert (Hw3 : (0 <= w * u <= w)%R) by nra.
  assert (Hw4 : (0 <= w * w <= w)%R) by nra.
  assert (Hw5 : (0 <= w * w * u <= w)%R) by nra.
  assert (Hw6 : (0 <= w * w * w <= w)%R) by nra.
  assert (Hw7 : (0 <= w * w * w * u <= w)%R) by nra.
  replace ((1 + u) ^ 7)%R
    with (1 + 7 * u + 21 * w + 35 * (w * u) + 35 * (w * w)
          + 21 * (w * w * u) + 7 * (w * w * w) + w * w * w * u)%R
    by (unfold w; ring).
  lra.
Qed.

(* ================================================================= *)
(** ** The cosine scorer *)

Lemma binary_round_aux_signo (s : bool) (mx ex : Z) (lx : location) :
  binary_round_aux prec emax s mx ex lx =
  match binary_round_aux prec emax false mx ex lx with
  | S754_zero _ => S754_zero s
  | S754_infinity _ => S754_infinity s
  | S754_nan => S754_nan
  | S754_finite _ m e => S754_finite s m e
  end.
Proof.
  unfold binary_round_aux.
  destruct (shr_fexp prec emax mx ex lx) as [mrs1 e1].
  destruct (shr_fexp prec emax _ e1 loc_Exact) as [mrs2 e2].
  destruct (shr_m mrs2) as [|p|p]; try reflexivity.
  destruct (e2 <=? emax - prec); reflexivity.
Qed.

Lemma float_of_int_opp (p : positive) (f : float) :
  float_of_int (Zpos p) = Ok f ->
  exists g, float_of_int (Zneg p) = Ok g /\ finito g = finito f.
Proof.
  unfold float_of_int, binary_normalize, binary_round.
  destruct (shl_align p 0 _) as [mz ez].
  rewrite (binary_round_aux_signo true).
  destruct (binary_round_aux prec emax false (Zpos mz) ez loc_Exact);
    try discriminate; intros [= <-]; eexists; split; reflexivity.
Qed.

Lemma float_of_int_finito (n : Z) :
  - 2 ^ 1000 < n < 2 ^ 1000 ->
  exists f, float_of_int n = Ok f /\ finito f = true.
Proof.
  intros Hn. destruct n as [|p|p].
  - exists fzero. split; reflexivity.
  - destruct (float_of_int_cerca (Zpos p)) as (f & Hf & m & e & -> & _); [lia|].
    exists (S754_finite false m e). split; [exact Hf|reflexivity].
  - destruct (float_of_int_cerca (Zpos p)) as (f & Hf & m & e & -> & _); [lia|].
    destruct (float_of_int_opp p _ Hf) as (g & Hg & Hfin).
    exists g. split; [exact Hg|exact Hfin].
Qed.

Lemma float_of_int_raise (n : Z) (e : exc) :
  float_of_int n = Raise e -> e = OverflowError.
Proof.
  unfold float_of_int. destruct (binary_normalize prec emax n 0 false);
    try discriminate. intros [= <-]. reflexivity.
Qed.

(** [math.sqrt] of a sum of squares: zero for zero, else a normal float
    two roundings away from the exact root. *)
Lemma math_sqrt_cero : math_sqrt 0 = Ok fzero.
Proof. reflexivity. Qed.

Lemma math_sqrt_cerca (n : Z) :
  0 < n < 2 ^ 1000 ->
  exists f, math_sqrt n = Ok f /\
    prox 2 (sqrt (IZR n)) (F2R f) /\
    exists m e, f = S754_finite false m e /\
      2 ^ 52 <= Zpos m < 2 ^ 53 /\ -52 <= e <= 449.
Proof.
  intros Hn. destruct (float_of_int_cerca n Hn) as (fn & Hfn & Hc).
  pose proof (cerca_prox _ _ _ _ Hc) as Hp.
  destruct Hc as (m & e & -> & Hm & He & _).
  unfold math_sqrt. rewrite Hfn. simpl.
  pose proof (fsqrt_cerca m e Hm ltac:(lia)) as Hs.
  exists (fsqrt (S754_finite false m e)). split; [reflexivity|]. split.
  - change 2%nat with (1 + 1)%nat.
    eapply prox_trans; [apply prox_sqrt; exact Hp|].
    eapply cerca_prox; exact Hs.
  - destruct Hs as (m' & e' & Hf & Hm' & He' & _).
    exists m', e'. split; [exact Hf|]. split; [exact Hm'|].
    assert (-26 <= e / 2 <= 474).
    { split; [apply Z.div_le_lower_bound; lia|apply Z.div_le_upper_bound; lia]. }
    lia.
Qed.

Lemma math_sqrt_finito (n : Z) :
  0 <= n < 2 ^ 1000 ->
  exists f, math_sqrt n = Ok f /\
    (f = fzero \/ exists m e, f = S754_finite false m e).
Proof.
  intros Hn. destruct (Z.eq_dec n 0) as [->|Hne].
  - exists fzero. split; [reflexivity|auto].
  - destruct (math_sqrt_cerca n ltac:(lia)) as (f & Hf & _ & m & e & -> & _).
    eauto 6.
Qed.

Lemma math_sqrt_raise (n : Z) (e : exc) :
  math_sqrt n = Raise e -> e <> ZeroDivisionError.
Proof.
  unfold math_sqrt. destruct (float_of_int n) as [x|e'] eqn:Hx; simpl.
  - destruct (fltb x fzero); [|discriminate]. intros [= <-]. discriminate.
  - intros [= <-]. apply float_of_int_raise in Hx. subst e'. discriminate.
Qed.

(** The guard of [similitud_coseno] is the test of [/]: the division
    never raises. *)
Lemma similitud_coseno_no_divide_por_cero (a b : gmap ustring Z) :
  similitud_coseno a b <> Raise ZeroDivisionError.
Proof.
  unfold similitud_coseno.
  destruct (math_sqrt (sumsq a)) as [na|e] eqn:Ha; simpl.
  2:{ intros [= ->]. exact (math_sqrt_raise _ _ Ha eq_refl). }
  destruct (math_sqrt (sumsq b)) as [nb|e] eqn:Hb; simpl.
  2:{ intros [= ->]. exact (math_sqrt_raise _ _ Hb eq_refl). }
  destruct (feqb (fmul na nb) fzero) eqn:Hz; [discriminate|].
  unfold truediv. destruct (float_of_int (dot a b)) as [x|e] eqn:Hd; simpl.
  - rewrite Hz. discriminate.
  - intros [= ->]. apply float_of_int_raise in Hd. discriminate.
Qed.

Lemma dot_cota (a b : gmap ustring Z) :
  sumsq a < 2 ^ 1000 -> sumsq b < 2 ^ 1000 ->
  - 2 ^ 1000 < dot a b < 2 ^ 1000.
Proof.
  intros Ha Hb. pose proof (dot_cauchy_schwarz a b) as Hcs.
  pose proof (sumsq_nonneg a). pose proof (sumsq_nonneg b).
  assert (Hab : sumsq a * sumsq b < 2 ^ 1000 * 2 ^ 1000).
  { destruct (Z.eq_dec (sumsq a) 0) as [->|]; [simpl; lia|].
    apply Z.mul_lt_mono_nonneg; lia. }
  split.
  - destruct (Z_lt_le_dec (- 2 ^ 1000) (dot a b)) as [H1|H1]; [exact H1|].
    assert (2 ^ 1000 * 2 ^ 1000 <= dot a b * dot a b).
    { replace (dot a b * dot a b) with ((- dot a b) * (- dot a b)) by ring.
      apply Z.mul_le_mono_nonneg; lia. }
    lia.
  - destruct (Z_lt_le_dec (dot a b) (2 ^ 1000)) as [H1|H1]; [exact H1|].
    assert (2 ^ 1000 * 2 ^ 1000 <= dot a b * dot a b)
      by (apply Z.mul_le_mono_nonneg; lia).
    lia.
Qed.

(** Away from the overflow of the conversion, the scorer returns. *)
Lemma similitud_coseno_total (a b : gmap ustring Z) :
  sumsq a < 2 ^ 1000 -> sumsq b < 2 ^ 1000 ->
  exists c, similitud_coseno a b = Ok c.
Proof.
  intros Ha Hb. unfold similitud_coseno.
  pose proof (sumsq_nonneg a). pose proof (sumsq_nonneg b).
  destruct (math_sqrt_finito (sumsq a)) as (na & -> & _); [lia|].
  destruct (math_sqrt_finito (sumsq b)) as (nb & -> & _); [lia|].
  simpl. destruct (feqb (fmul na nb) fzero) eqn:Hz; [eauto|].
  unfold truediv.
  destruct (float_of_int_finito (dot a b) (dot_cota a b Ha Hb)) as (x & -> & _).
  simpl. rewrite Hz. eauto.
Qed.

(** A zero norm on either side gives exactly 0.0. *)
Lemma similitud_coseno_norma_cero (a b : gmap ustring Z) :
  sumsq a < 2 ^ 1000 -> sumsq b < 2 ^ 1000 ->
  sumsq a = 0 \/ sumsq b = 0 ->
  similitud_coseno a b = Ok fzero.
Proof.
  intros Ha Hb H0. unfold similitud_coseno.
  pose proof (sumsq_nonneg a). pose proof (sumsq_nonneg b).
  destruct (math_sqrt_finito (sumsq a)) as (na & Hna & Hfa); [lia|].
  destruct (math_sqrt_finito (sumsq b)) as (nb & Hnb & Hfb); [lia|].
  rewrite Hna, Hnb. simpl.
  assert (Hz : feqb (fmul na nb) fzero = true).
  { destruct H0 as [H0|H0].
    - rewrite H0, math_sqrt_cero in Hna. injection Hna as <-.
      destruct Hfb as [->|(m & e & ->)]; reflexivity.
    - rewrite H0, math_sqrt_cero in Hnb. injection Hnb as <-.
      destruct Hfa as [->|(m & e & ->)]; reflexivity. }
  rewrite Hz. reflexivity.
Qed.

(** With both norms and the dot product positive, the result is a normal
    float seven roundings away from the exact cosine. *)
Lemma similitud_coseno_valor (a b : gmap ustring Z) :
  0 < sumsq a < 2 ^ 1000 -> 0 < sumsq b < 2 ^ 1000 -> 0 < dot a b ->
  exists c, similitud_coseno a b = Ok c /\
    prox 7 (IZR (dot a b) / (sqrt (IZR (sumsq a)) * sqrt (IZR (sumsq b))))
      (F2R c) /\
    exists m e, c = S754_finite false m e /\ 2 ^ 52 <= Zpos m < 2 ^ 53.
Proof.
  intros Ha Hb Hd. unfold similitud_coseno.
  destruct (math_sqrt_cerca _ Ha) as (na & -> & Hpa & ma & ea & -> & Hma & Hea).
  destruct (math_sqrt_cerca _ Hb) as (nb & -> & Hpb & mb & eb & -> & Hmb & Heb).
  cbv beta iota delta [mbind result_bind].
  pose proof (fmul_cerca ma mb ea eb Hma Hmb ltac:(lia)) as Hp.
  pose proof (cerca_prox _ _ _ _ Hp) as Hpp.
  destruct Hp as (mp & ep & Hpeq & Hmp & Hep & _).
  rewrite Hpeq in *. change (feqb (S754_finite false mp ep) fzero) with false.
  cbv iota.
  assert (Hdlt : dot a b < 2 ^ 1000) by (apply dot_cota; lia).
  destruct (float_of_int_cerca (dot a b) ltac:(lia)) as (fd & Hfd & Hcd).
  pose proof (cerca_prox _ _ _ _ Hcd) as Hpd.
  destruct Hcd as (md & ed & -> & Hmd & Hed & _).
  unfold truediv. rewrite Hfd. cbv beta iota delta [mbind result_bind].
  change (feqb (S754_finite false mp ep) fzero) with false. cbv iota.
  pose proof (fdiv_cerca md mp ed ep Hmd Hmp ltac:(lia)) as Hc.
  pose proof (cerca_prox _ _ _ _ Hc) as Hpc.
  destruct Hc as (mc & ec & Hceq & Hmc & _).
  exists (fdiv (S754_finite false md ed) (S754_finite false mp ep)).
  split; [reflexivity|]. split.
  - change 7%nat with ((1 + ((2 + 2) + 1)) + 1)%nat.
    eapply prox_trans; [|exact Hpc].
    apply prox_div; [exact Hpd|].
    eapply prox_trans; [|exact Hpp].
    apply prox_mul; assumption.
  - exists mc, ec. split; [exact Hceq|exact Hmc].
Qed.

Lemma similitud_coseno_dot_cero (a b : gmap ustring Z) :
  0 < sumsq a < 2 ^ 1000 -> 0 < sumsq b < 2 ^ 1000 -> dot a b = 0 ->
  similitud_coseno a b = Ok fzero.
Proof.
  intros Ha Hb Hd. unfold similitud_coseno.
  destruct (math_sqrt_cerca _ Ha) as (na & -> & _ & ma & ea & -> & Hma & Hea).
  destruct (math_sqrt_cerca _ Hb) as (nb & -> & _ & mb & eb & -> & Hmb & Heb).
  cbv beta iota delta [mbind result_bind].
  destruct (fmul_cerca ma mb ea eb Hma Hmb ltac:(lia))
    as (mp & ep & Hpeq & _).
  rewrite Hpeq, Hd. reflexivity.
Qed.

Lemma coseno_exacto_le_1 (a b : gmap ustring Z) :
  0 < sumsq a -> 0 < sumsq b -> 0 < dot a b ->
  (0 < IZR (dot a b) / (sqrt (IZR (sumsq a)) * sqrt (IZR (sumsq b))) <= 1)%R.
Proof.
  intros Ha Hb Hd.
  assert (HA : (0 < IZR (sumsq a))%R) by (apply IZR_lt; lia).
  assert (HB : (0 < IZR (sumsq b))%R) by (apply IZR_lt; lia).
  assert (HD : (0 < IZR (dot a b))%R) by (apply IZR_lt; lia).
  pose proof (sqrt_lt_R0 _ HA) as HsA. pose proof (sqrt_lt_R0 _ HB) as HsB.
  assert (Hden : (0 < sqrt (IZR (sumsq a)) * sqrt (IZR (sumsq b)))%R)
    by (apply Rmult_lt_0_compat; assumption).
  split.
  - apply Rdiv_lt_0_compat; assumption.
  - apply Rdiv_le_upper; [exact Hden|]. rewrite Rmult_1_l.
    rewrite <- sqrt_mult_alt by lra.
    rewrite <- (sqrt_square (IZR (dot a b))) at 1 by lra.
    apply sqrt_le_1_alt. rewrite <- !mult_IZR. apply IZR_le.
    apply dot_cauchy_schwarz.
Qed.

Lemma prox_7_cotas (t v : R) :
  prox 7 t v -> (t <= 1)%R ->
  (v <= 1 + bpow (-49) /\ (t = 1 -> 1 - bpow (-49) <= v))%R.
Proof.
  intros (Ht & Hv & H1 & H2) Hle.
  pose proof siete_redondeos as H7. pose proof (rho_pow_ge_1 7) as Hr.
  pose proof (bpow_pos (-49)) as He.
  split.
  - apply Rle_trans with ((1 + u) ^ 7 * t)%R; [exact H2|]. nra.
  - intros ->.
    assert (1 <= (1 + bpow (-49)) * v)%R.
    { apply Rle_trans with ((1 + u) ^ 7 * v)%R; [exact H1|].
      apply Rmult_le_compat_r; lra. }
    nra.
Qed.

(** C4.  Cosine bounds, as they hold on floats.  For frequency maps
    whose sums of squared counts stay below 2^1000, [similitud_coseno]
    returns a finite float between 0 and 1 + 2^-49; it is 0.0 when the
    first map is empty; and the similarity of a map with a count to
    itself is within 2^-49 of 1.  It need not be 1.0, nor at most 1. *)
Theorem coseno_cotas (a b : gmap ustring Z) :
  no_negativo a -> no_negativo b ->
  sumsq a < 2 ^ 1000 -> sumsq b < 2 ^ 1000 ->
  exists c, similitud_coseno a b = Ok c /\ finito c = true /\
    (0 <= F2R c <= 1 + bpow (-49))%R /\
    (a = ∅ -> c = fzero) /\
    (a = b -> 0 < sumsq a -> (Rabs (F2R c - 1) <= bpow (-49))%R).
Proof.
  intros Hna Hnb Ha Hb.
  pose proof (sumsq_nonneg a) as Ha0. pose proof (sumsq_nonneg b) as Hb0.
  pose proof (dot_nonneg a b Hna Hnb) as Hd0.
  pose proof (bpow_pos (-49)) as He.
  destruct (Z.eq_dec (sumsq a) 0) as [Hza|Hza];
    [|destruct (Z.eq_dec (sumsq b) 0) as [Hzb|Hzb]].
  - exists fzero. split; [apply similitud_coseno_norma_cero; auto|].
    split; [reflexivity|]. simpl. split; [lra|]. split; [reflexivity|]. lia.
  - exists fzero. split; [apply similitud_coseno_norma_cero; auto|].
    split; [reflexivity|]. simpl. split; [lra|]. split; [reflexivity|].
    intros ->. lia.
  - destruct (Z.eq_dec (dot a b) 0) as [Hzd|Hzd].
    + exists fzero. split; [apply similitud_coseno_dot_cero; lia|].
      split; [reflexivity|]. simpl. split; [lra|]. split; [reflexivity|].
      intros ->. rewrite dot_self in Hzd. lia.
    + destruct (similitud_coseno_valor a b) as (c & Hc & Hp & m & e & -> & Hm);
        try lia.
      destruct (coseno_exacto_le_1 a b) as [Ht0 Ht1]; try lia.
      destruct (prox_7_cotas _ _ Hp Ht1) as [Hup Hlo].
      exists (S754_finite false m e). split; [exact Hc|].
      split; [reflexivity|]. split; [|split].
      * split; [|exact Hup]. destruct Hp as (_ & Hv & _). lra.
      * intros ->. rewrite sumsq_empty in Hza. lia.
      * intros Heq _. subst b. rewrite dot_self in Hlo.
        assert (HA : (0 < IZR (sumsq a))%R) by (apply IZR_lt; lia).
        rewrite sqrt_sqrt in Hlo by lra.
        assert (Hone : (IZR (sumsq a) / IZR (sumsq a) = 1)%R) by (field; lra).
        specialize (Hlo Hone). apply Rabs_le. lra.
Qed.

(** C6.  The zero-norm guard.  [similitud_coseno] never raises a
    division error.  For maps whose sums of squared counts stay below
    2^1000 it returns, the norm of a map is 0.0 exactly when its sum of
    squares is 0, and it returns exactly 0.0 when either norm is zero, in
    particular when either map is empty. *)
Theorem guarda_norma_cero :
  (forall a b, similitud_coseno a b <> Raise ZeroDivisionError) /\
  (forall a b, sumsq a < 2 ^ 1000 -> sumsq b < 2 ^ 1000 ->
     (exists c, similitud_coseno a b = Ok c) /\
     (math_sqrt (sumsq a) = Ok fzero <-> sumsq a = 0) /\
     (sumsq a = 0 \/ sumsq b = 0 -> similitud_coseno a b = Ok fzero)) /\
  (forall b, sumsq b < 2 ^ 1000 ->
     similitud_coseno ∅ b = Ok fzero /\ similitud_coseno b ∅ = Ok fzero).
Proof.
  split; [exact similitud_coseno_no_divide_por_cero|]. split.
  - intros a b Ha Hb. split; [apply similitud_coseno_total; assumption|].
    split; [|apply similitud_coseno_norma_cero; assumption].
    split.
    + intros Hs. pose proof (sumsq_nonneg a).
      destruct (Z.eq_dec (sumsq a) 0) as [H0|H0]; [exact H0|].
      destruct (math_sqrt_cerca (sumsq a) ltac:(lia))
        as (f & Hf & _ & m & e & -> & _).
      rewrite Hf in Hs. discriminate.
    + intros ->. reflexivity.
  - intros b Hb. split; apply similitud_coseno_norma_cero;
      rewrite ?sumsq_empty; auto; reflexivity.
Qed.

(* ================================================================= *)
(** ** The vectors of [vectorizar] *)

Lemma sumsq_insert_gen (m : gmap ustring Z) (i : ustring) (x : Z) :
  sumsq (<[i:=x]> m) = sumsq m - get m i * get m i + x * x.
Proof.
  unfold get. destruct (m !! i) as [v|] eqn:Hi; simpl.
  - rewrite <- (insert_delete_eq m i x).
    rewrite <- (insert_delete_id m i v Hi) at 2.
    rewrite !sumsq_insert by apply lookup_delete_eq. lia.
  - rewrite sumsq_insert by exact Hi. lia.
Qed.

Lemma vectorizar_snoc (l : list ustring) (tok : ustring) :
  vectorizar (l ++ [tok]) =
  <[tok := get (vectorizar l) tok + 1]> (vectorizar l).
Proof. unfold vectorizar. rewrite foldl_snoc. reflexivity. Qed.

(** Counts are between 0 and the number of tokens, and the sum of their
    squares is at most its square. *)
Lemma vectorizar_cotas (l : list ustring) :
  (forall k, 0 <= get (vectorizar l) k <= Z.of_nat (length l)) /\
  sumsq (vectorizar l) <= Z.of_nat (length l) * Z.of_nat (length l) /\
  (l <> [] -> 0 < sumsq (vectorizar l)).
Proof.
  induction l as [|tok l IH] using rev_ind.
  - split; [|split].
    + intros k. unfold get, vectorizar. simpl. rewrite lookup_empty. simpl. lia.
    + unfold vectorizar. simpl. rewrite sumsq_empty. lia.
    + congruence.
  - destruct IH as (Hget & Hsum & _).
    rewrite vectorizar_snoc, length_app, Nat2Z.inj_add. simpl length.
    set (v := vectorizar l) in *. set (n := Z.of_nat (length l)) in *.
    pose proof (Hget tok) as Htok. pose proof (sumsq_nonneg v) as Hv0.
    split; [|split].
    + intros k. rewrite get_insert. destruct (decide (tok = k)) as [<-|_].
      * lia.
      * specialize (Hget k). lia.
    + rewrite sumsq_insert_gen. nia.
    + intros _. rewrite sumsq_insert_gen. nia.
Qed.

Lemma vectorizar_no_negativo (l : list ustring) : no_negativo (vectorizar l).
Proof.
  intros k v Hk. destruct (vectorizar_cotas l) as (Hget & _).
  specialize (Hget k). unfold get in Hget. rewrite Hk in Hget. simpl in Hget. lia.
Qed.

Lemma vectorizar_sumsq (l : list ustring) :
  l <> [] -> Z.of_nat (length l) < 2 ^ 500 ->
  0 < sumsq (vectorizar l) < 2 ^ 1000.
Proof.
  intros Hne Hn. destruct (vectorizar_cotas l) as (_ & Hsum & Hpos).
  split; [auto|].
  change (2 ^ 1000) with (2 ^ 500 * 2 ^ 500).
  assert (Z.of_nat (length l) * Z.of_nat (length l) < 2 ^ 500 * 2 ^ 500)
    by (apply Z.mul_lt_mono_nonneg; lia).
  lia.
Qed.

(* ================================================================= *)
(** ** Floats next to 1.0 *)

Lemma UMBRAL_valor : UMBRAL = S754_finite false 6485183463413514 (-53).
Proof. vm_compute. reflexivity. Qed.

Lemma bpow_neg_IZR (n : Z) : 0 <= n -> bpow (- n) = (/ IZR (2 ^ n))%R.
Proof.
  intros Hn. pose proof (bpow_opp_mul n) as H. rewrite (bpow_IZR n) in H by lia.
  assert (Hp : (0 < IZR (2 ^ n))%R).
  { apply IZR_lt. apply Z.pow_pos_nonneg; lia. }
  apply Rmult_eq_reg_r with (IZR (2 ^ n)); [|lra].
  rewrite H. field. lra.
Qed.

(** Evaluates the integer constants under [IZR], for [lra]. *)
Ltac numerales :=
  repeat match goal with
    | H : context [IZR (2 ^ ?b)] |- _ =>
        let v := eval vm_compute in (2 ^ b) in change (2 ^ b) with v in H
    | H : context [IZR (2 ^ ?b - 1)] |- _ =>
        let v := eval vm_compute in (2 ^ b - 1) in
        change (2 ^ b - 1) with v in H
    | |- context [IZR (2 ^ ?b)] =>
        let v := eval vm_compute in (2 ^ b) in change (2 ^ b) with v
    end.

Lemma Rabs_cotas (a b : R) : (Rabs a <= b -> - b <= a <= b)%R.
Proof.
  intros H. pose proof (Rle_abs a) as H1. pose proof (Rle_abs (- a)) as H2.
  rewrite Rabs_Ropp in H2. lra.
Qed.

(** A normal float within 2^-49 of 1: its exponent and mantissa. *)
Lemma cerca_de_uno_forma (m : positive) (e : Z) :
  2 ^ 52 <= Zpos m < 2 ^ 53 ->
  (Rabs (F2R (S754_finite false m e) - 1) <= bpow (-49))%R ->
  (e = -53 /\ 2 ^ 53 - 16 <= Zpos m) \/ (e = -52 /\ Zpos m <= 2 ^ 52 + 8).
Proof.
  intros Hm Hv. apply Rabs_cotas in Hv. simpl F2R in Hv.
  assert (H49 : bpow (-49) = (/ IZR (2 ^ 49))%R) by (apply (bpow_neg_IZR 49); lia).
  rewrite H49 in Hv.
  assert (Hm1 : (IZR (2 ^ 52) <= IZR (Zpos m))%R) by (apply IZR_le; lia).
  assert (Hm2 : (IZR (Zpos m) <= IZR (2 ^ 53 - 1))%R) by (apply IZR_le; lia).
  pose proof (bpow_pos e) as Hbe.
  destruct (Z_le_gt_dec e (-54)) as [Hlo|Hlo].
  { exfalso. pose proof (bpow_le e (-54) Hlo) as Hle.
    change (-54) with (Z.opp 54) in Hle. rewrite (bpow_neg_IZR 54) in Hle by lia.
    assert (IZR (Zpos m) * bpow e <= IZR (2 ^ 53 - 1) * / IZR (2 ^ 54))%R.
    { apply Rmult_le_compat; try lra; try (apply IZR_le; lia). }
    numerales. lra. }
  destruct (Z_le_gt_dec (-51) e) as [Hhi|Hhi].
  { exfalso. pose proof (bpow_le (-51) e Hhi) as Hle.
    change (-51) with (Z.opp 51) in Hle. rewrite (bpow_neg_IZR 51) in Hle by lia.
    assert (IZR (2 ^ 52) * / IZR (2 ^ 51) <= IZR (Zpos m) * bpow e)%R.
    { apply Rmult_le_compat; try lra;
        try (left; apply Rinv_0_lt_compat; lra); try (apply IZR_le; lia). }
    numerales. lra. }
  assert (He : e = -53 \/ e = -52) by lia.
  destruct He as [-> | ->].
  - left. split; [reflexivity|]. apply le_IZR.
    change (-53) with (Z.opp 53) in Hv. rewrite (bpow_neg_IZR 53) in Hv by lia.
    rewrite minus_IZR. numerales. lra.
  - right. split; [reflexivity|]. apply le_IZR.
    change (-52) with (Z.opp 52) in Hv. rewrite (bpow_neg_IZR 52) in Hv by lia.
    rewrite plus_IZR. numerales. lra.
Qed.

(** Such a float clears the threshold and is reported as 1.0. *)
Lemma cerca_de_uno (m : positive) (e : Z) :
  2 ^ 52 <= Zpos m < 2 ^ 53 ->
  (Rabs (F2R (S754_finite false m e) - 1) <= bpow (-49))%R ->
  fleb UMBRAL (S754_finite false m e) = true /\
  round3 (S754_finite false m e) = fone.
Proof.
  intros Hm Hv.
  destruct (cerca_de_uno_forma m e Hm Hv) as [[-> Hlo]|[-> Hhi]].
  - split.
    + rewrite UMBRAL_valor. unfold fleb, SFleb, SFcompare.
      rewrite Z.compare_refl.
      change (Pos.compare_cont Eq 6485183463413514 m)
        with (6485183463413514 ?= m)%positive.
      assert (Hlt : (6485183463413514 < m)%positive) by lia.
      apply Pos.compare_lt_iff in Hlt. rewrite Hlt. reflexivity.
    + unfold round3. change (0 <=? -53) with false. cbv iota.
      change (2 ^ (- -53)) with (2 ^ 53).
      unfold round_half_even.
      assert (Hq : Zpos m * 1000 / 2 ^ 53 = 999).
      { symmetry. apply Z.div_unique with (r := Zpos m * 1000 - 999 * 2 ^ 53); lia. }
      assert (Hr : (Zpos m * 1000) mod 2 ^ 53 = Zpos m * 1000 - 999 * 2 ^ 53).
      { symmetry. apply Z.mod_unique with (q := 999); lia. }
      rewrite Hq, Hr.
      destruct (Z.compare_spec (2 * (Zpos m * 1000 - 999 * 2 ^ 53)) (2 ^ 53));
        try lia.
      vm_compute. reflexivity.
  - split.
    + rewrite UMBRAL_valor. reflexivity.
    + unfold round3. change (0 <=? -52) with false. cbv iota.
      change (2 ^ (- -52)) with (2 ^ 52).
      unfold round_half_even.
      assert (Hq : Zpos m * 1000 / 2 ^ 52 = 1000).
      { symmetry. apply Z.div_unique with (r := Zpos m * 1000 - 1000 * 2 ^ 52); lia. }
      assert (Hr : (Zpos m * 1000) mod 2 ^ 52 = Zpos m * 1000 - 1000 * 2 ^ 52).
      { symmetry. apply Z.mod_unique with (q := 1000); lia. }
      rewrite Hq, Hr.
      destruct (Z.compare_spec (2 * (Zpos m * 1000 - 1000 * 2 ^ 52)) (2 ^ 52));
        try lia.
      vm_compute. reflexivity.
Qed.

(* ================================================================= *)
(** ** Learning a question *)

Lemma fltb_no_nan (x y : float) : fltb x y = true -> es_nan y = false.
Proof.
  destruct y as [| | |]; try reflexivity. destruct x as [| | |]; discriminate.
Qed.

Lemma fleb_false_fltb (x y : float) :
  es_nan x = false -> es_nan y = false ->
  fleb x y = false -> fltb y x = true.
Proof.
  unfold fltb, fleb, SFltb, SFleb. rewrite (SFcompare_antisym x y).
  destruct x as [| | |], y as [| | |]; simpl; try discriminate;
    repeat match goal with |- context [if ?b then _ else _] => destruct b end;
    simpl; try congruence;
    destruct (_ ?= _)%Z; simpl; try congruence;
    destruct (Pos.compare_cont _ _ _); simpl; congruence.
Qed.

Lemma fltb_fleb_trans (x y z : float) :
  fltb x y = true -> fleb y z = true -> fltb x z = true.
Proof.
  unfold fltb, fleb, SFltb, SFleb.
  destruct x as [sx|sx| |sx mx ex], y as [sy|sy| |sy my ey],
    z as [sz|sz| |sz mz ez]; simpl;
    try discriminate;
    try (destruct sx; try destruct sy; try destruct sz; simpl; congruence);
    try (destruct sy; try destruct sz; simpl; congruence).
  destruct sx, sy, sz; simpl; try congruence; intros Hxy Hyz;
    cmp_cases; simpl in *; try reflexivity; try discriminate; try lia.
Qed.

(** The similarity of a vector with a count to itself. *)
Lemma similitud_coseno_propia (v : gmap ustring Z) :
  0 < sumsq v < 2 ^ 1000 ->
  exists m e, similitud_coseno v v = Ok (S754_finite false m e) /\
    2 ^ 52 <= Zpos m < 2 ^ 53 /\
    (Rabs (F2R (S754_finite false m e) - 1) <= bpow (-49))%R.
Proof.
  intros Hv.
  destruct (similitud_coseno_valor v v) as (c & Hc & Hp & m & e & -> & Hm);
    try (rewrite ?dot_self; lia).
  exists m, e. split; [exact Hc|]. split; [exact Hm|].
  rewrite dot_self in Hp.
  assert (HA : (0 < IZR (sumsq v))%R) by (apply IZR_lt; lia).
  rewrite sqrt_sqrt in Hp by lra.
  replace (IZR (sumsq v) / IZR (sumsq v))%R with 1%R in Hp by (field; lra).
  destruct (prox_7_cotas _ _ Hp ltac:(lra)) as [Hup Hlo].
  specialize (Hlo eq_refl). apply Rabs_le. lra.
Qed.

Section Aprendizaje.

Variable ucd : UCD.

Lemma recorrer_no_nan (vq : gmap ustring Z) (l : list fila)
    (m0 m : coincidencia_t) :
  recorrer ucd vq m0 l = Ok m ->
  es_nan (m_score m0) = false -> es_nan (m_score m) = false.
Proof.
  revert m0. induction l as [|f l IH]; intros m0; simpl.
  - intros [= <-]. auto.
  - destruct (paso ucd vq m0 f) as [m1|e] eqn:Hp; simpl; [|discriminate].
    intros Hr H0. eapply IH; [exact Hr|].
    apply paso_inv in Hp as (t & _ & [[Hlt ->]|[_ ->]]); [|exact H0].
    simpl. eapply fltb_no_nan. exact Hlt.
Qed.

(** After a miss, every row has left a best below the threshold. *)
Lemma fallo_debajo (filas : list fila) (seq : Z) (q : ustring) (r : Resultado) :
  responder ucd (Tabla filas seq) q = Ok r -> coincidencia r = false ->
  exists m, recorrer ucd (consulta ucd q) centinela filas = Ok m /\
    fltb (m_score m) UMBRAL = true.
Proof.
  unfold responder. rewrite mejor_coincidencia_tabla.
  destruct (recorrer ucd (consulta ucd q) centinela filas) as [m|e] eqn:Hr;
    simpl; [|discriminate].
  destruct (fleb UMBRAL (m_score m)) eqn:Hle; intros [= <-]; simpl;
    [discriminate|]. intros _.
  exists m. split; [reflexivity|].
  apply fleb_false_fltb; [rewrite UMBRAL_valor; reflexivity| |exact Hle].
  eapply recorrer_no_nan; [exact Hr|reflexivity].
Qed.

(** C2.  Learning round trip, as it holds.  Let [q] have at least one
    token (and fewer than 2^500).  After [guardar_entrada] of [(q, a)],
    the new row scores within 2^-49 of 1 against [q].  If every row
    stored before scores strictly below it, [responder] on [q] returns
    the hit with answer [a], the normalized [q] as matched question and
    the reported score 1.0.  That is so whenever [responder] on [q] was a
    miss before the row was added. *)
Theorem aprender_y_preguntar (s s' : store) (q a : ustring) :
  guardar_entrada ucd s q a = Ok s' ->
  tokenizar ucd (normalizar ucd q) <> [] ->
  Z.of_nat (length (tokenizar ucd (normalizar ucd q))) < 2 ^ 500 ->
  let hit := {| coincidencia := true; respuesta := a; puntaje := fone;
                pregunta_coincidente := Some (normalizar ucd q) |} in
  exists c, similitud_coseno (consulta ucd q) (consulta ucd q) = Ok c /\
    (Rabs (F2R c - 1) <= bpow (-49))%R /\
    (Forall (fun f => exists t, puntuar ucd (consulta ucd q) f = Ok t /\
                        fltb t c = true) (filas_de s) ->
     responder ucd s' q = Ok hit) /\
    (forall r, responder ucd s q = Ok r -> coincidencia r = false ->
     responder ucd s' q = Ok hit).
Proof.
  intros Hg Hne Hlen hit.
  destruct s as [|filas seq]; [discriminate|].
  destruct (insertar_filas filas seq (normalizar ucd q) a) as [i Hi].
  unfold guardar_entrada in Hg. rewrite Hi in Hg. injection Hg as <-.
  set (nueva := {| fid := i; preg := normalizar ucd q; resp := a |}).
  destruct (similitud_coseno_propia (consulta ucd q)
              (vectorizar_sumsq _ Hne Hlen)) as (m & e & Hc & Hm & Hv).
  set (c := S754_finite false m e) in *.
  destruct (cerca_de_uno m e Hm Hv) as [Hum Hr3]. fold c in Hum, Hr3.
  assert (Hpos : fltb (m_score centinela) c = true) by reflexivity.
  clearbody c.
  assert (Hnueva : puntuar ucd (consulta ucd q) nueva = Ok c) by exact Hc.
  assert (Hfin : forall mejor,
            recorrer ucd (consulta ucd q) centinela filas = Ok mejor ->
            fltb (m_score mejor) c = true ->
            responder ucd (Tabla (filas ++ [nueva]) i) q = Ok hit).
  { intros mejor Hrec Hlt. unfold responder.
    rewrite mejor_coincidencia_tabla, recorrer_app, Hrec. simpl.
    rewrite (paso_toma ucd _ _ _ _ Hnueva Hlt). simpl.
    rewrite Hum. unfold hit. rewrite Hr3. reflexivity. }
  exists c. split; [exact Hc|]. split; [exact Hv|]. split.
  - intros Hfilas. simpl in Hfilas.
    destruct (recorrer_debajo ucd (consulta ucd q) filas centinela c
                Hpos Hfilas) as (mejor & Hrec & Hlt).
    exact (Hfin mejor Hrec Hlt).
  - intros r Hr Hmiss.
    destruct (fallo_debajo filas seq q r Hr Hmiss) as (mejor & Hrec & Hlt).
    apply (Hfin mejor Hrec). exact (fltb_fleb_trans _ _ _ Hlt Hum).
Qed.

End Aprendizaje.

(* ================================================================= *)
(** ** Rounding to three decimals *)

Lemma round_half_even_spec (n d : Z) :
  0 < d ->
  2 * Z.abs (n - round_half_even n d * d) <= d /\
  (2 * (n mod d) = d -> Z.even (round_half_even n d) = true).
Proof.
  intros Hd. unfold round_half_even.
  pose proof (Z.div_mod n d ltac:(lia)) as Hdm.
  pose proof (Z.mod_pos_bound n d Hd) as Hr.
  set (q := n / d) in *. set (r := n mod d) in *.
  destruct (Z.compare_spec (2 * r) d) as [Heq|Hlt|Hgt].
  - destruct (Z.even q) eqn:Hev.
    + split; [nia|auto].
    + split; [nia|]. intros _. rewrite Z.even_add, Hev. reflexivity.
  - split; [nia|lia].
  - split; [nia|lia].
Qed.

(** The decimal [round3] settles on: an integer number of thousandths
    within half a thousandth of the value. *)
Lemma round3_spec (s : bool) (m : positive) (e : Z) :
  exists k : Z, 0 <= k /\
    (Rabs (1000 * (IZR (Zpos m) * bpow e) - IZR k) <= 1 / 2)%R /\
    round3 (S754_finite s m e) =
      match k with
      | Zpos p => nearest_quotient s p 1000
      | _ => S754_zero s
      end.
Proof.
  unfold round3. destruct (Z.leb_spec 0 e) as [He|He].
  - exists (Zpos m * 1000 * 2 ^ e). split; [|split].
    + apply Z.mul_nonneg_nonneg; [lia|]. apply Z.pow_nonneg. lia.
    + rewrite !mult_IZR, <- (bpow_IZR e) by lia.
      replace (1000 * (IZR (Zpos m) * bpow e) - IZR (Zpos m) * 1000 * bpow e)%R
        with 0%R by ring.
      rewrite Rabs_R0. lra.
    + reflexivity.
  - set (d := 2 ^ (- e)).
    assert (Hd : 0 < d) by (apply Z.pow_pos_nonneg; lia).
    destruct (round_half_even_spec (Zpos m * 1000) d Hd) as [Hk _].
    set (k := round_half_even (Zpos m * 1000) d) in *.
    exists k. split; [|split].
    + destruct (Z_le_gt_dec 0 k) as [H|H]; [exact H|]. exfalso. nia.
    + assert (Hbe : bpow e = (/ IZR d)%R).
      { unfold d. replace e with (- - e) at 1 by lia.
        apply bpow_neg_IZR. lia. }
      assert (HdR : (0 < IZR d)%R) by (apply IZR_lt; exact Hd).
      rewrite Hbe. apply Rabs_le.
      assert (H1 : (IZR (2 * (Zpos m * 1000 - k * d)) <= IZR d)%R)
        by (apply IZR_le; lia).
      assert (H2 : (- IZR d <= IZR (2 * (Zpos m * 1000 - k * d)))%R)
        by (rewrite <- opp_IZR; apply IZR_le; lia).
      rewrite mult_IZR, minus_IZR, !mult_IZR in H1, H2.
      replace (1000 * (IZR (Zpos m) * / IZR d) - IZR k)%R
        with ((IZR (Zpos m) * 1000 - IZR k * IZR d) * / IZR d)%R
        by (field; lra).
      pose proof (Rinv_0_lt_compat _ HdR) as Hinv.
      assert (Hone : (IZR d * / IZR d = 1)%R) by (field; lra).
      split; nra.
    + reflexivity.
Qed.

Section Puntaje.

Variable ucd : UCD.

(** C10.  The score of the outcome.  On a hit and on a miss alike,
    [responder] reports [round3] of the best match's raw score: the
    float nearest to [k / 1000], where [k] thousandths is within half a
    thousandth of the raw score.  The test against [UMBRAL] is made on
    the raw score. *)
Theorem puntaje_redondeado (s : store) (mensaje : ustring)
    (mejor : coincidencia_t) (norm : ustring) :
  mejor_coincidencia ucd s mensaje = Ok (mejor, norm) ->
  exists r, responder ucd s mensaje = Ok r /\
    coincidencia r = fleb UMBRAL (m_score mejor) /\
    puntaje r = round3 (m_score mejor) /\
    (forall sg m e, m_score mejor = S754_finite sg m e ->
       exists k : Z, 0 <= k /\
         (Rabs (1000 * (IZR (Zpos m) * bpow e) - IZR k) <= 1 / 2)%R /\
         puntaje r = match k with
                     | Zpos p => nearest_quotient sg p 1000
                     | _ => S754_zero sg
                     end).
Proof.
  intros Hm. unfold responder. rewrite Hm. simpl.
  destruct (fleb UMBRAL (m_score mejor)); eexists; (split; [reflexivity|]);
    simpl; (split; [reflexivity|]); (split; [reflexivity|]);
    intros sg m e ->; apply round3_spec.
Qed.

End Puntaje.

(* ================================================================= *)
(** * Further properties of the code *)

(** ** The shape of a normalized text *)

Lemma sin_dobles_contiguos (sp : N -> bool) (b : bool) (pre post : ustring)
    (c d : N) :
  sp c = true -> sp d = true ->
  sin_dobles sp b (pre ++ c :: d :: post) = false.
Proof.
  intros Hc Hd. revert b. induction pre as [|x pre IH]; intros b; simpl.
  - rewrite Hc, Hd. simpl. apply andb_false_r.
  - destruct (sp x); [rewrite IH; apply andb_false_r|apply IH].
Qed.

Lemma sin_dobles_espacios (t : ustring) (b : bool) :
  (forall p q, t <> p ++ SPACE :: SPACE :: q) ->
  (b = true -> forall r, t <> SPACE :: r) ->
  sin_dobles es_espacio b t = true.
Proof.
  revert b. induction t as [|c t IH]; intros b H1 H2; simpl; [reflexivity|].
  unfold es_espacio at 1. destruct (N.eqb_spec c SPACE) as [Heq|Hne].
  - subst c. destruct b; [exfalso; exact (H2 eq_refl t eq_refl)|]. simpl.
    apply IH.
    + intros p q ->. apply (H1 (SPACE :: p) q). reflexivity.
    + intros _ r ->. apply (H1 [] r). reflexivity.
  - apply IH.
    + intros p q ->. apply (H1 (c :: p) q). reflexivity.
    + discriminate.
Qed.

(** [limpia], spelled out. *)
Lemma limpia_forma (y : ustring) :
  limpia y = true <->
  (forall c, In c y -> estable c = true) /\
  (forall pre post, y <> pre ++ SPACE :: SPACE :: post) /\
  (forall r, y <> SPACE :: r) /\
  (forall r, y <> r ++ [SPACE]).
Proof.
  unfold limpia. rewrite !andb_true_iff, forallb_forall. split.
  - intros [[[Hest Hdob] Hini] Hfin]. repeat split.
    + exact Hest.
    + intros pre post ->.
      rewrite (sin_dobles_contiguos es_espacio) in Hdob by reflexivity.
      discriminate.
    + intros r ->. discriminate.
    + intros r ->. rewrite rev_app_distr in Hfin. discriminate.
  - intros (Hest & Hdob & Hini & Hfin). repeat split.
    + exact Hest.
    + apply sin_dobles_espacios; [exact Hdob|discriminate].
    + destruct y as [|c r]; [reflexivity|]. unfold es_espacio.
      destruct (N.eqb_spec c SPACE) as [Heq|_]; [|reflexivity].
      subst c. exfalso. exact (Hini r eq_refl).
    + destruct (rev y) as [|c r] eqn:Hr; [reflexivity|]. unfold es_espacio.
      destruct (N.eqb_spec c SPACE) as [Heq|_]; [|reflexivity].
      subst c. exfalso. apply (Hfin (rev r)).
      rewrite <- (rev_involutive y), Hr. reflexivity.
Qed.

(** X1.  The shape of what [normalizar] returns.  Whatever the input,
    the result is made of lower-case ASCII letters, digits, spaces and
    the marks [? ! . ,] only; it holds no two spaces in a row; and it
    neither starts nor ends with a space. *)
Theorem normalizar_forma (ucd : UCD) (texto : ustring) :
  ucd_ok ucd ->
  (forall c, In c (normalizar ucd texto) -> estable c = true) /\
  (forall pre post, normalizar ucd texto <> pre ++ SPACE :: SPACE :: post) /\
  (forall r, normalizar ucd texto <> SPACE :: r) /\
  (forall r, normalizar ucd texto <> r ++ [SPACE]).
Proof.
  intros Hok. apply limpia_forma. apply normalizar_limpia. exact Hok.
Qed.

(** X2.  [normalizar] is idempotent, so [tokenizar], which normalizes
    its argument itself, gives the same tokens for a text and for its
    normalization: the second normalization in [mejor_coincidencia] and
    the one of a stored question change nothing. *)
Theorem normalizar_idempotente (ucd : UCD) (texto : ustring) :
  ucd_ok ucd ->
  normalizar ucd (normalizar ucd texto) = normalizar ucd texto /\
  tokenizar ucd (normalizar ucd texto) = tokenizar ucd texto.
Proof.
  intros Hok. pose proof (normalizar_idem ucd Hok texto) as H.
  split; [exact H|]. unfold tokenizar. rewrite H. reflexivity.
Qed.

(** X3.  The texts that [normalizar] leaves as they are, and the texts
    that it returns, are the same: the clean ones. *)
Theorem normalizar_puntos_fijos (ucd : UCD) (y : ustring) :
  ucd_ok ucd ->
  (normalizar ucd y = y <-> limpia y = true) /\
  ((exists texto, y = normalizar ucd texto) <-> limpia y = true).
Proof.
  intros Hok. split; split.
  - intros <-. apply normalizar_limpia. exact Hok.
  - apply normalizar_fijo. exact Hok.
  - intros [texto ->]. apply normalizar_limpia. exact Hok.
  - intros H. exists y. symmetry. apply normalizar_fijo; assumption.
Qed.

(* ================================================================= *)
(** ** The tokens *)

Section Split.

Variable sep : N -> bool.

(** The pieces of [re_split] that are not empty, put together again,
    are the text without its separators. *)
Lemma re_split_concat (cur : ustring) (b : bool) (t : ustring) :
  concat (List.filter nonempty (re_split sep cur b t)) =
  rev cur ++ List.filter (fun c => negb (sep c)) t.
Proof.
  revert cur b. induction t as [|c t IH]; intros cur b; simpl.
  - destruct (rev cur); simpl; rewrite ?app_nil_r; reflexivity.
  - destruct (sep c) eqn:Hc; simpl.
    + destruct b; [apply IH|]. simpl.
      destruct (rev cur) as [|d r] eqn:Hr; simpl; rewrite IH; reflexivity.
    + rewrite IH. simpl. rewrite <- app_assoc. reflexivity.
Qed.

Lemma re_split_In (cur : ustring) (b : bool) (t p : ustring) (c : N) :
  In p (re_split sep cur b t) -> In c p ->
  In c cur \/ (In c t /\ sep c = false).
Proof.
  revert cur b. induction t as [|d t IH]; intros cur b; simpl.
  - intros [<-|[]] Hc. left. apply in_rev. exact Hc.
  - destruct (sep d) eqn:Hd.
    + destruct b.
      * intros Hp Hc. destruct (IH _ _ Hp Hc) as [H|[H1 H2]]; auto.
      * intros [<-|Hp] Hc.
        -- left. apply in_rev. exact Hc.
        -- destruct (IH _ _ Hp Hc) as [[]|[H1 H2]]. auto.
    + intros Hp Hc. destruct (IH _ _ Hp Hc) as [[<-|H]|[H1 H2]]; auto.
Qed.

End Split.

Lemma filter_nonempty_In (p : ustring) (l : list ustring) :
  In p (List.filter nonempty l) -> In p l /\ p <> [].
Proof.
  intros H. apply filter_In in H as [H1 H2]. split; [exact H1|].
  intros ->. discriminate.
Qed.

Lemma filter_ext_tok (t : ustring) :
  List.filter (fun c => negb (negb (is_tok_char c))) t
  = List.filter is_tok_char t.
Proof. apply filter_ext. intros c. apply negb_involutive. Qed.

Lemma concat_nil_nonempty (l : list ustring) :
  concat (List.filter nonempty l) = [] -> List.filter nonempty l = [].
Proof.
  induction l as [|p l IH]; simpl; [auto|].
  destruct p as [|c p]; simpl; [exact IH|discriminate].
Qed.

Lemma filter_nil_iff (p : N -> bool) (t : ustring) :
  List.filter p t = [] <-> forall c, In c t -> p c = false.
Proof.
  induction t as [|d t IH]; simpl.
  - split; [intros _ c []|reflexivity].
  - destruct (p d) eqn:Hd.
    + split; [discriminate|]. intros H. rewrite (H d) in Hd by auto.
      discriminate.
    + rewrite IH. split.
      * intros H c [<-|Hc]; auto.
      * intros H c Hc. apply H. auto.
Qed.

(** X4.  Every token is a non-empty string of lower-case ASCII letters
    and digits.  The ñ that the pattern of [tokenizar] lists is never
    part of one. *)
Theorem tokenizar_fichas (ucd : UCD) (texto tok : ustring) :
  ucd_ok ucd ->
  In tok (tokenizar ucd texto) ->
  tok <> [] /\ forall c, In c tok -> is_az c || is_09 c = true.
Proof.
  intros Hok Htok. unfold tokenizar in Htok.
  apply filter_nonempty_In in Htok as [Hin Hne]. split; [exact Hne|].
  intros c Hc.
  destruct (re_split_In _ _ _ _ _ _ Hin Hc) as [[]|[Hn Hs]].
  apply negb_false_iff in Hs.
  pose proof (normalizar_In ucd Hok _ _ Hn) as He.
  unfold is_tok_char in Hs. destruct (is_az c || is_09 c); [reflexivity|].
  simpl in Hs. apply N.eqb_eq in Hs. subst c. discriminate.
Qed.

(** X5.  Tokenizing loses nothing but separators: the tokens, put
    together in their order, are the characters of the normalized text
    that are in the class [[a-z0-9ñ]].  So there is no token exactly when
    the normalized text holds no such character. *)
Theorem tokenizar_concat (ucd : UCD) (texto : ustring) :
  concat (tokenizar ucd texto)
    = List.filter is_tok_char (normalizar ucd texto) /\
  (tokenizar ucd texto = [] <->
   forall c, In c (normalizar ucd texto) -> is_tok_char c = false).
Proof.
  assert (H : concat (tokenizar ucd texto)
              = List.filter is_tok_char (normalizar ucd texto)).
  { unfold tokenizar. rewrite re_split_concat. simpl. apply filter_ext_tok. }
  split; [exact H|]. rewrite <- filter_nil_iff, <- H. split.
  - intros ->. reflexivity.
  - apply concat_nil_nonempty.
Qed.

(* ================================================================= *)
(** ** The counts of a bag of words *)

Lemma veces_app (k : ustring) (l1 l2 : list ustring) :
  veces k (l1 ++ l2) = veces k l1 + veces k l2.
Proof. unfold veces. rewrite count_occ_app. lia. Qed.

Lemma veces_uno (k tok : ustring) :
  veces k [tok] = if decide (tok = k) then 1 else 0.
Proof. unfold veces. simpl. destruct (decide (tok = k)); reflexivity. Qed.

Lemma veces_pos (k : ustring) (l : list ustring) : 0 < veces k l <-> In k l.
Proof.
  unfold veces. rewrite (count_occ_In (fun x y : ustring => decide (x = y))).
  lia.
Qed.

Lemma vectorizar_lookup (l : list ustring) (k : ustring) :
  vectorizar l !! k = if veces k l =? 0 then None else Some (veces k l).
Proof.
  induction l as [|tok l IH] using rev_ind.
  - reflexivity.
  - rewrite vectorizar_snoc, veces_app, veces_uno.
    assert (Hpos : 0 <= veces k l) by (unfold veces; lia).
    destruct (decide (tok = k)) as [->|Hne].
    + rewrite lookup_insert_eq. unfold get. rewrite IH.
      destruct (Z.eqb_spec (veces k l) 0) as [H0|H0];
        destruct (Z.eqb_spec (veces k l + 1) 0); try lia; simpl.
      * rewrite H0. reflexivity.
      * reflexivity.
    + rewrite lookup_insert_ne by exact Hne. rewrite IH, Z.add_0_r.
      reflexivity.
Qed.

Lemma vectorizar_perm (l1 l2 : list ustring) :
  Permutation l1 l2 -> vectorizar l1 = vectorizar l2.
Proof.
  intros H. apply map_eq. intros k. rewrite !vectorizar_lookup.
  unfold veces.
  rewrite (proj1 (Permutation_count_occ
                    (fun x y : ustring => decide (x = y)) l1 l2) H k).
  reflexivity.
Qed.

Lemma get_vectorizar_pos (l : list ustring) (k : ustring) :
  In k l -> 0 < get (vectorizar l) k.
Proof.
  intros Hk. unfold get. rewrite vectorizar_lookup.
  apply veces_pos in Hk.
  destruct (Z.eqb_spec (veces k l) 0); simpl; lia.
Qed.

Lemma vectorizar_fuera (l : list ustring) (k : ustring) :
  ~ In k l -> vectorizar l !! k = None.
Proof.
  intros Hk. rewrite vectorizar_lookup. rewrite <- veces_pos in Hk.
  assert (Hpos : 0 <= veces k l) by (unfold veces; lia).
  destruct (Z.eqb_spec (veces k l) 0); [reflexivity|lia].
Qed.

Lemma vectorizar_sumsq_cota (l : list ustring) :
  Z.of_nat (length l) < 2 ^ 500 -> sumsq (vectorizar l) < 2 ^ 1000.
Proof.
  intros Hl. pose proof (vectorizar_cotas l) as (_ & Hs & _).
  change (2 ^ 1000) with (2 ^ 500 * 2 ^ 500).
  assert (0 <= Z.of_nat (length l)) by lia. nia.
Qed.

(** X6.  [vectorizar] counts: the entry of a token is the number of
    times it occurs in the list, and a string that does not occur has no
    entry. *)
Theorem vectorizar_cuenta (l : list ustring) (k : ustring) :
  get (vectorizar l) k = veces k l /\
  (vectorizar l !! k = None <-> ~ In k l).
Proof.
  unfold get. rewrite vectorizar_lookup, <- veces_pos.
  assert (Hpos : 0 <= veces k l) by (unfold veces; lia).
  destruct (Z.eqb_spec (veces k l) 0) as [H0|H0]; simpl.
  - split; [lia|]. split; [lia|reflexivity].
  - split; [reflexivity|]. split; [discriminate|lia].
Qed.

(** X7.  A bag of words: two token lists have the same vector exactly
    when one is a rearrangement of the other. *)
Theorem vectorizar_bolsa (l1 l2 : list ustring) :
  vectorizar l1 = vectorizar l2 <-> Permutation l1 l2.
Proof.
  split; [|apply vectorizar_perm].
  rewrite (Permutation_count_occ (fun x y : ustring => decide (x = y))).
  intros H k. apply (f_equal (fun m => m !! k)) in H.
  rewrite !vectorizar_lookup in H.
  assert (Hv : veces k l1 = veces k l2).
  { destruct (Z.eqb_spec (veces k l1) 0), (Z.eqb_spec (veces k l2) 0);
      congruence. }
  unfold veces in Hv. lia.
Qed.

(* ================================================================= *)
(** ** The two arguments of the cosine *)

Lemma fmul_comm (x y : float) : fmul x y = fmul y x.
Proof.
  unfold fmul, SFmul.
  destruct x as [sx|sx| |sx mx ex], y as [sy|sy| |sy my ey];
    try reflexivity; try (rewrite (xorb_comm sx sy); reflexivity).
  rewrite (xorb_comm sx sy), (Pos.mul_comm mx my), (Z.add_comm ex ey).
  reflexivity.
Qed.

Lemma dot_comm (a b : gmap ustring Z) : dot a b = dot b a.
Proof.
  rewrite !dot_suma. rewrite (union_comm_L (dom a) (dom b)).
  apply suma_ext. intros k _. apply Z.mul_comm.
Qed.

(** The conversion of a non-negative [int] is not below zero. *)
Lemma float_of_int_no_negativo (n : Z) (x : float) :
  0 <= n -> float_of_int n = Ok x -> fltb x fzero = false.
Proof.
  intros Hn. unfold float_of_int, binary_normalize.
  destruct n as [|p|p]; [| |lia].
  - intros [= <-]. reflexivity.
  - unfold binary_round.
    destruct (shl_align p 0 _) as [mz ez].
    rewrite (binary_round_aux_signo false).
    destruct (binary_round_aux prec emax false (Zpos mz) ez loc_Exact);
      intros [= <-]; reflexivity.
Qed.

Lemma math_sqrt_raise_overflow (n : Z) (e : exc) :
  0 <= n -> math_sqrt n = Raise e -> e = OverflowError.
Proof.
  intros Hn. unfold math_sqrt.
  destruct (float_of_int n) as [x|e'] eqn:Hx; simpl.
  - rewrite (float_of_int_no_negativo n x Hn Hx). discriminate.
  - intros [= <-]. eapply float_of_int_raise. exact Hx.
Qed.


(** X8.  The scorer is symmetric: with its arguments exchanged it
    returns the same float, or raises the same exception. *)
Theorem similitud_coseno_simetrica (a b : gmap ustring Z) :
  similitud_coseno a b = similitud_coseno b a.
Proof.
  unfold similitud_coseno. rewrite (dot_comm a b).
  destruct (math_sqrt (sumsq a)) as [na|ea] eqn:Ha,
           (math_sqrt (sumsq b)) as [nb|eb] eqn:Hb; simpl.
  - rewrite (fmul_comm na nb). reflexivity.
  - reflexivity.
  - reflexivity.
  - apply math_sqrt_raise_overflow in Ha, Hb; try apply sumsq_nonneg.
    congruence.
Qed.

(* ================================================================= *)
(** ** Shared tokens *)

Lemma suma_ge (g : ustring -> Z) (l : list ustring) (k : ustring) :
  (forall j, 0 <= g j) -> In k l -> g k <= suma g l.
Proof.
  intros Hg. induction l as [|j l IH]; simpl; [tauto|].
  pose proof (suma_nonneg g l Hg). pose proof (Hg j).
  intros [->|Hk]; [lia|]. specialize (IH Hk). lia.
Qed.

Lemma dot_cero_disjuntos (a b : gmap ustring Z) :
  (forall k, a !! k = None \/ b !! k = None) -> dot a b = 0.
Proof.
  intros H. rewrite dot_suma. apply suma_cero. intros k _. unfold get.
  destruct (H k) as [-> | ->]; simpl; lia.
Qed.

Lemma dot_pos_comun (a b : gmap ustring Z) (k : ustring) :
  no_negativo a -> no_negativo b ->
  0 < get a k -> 0 < get b k -> 0 < dot a b.
Proof.
  intros Ha Hb Hak Hbk. rewrite dot_suma.
  assert (Hin : In k (elements (dom a ∪ dom b))).
  { apply list_elem_of_In, elem_of_elements, elem_of_union. left.
    apply elem_of_dom. unfold get in Hak.
    destruct (a !! k); [eauto|simpl in Hak; lia]. }
  assert (Hg : forall j, 0 <= get a j * get b j).
  { intros j. pose proof (get_nonneg a j Ha). pose proof (get_nonneg b j Hb).
    nia. }
  pose proof (suma_ge (fun j => get a j * get b j) _ k Hg Hin) as H.
  simpl in H. nia.
Qed.

(** The score of two frequency maps of moderate size: 0.0, or a
    positive normal float that is at most [1 + 2^-49]. *)
Lemma similitud_coseno_forma (a b : gmap ustring Z) :
  no_negativo a -> no_negativo b ->
  sumsq a < 2 ^ 1000 -> sumsq b < 2 ^ 1000 ->
  exists c, similitud_coseno a b = Ok c /\
    ((c = fzero /\ (sumsq a = 0 \/ sumsq b = 0 \/ dot a b = 0)) \/
     (0 < dot a b /\ exists m e, c = S754_finite false m e /\
        2 ^ 52 <= Zpos m < 2 ^ 53 /\
        (0 < F2R c <= 1 + bpow (-49))%R)).
Proof.
  intros Ha Hb Hsa Hsb.
  pose proof (sumsq_nonneg a) as Hna. pose proof (sumsq_nonneg b) as Hnb.
  pose proof (dot_nonneg a b Ha Hb) as Hd.
  destruct (Z.eq_dec (sumsq a) 0) as [Ha0|Ha0].
  { exists fzero. split; [apply similitud_coseno_norma_cero; auto|]. auto. }
  destruct (Z.eq_dec (sumsq b) 0) as [Hb0|Hb0].
  { exists fzero. split; [apply similitud_coseno_norma_cero; auto|]. auto. }
  destruct (Z.eq_dec (dot a b) 0) as [Hd0|Hd0].
  { exists fzero. split; [apply similitud_coseno_dot_cero; auto; lia|]. auto. }
  destruct (similitud_coseno_valor a b) as (c & Hc & Hp & m & e & -> & Hm);
    try lia.
  exists (S754_finite false m e). split; [exact Hc|]. right.
  split; [lia|]. exists m, e. split; [reflexivity|]. split; [exact Hm|].
  pose proof (coseno_exacto_le_1 a b ltac:(lia) ltac:(lia) ltac:(lia))
    as [Ht0 Ht1].
  destruct (prox_7_cotas _ _ Hp Ht1) as [Hup _].
  split; [|exact Hup]. destruct Hp as (_ & Hv & _). exact Hv.
Qed.

(** The score of two token lists of moderate length. *)
Lemma puntaje_fichas (l1 l2 : list ustring) :
  Z.of_nat (length l1) < 2 ^ 500 -> Z.of_nat (length l2) < 2 ^ 500 ->
  exists c, similitud_coseno (vectorizar l1) (vectorizar l2) = Ok c /\
    ((c = fzero /\ forall k, In k l1 -> ~ In k l2) \/
     ((exists k, In k l1 /\ In k l2) /\
      exists m e, c = S754_finite false m e /\
        2 ^ 52 <= Zpos m < 2 ^ 53 /\ (0 < F2R c <= 1 + bpow (-49))%R)).
Proof.
  intros H1 H2.
  destruct (similitud_coseno_forma (vectorizar l1) (vectorizar l2)
              (vectorizar_no_negativo l1) (vectorizar_no_negativo l2)
              (vectorizar_sumsq_cota l1 H1) (vectorizar_sumsq_cota l2 H2))
    as (c & Hc & Hcase).
  exists c. split; [exact Hc|].
  destruct Hcase as [[-> Hz]|(Hd & Hm)].
  - left. split; [reflexivity|]. intros k Hk1 Hk2.
    pose proof (dot_pos_comun (vectorizar l1) (vectorizar l2) k
                  (vectorizar_no_negativo l1) (vectorizar_no_negativo l2)
                  (get_vectorizar_pos l1 k Hk1) (get_vectorizar_pos l2 k Hk2))
      as Hd.
    pose proof (proj2 (proj2 (vectorizar_cotas l1))) as Hs1.
    pose proof (proj2 (proj2 (vectorizar_cotas l2))) as Hs2.
    destruct Hz as [H0|[H0|H0]].
    + assert (l1 <> []) by (intros ->; destruct Hk1). specialize (Hs1 H). lia.
    + assert (l2 <> []) by (intros ->; destruct Hk2). specialize (Hs2 H). lia.
    + lia.
  - right. split; [|exact Hm].
    destruct (List.Exists_dec (fun k => In k l2) l1
                (fun k => in_dec (fun x y : ustring => decide (x = y)) k l2))
      as [Hex|Hno].
    + apply List.Exists_exists in Hex as (k & Hk1 & Hk2). eauto.
    + exfalso. rewrite dot_cero_disjuntos in Hd; [lia|].
      intros k. destruct (in_dec (fun x y : ustring => decide (x = y)) k l1)
        as [Hin|Hout].
      * right. apply vectorizar_fuera. intros Hk2. apply Hno.
        apply List.Exists_exists. eauto.
      * left. apply vectorizar_fuera. exact Hout.
Qed.

(** X9.  The score of two token lists (of fewer than 2^500 tokens) is
    above 0.0 when they share a token, and it is exactly 0.0 when they
    share none. *)
Theorem coseno_fichas_comunes (l1 l2 : list ustring) :
  Z.of_nat (length l1) < 2 ^ 500 -> Z.of_nat (length l2) < 2 ^ 500 ->
  exists c, similitud_coseno (vectorizar l1) (vectorizar l2) = Ok c /\
    ((exists k, In k l1 /\ In k l2) -> fltb fzero c = true) /\
    ((forall k, In k l1 -> ~ In k l2) -> c = fzero).
Proof.
  intros H1 H2. destruct (puntaje_fichas l1 l2 H1 H2) as (c & Hc & Hcase).
  exists c. split; [exact Hc|].
  destruct Hcase as [[-> Hdis]|((k & Hk1 & Hk2) & m & e & -> & _)].
  - split; [|reflexivity]. intros (k & Hk1 & Hk2).
    exfalso. exact (Hdis k Hk1 Hk2).
  - split; [reflexivity|]. intros Hdis. exfalso. exact (Hdis k Hk1 Hk2).
Qed.

(** X10.  The accuracy of the scorer.  For frequency maps with a
    positive count each (and sums of squares below 2^1000) the float
    returned is the cosine of the two vectors up to a relative error of
    2^-49. *)
Theorem coseno_precision (a b : gmap ustring Z) :
  no_negativo a -> no_negativo b ->
  0 < sumsq a < 2 ^ 1000 -> 0 < sumsq b < 2 ^ 1000 ->
  exists c, similitud_coseno a b = Ok c /\
    (Rabs (F2R c
           - IZR (dot a b) / (sqrt (IZR (sumsq a)) * sqrt (IZR (sumsq b))))
     <= bpow (-49) *
        (IZR (dot a b) / (sqrt (IZR (sumsq a)) * sqrt (IZR (sumsq b)))))%R.
Proof.
  intros Ha Hb Hsa Hsb.
  pose proof (dot_nonneg a b Ha Hb) as Hd.
  destruct (Z.eq_dec (dot a b) 0) as [Hd0|Hd0].
  - exists fzero. split; [apply similitud_coseno_dot_cero; auto|].
    rewrite Hd0. simpl. unfold Rdiv. rewrite !Rmult_0_l, Rmult_0_r, Rminus_0_r.
    rewrite Rabs_R0. lra.
  - destruct (similitud_coseno_valor a b Hsa Hsb ltac:(lia))
      as (c & Hc & Hp & _).
    exists c. split; [exact Hc|].
    set (t := (IZR (dot a b) / (sqrt (IZR (sumsq a)) * sqrt (IZR (sumsq b))))%R)
      in *.
    destruct Hp as (Ht & Hv & H1 & H2).
    pose proof siete_redondeos as H7.
    pose proof (rho_pow_ge_1 7) as H71.
    pose proof (bpow_pos (-49)) as Hb49.
    set (r := ((1 + u) ^ 7)%R) in *. set (v := F2R c) in *.
    set (d := bpow (-49)) in *. clearbody r v d t.
    apply Rabs_le. split; nra.
Qed.

(* ================================================================= *)
(** ** The best match *)

(** A score of at most [1 + 2^-49] is reported as a number of
    thousandths between 0 and 1000. *)
Lemma round3_unidad (m : positive) (e : Z) :
  (F2R (S754_finite false m e) <= 1 + bpow (-49))%R ->
  exists k, 0 <= k <= 1000 /\ round3 (S754_finite false m e) = milesimas k.
Proof.
  intros Hx. destruct (round3_spec false m e) as (k & Hk0 & Hk & Hr).
  exists k. split.
  - split; [exact Hk0|].
    assert (Hb : (bpow (-49) <= / 2048)%R).
    { apply Rle_trans with (bpow (-11)); [apply bpow_le; lia|].
      change (-11) with (- (11)). rewrite bpow_neg_IZR by lia.
      change (2 ^ 11) with 2048. lra. }
    unfold F2R in Hx. simpl in Hx.
    apply Rabs_cotas in Hk.
    assert (Hlt : (IZR k < IZR 1001)%R) by lra.
    apply lt_IZR in Hlt. lia.
  - rewrite Hr. destruct k; reflexivity.
Qed.

Lemma fleb_fltb_trans (x y z : float) :
  fleb x y = true -> fltb y z = true -> fleb x z = true.
Proof.
  unfold fltb, fleb, SFltb, SFleb.
  destruct x as [sx|sx| |sx mx ex], y as [sy|sy| |sy my ey],
    z as [sz|sz| |sz mz ez]; simpl;
    try discriminate;
    try (destruct sx; try destruct sy; try destruct sz; simpl; congruence);
    try (destruct sy; try destruct sz; simpl; congruence).
  destruct sx, sy, sz; simpl; try congruence; intros Hxy Hyz;
    cmp_cases; simpl in *; try reflexivity; try discriminate; try lia.
Qed.

Section Mejor.

Variable ucd : UCD.

(** Where the result of the scan comes from: the candidate it started
    with, or a row, with the score of that row, which is above the score
    the scan started with. *)
Lemma recorrer_origen_puntaje (vq : gmap ustring Z) (l : list fila)
    (m0 m : coincidencia_t) :
  recorrer ucd vq m0 l = Ok m ->
  m = m0 \/
  exists f, In f l /\ puntuar ucd vq f = Ok (m_score m) /\
    m = candidato f (m_score m) /\ fltb (m_score m0) (m_score m) = true.
Proof.
  revert m0. induction l as [|f l IH]; intros m0; simpl.
  - intros [= <-]. auto.
  - destruct (paso ucd vq m0 f) as [m1|e] eqn:Hp; simpl; [|discriminate].
    intros Hr. apply paso_inv in Hp as (t & Ht & Hcase).
    apply IH in Hr as [->|(g & Hg & Hpg & Hmg & Hlt)].
    + destruct Hcase as [[Hlt ->]|[_ ->]]; [|auto].
      right. exists f. simpl. auto.
    + right. exists g. split; [auto|]. split; [exact Hpg|].
      split; [exact Hmg|].
      destruct Hcase as [[Hlt0 ->]|[_ ->]]; [|exact Hlt].
      simpl in Hlt. exact (fltb_trans _ _ _ Hlt0 Hlt).
Qed.

(** No row scores above the result of the scan. *)
Lemma recorrer_maximo (vq : gmap ustring Z) (l : list fila)
    (m0 m : coincidencia_t) :
  recorrer ucd vq m0 l = Ok m ->
  Forall (fun f => exists t, puntuar ucd vq f = Ok t /\
                     fltb (m_score m) t = false) l.
Proof.
  revert m0. induction l as [|f l IH]; intros m0; simpl.
  - constructor.
  - destruct (paso ucd vq m0 f) as [m1|e] eqn:Hp; simpl; [|discriminate].
    intros Hr. constructor; [|exact (IH _ Hr)].
    apply paso_inv in Hp as (t & Ht & Hcase). exists t. split; [exact Ht|].
    eapply recorrer_mono; [exact Hr|].
    destruct Hcase as [[_ ->]|[Hlt ->]]; [apply fltb_irrefl|exact Hlt].
Qed.


Lemma responder_tabla (filas : list fila) (n : Z) (q : ustring) :
  responder ucd (Tabla filas n) q =
  (recorrer ucd (consulta ucd q) centinela filas ≫= fun mejor =>
   Ok (if fleb UMBRAL (m_score mejor) then acierto mejor else fallo mejor)).
Proof.
  unfold responder. rewrite mejor_coincidencia_tabla.
  destruct (recorrer ucd (consulta ucd q) centinela filas) as [m|e]; simpl;
    [|reflexivity].
  destruct (fleb UMBRAL (m_score m)); reflexivity.
Qed.


(** X11.  What [mejor_coincidencia] returns.  The second component is
    the normalized message.  The first is a maximum: no row of the table
    scores above it.  And it is the sentinel, or else a row of the table
    with the score of that row, which is then above 0.0. *)
Theorem mejor_es_maximo (s : store) (q : ustring) (m : coincidencia_t)
    (n : ustring) :
  mejor_coincidencia ucd s q = Ok (m, n) ->
  n = normalizar ucd q /\
  Forall (fun f => exists t, puntuar ucd (consulta ucd q) f = Ok t /\
                     fltb (m_score m) t = false) (filas_de s) /\
  (m = centinela \/
   exists f, In f (filas_de s) /\
     puntuar ucd (consulta ucd q) f = Ok (m_score m) /\
     m = candidato f (m_score m) /\ fltb fzero (m_score m) = true).
Proof.
  destruct s as [|filas seq]; [discriminate|].
  rewrite mejor_coincidencia_tabla.
  destruct (recorrer ucd (consulta ucd q) centinela filas) as [m'|e] eqn:Hr;
    simpl; [|discriminate].
  intros [= <- <-]. split; [reflexivity|]. split.
  - exact (recorrer_maximo _ _ _ _ Hr).
  - exact (recorrer_origen_puntaje _ _ _ _ Hr).
Qed.

(** X12.  A hit is a stored row.  When [responder] reports a match, the
    answer and the matched question are those of one row of the table,
    the score of that row against the message is at or above [UMBRAL],
    and the reported score is that score rounded. *)
Theorem acierto_es_fila (s : store) (q : ustring) (r : Resultado) :
  responder ucd s q = Ok r -> coincidencia r = true ->
  exists f t, In f (filas_de s) /\
    puntuar ucd (consulta ucd q) f = Ok t /\ fleb UMBRAL t = true /\
    respuesta r = resp f /\ pregunta_coincidente r = Some (preg f) /\
    puntaje r = round3 t.
Proof.
  destruct s as [|filas seq]; [discriminate|].
  rewrite responder_tabla.
  destruct (recorrer ucd (consulta ucd q) centinela filas) as [m|e] eqn:Hr;
    simpl; [|discriminate].
  destruct (fleb UMBRAL (m_score m)) eqn:Hle; intros [= <-]; simpl;
    [|discriminate]. intros _.
  apply recorrer_origen_puntaje in Hr as [->|(f & Hf & Hp & Hm & _)].
  - vm_compute in Hle. discriminate.
  - exists f, (m_score m). split; [exact Hf|]. split; [exact Hp|].
    split; [exact Hle|]. rewrite Hm. simpl. auto.
Qed.

(** The scan of a table with one more row at its end. *)
Lemma recorrer_nueva (vq : gmap ustring Z) (filas : list fila) (f : fila)
    (m m' : coincidencia_t) :
  recorrer ucd vq centinela filas = Ok m ->
  recorrer ucd vq centinela (filas ++ [f]) = Ok m' ->
  exists t, puntuar ucd vq f = Ok t /\
    ((fltb (m_score m) t = true /\ m' = candidato f t) \/
     (fltb (m_score m) t = false /\ m' = m)).
Proof.
  intros Hm. rewrite recorrer_app, Hm. simpl.
  destruct (paso ucd vq m f) as [m1|e] eqn:Hp; simpl; [|discriminate].
  intros [= <-]. exact (paso_inv _ _ _ _ _ Hp).
Qed.

(** X13.  Teaching does not make the program forget.  If a message got
    a hit before a pair was stored, it gets a hit after it, whenever
    [responder] returns: the same result as before, or else the pair
    just stored, which then scores strictly above the row that matched
    before. *)
Theorem aprender_no_olvida (s s' : store) (q' a' q : ustring)
    (r r' : Resultado) :
  guardar_entrada ucd s q' a' = Ok s' ->
  responder ucd s q = Ok r -> coincidencia r = true ->
  responder ucd s' q = Ok r' ->
  coincidencia r' = true /\
  (r' = r \/
   (respuesta r' = a' /\ pregunta_coincidente r' = Some (normalizar ucd q') /\
    exists f t t', In f (filas_de s) /\
      puntuar ucd (consulta ucd q) f = Ok t /\ puntaje r = round3 t /\
      similitud_coseno (consulta ucd q) (consulta ucd q') = Ok t' /\
      puntaje r' = round3 t' /\ fltb t t' = true)).
Proof.
  intros Hg Hr Hhit Hr'.
  destruct s as [|filas n]; [discriminate|].
  destruct (insertar_filas filas n (normalizar ucd q') a') as [i Hi].
  unfold guardar_entrada in Hg. rewrite Hi in Hg. injection Hg as <-.
  rewrite responder_tabla in Hr, Hr'.
  destruct (recorrer ucd (consulta ucd q) centinela filas) as [m|e] eqn:Hm;
    simpl in Hr; [|discriminate].
  destruct (recorrer ucd (consulta ucd q) centinela (filas ++ _))
    as [m'|e] eqn:Hm'; simpl in Hr'; [|discriminate].
  destruct (fleb UMBRAL (m_score m)) eqn:Hle; injection Hr as <-;
    [clear Hhit|discriminate Hhit].
  destruct (recorrer_nueva _ _ _ _ _ Hm Hm')
    as (t' & Ht' & [[Hlt ->]|[Hlt ->]]).
  - simpl in Hr'. rewrite (fleb_fltb_trans _ _ _ Hle Hlt) in Hr'.
    injection Hr' as <-. split; [reflexivity|]. right.
    split; [reflexivity|]. split; [reflexivity|].
    destruct (recorrer_origen_puntaje _ _ _ _ Hm)
      as [->|(f & Hf & Hp & _)]; [vm_compute in Hle; discriminate|].
    exists f, (m_score m), t'. simpl. auto 10.
  - rewrite Hle in Hr'. injection Hr' as <-. auto.
Qed.

Hypothesis Hok : ucd_ok ucd.

Lemma consulta_tokenizar (q : ustring) :
  consulta ucd q = vectorizar (tokenizar ucd q).
Proof.
  unfold consulta, tokenizar. rewrite (normalizar_idem ucd Hok). reflexivity.
Qed.

Lemma tokenizar_normalizar (t : ustring) :
  tokenizar ucd (normalizar ucd t) = tokenizar ucd t.
Proof. unfold tokenizar. rewrite (normalizar_idem ucd Hok). reflexivity. Qed.

Lemma moderada_normalizar (t : ustring) :
  moderada ucd t -> moderada ucd (normalizar ucd t).
Proof. unfold moderada. rewrite tokenizar_normalizar. auto. Qed.


(** X14.  [responder] reads a message as a bag of words: two messages
    whose tokens are the same up to their order get the same result, on
    any store.  Case, accents, punctuation, spacing and the order of the
    words make no difference. *)
Theorem responder_bolsa (s : store) (q q' : ustring) :
  Permutation (tokenizar ucd q) (tokenizar ucd q') ->
  responder ucd s q = responder ucd s q'.
Proof.
  intros Hp. destruct s as [|filas seq]; [reflexivity|].
  rewrite !responder_tabla, !consulta_tokenizar.
  rewrite (vectorizar_perm _ _ Hp). reflexivity.
Qed.

Lemma puntuar_fichas (q : ustring) (f : fila) :
  moderada ucd q -> moderada ucd (preg f) ->
  exists c, puntuar ucd (consulta ucd q) f = Ok c /\
    ((c = fzero /\
      forall k, In k (tokenizar ucd q) -> ~ In k (tokenizar ucd (preg f))) \/
     ((exists k, In k (tokenizar ucd q) /\ In k (tokenizar ucd (preg f))) /\
      exists m e, c = S754_finite false m e /\
        2 ^ 52 <= Zpos m < 2 ^ 53 /\ (0 < F2R c <= 1 + bpow (-49))%R)).
Proof.
  intros Hq Hf. unfold puntuar. rewrite consulta_tokenizar.
  apply puntaje_fichas; assumption.
Qed.

Lemma recorrer_total (q : ustring) (l : list fila) (m0 : coincidencia_t) :
  moderada ucd q -> Forall (fun f => moderada ucd (preg f)) l ->
  exists m, recorrer ucd (consulta ucd q) m0 l = Ok m.
Proof.
  intros Hq Hl. revert m0. induction Hl as [|f l Hf _ IH]; intros m0; simpl.
  - eauto.
  - destruct (puntuar_fichas q f Hq Hf) as (c & Hc & _).
    destruct (fltb (m_score m0) c) eqn:Hlt.
    + rewrite (paso_toma _ _ _ _ _ Hc Hlt). simpl. apply IH.
    + rewrite (paso_deja _ _ _ _ _ Hc Hlt). simpl. apply IH.
Qed.

(** X15.  When the sentinel comes back.  On a table of rows of moderate
    length, [mejor_coincidencia] returns the sentinel exactly when no row
    shares a token with the message; [responder] then reports the miss
    with score 0.0. *)
Theorem centinela_sin_fichas_comunes (filas : list fila) (n : Z)
    (q : ustring) :
  moderada ucd q -> Forall (fun f => moderada ucd (preg f)) filas ->
  exists m,
    mejor_coincidencia ucd (Tabla filas n) q = Ok (m, normalizar ucd q) /\
    (m = centinela <->
     Forall (fun f => forall k, In k (tokenizar ucd q) ->
                        ~ In k (tokenizar ucd (preg f))) filas) /\
    (m = centinela ->
     responder ucd (Tabla filas n) q
     = Ok {| coincidencia := false; respuesta := SIN_RESPUESTA;
             puntaje := fzero; pregunta_coincidente := None |}).
Proof.
  intros Hq Hl.
  destruct (recorrer_total q filas centinela Hq Hl) as [m Hr].
  exists m. rewrite mejor_coincidencia_tabla, responder_tabla, Hr. simpl.
  split; [reflexivity|]. split; [|intros ->; reflexivity].
  split.
  - intros ->. pose proof (recorrer_maximo _ _ _ _ Hr) as Hmax.
    rewrite List.Forall_forall in Hmax, Hl. apply List.Forall_forall.
    intros f Hf. destruct (Hmax f Hf) as (t & Ht & Hlt).
    destruct (puntuar_fichas q f Hq (Hl f Hf))
      as (c & Hc & [[_ Hdis]|(_ & m & e & -> & _)]); [exact Hdis|].
    rewrite Ht in Hc. injection Hc as ->. discriminate.
  - intros Hdis.
    assert (Hz : recorrer ucd (consulta ucd q) centinela filas = Ok centinela).
    { apply recorrer_queda. rewrite List.Forall_forall in Hdis, Hl.
      apply List.Forall_forall. intros f Hf.
      destruct (puntuar_fichas q f Hq (Hl f Hf))
        as (c & Hc & [[-> _]|((k & Hk1 & Hk2) & _)]).
      - exists fzero. split; [exact Hc|reflexivity].
      - exfalso. exact (Hdis f Hf k Hk1 Hk2). }
    rewrite Hz in Hr. injection Hr as <-. reflexivity.
Qed.

(** X16.  On a table of rows of moderate length and a message of
    moderate length, [responder] returns, and the score it reports is
    one of 0.0, 0.001, ..., 1.0: it never exceeds 1.0, although the raw
    score can. *)
Theorem responder_total (filas : list fila) (n : Z) (q : ustring) :
  moderada ucd q -> Forall (fun f => moderada ucd (preg f)) filas ->
  exists r k, responder ucd (Tabla filas n) q = Ok r /\
    0 <= k <= 1000 /\ puntaje r = milesimas k.
Proof.
  intros Hq Hl.
  destruct (recorrer_total q filas centinela Hq Hl) as [m Hr].
  assert (Hk : exists k, 0 <= k <= 1000 /\ round3 (m_score m) = milesimas k).
  { destruct (recorrer_origen_puntaje _ _ _ _ Hr) as [->|(f & Hf & Hp & _)].
    - exists 0. split; [lia|reflexivity].
    - rewrite List.Forall_forall in Hl.
      destruct (puntuar_fichas q f Hq (Hl f Hf))
        as (c & Hc & [[-> _]|(_ & mm & e & -> & _ & Hx)]);
        rewrite Hp in Hc; injection Hc as Hc; rewrite Hc.
      + exists 0. split; [lia|reflexivity].
      + apply round3_unidad. apply Hx. }
  destruct Hk as (k & Hk & Hr3).
  rewrite responder_tabla, Hr. simpl.
  destruct (fleb UMBRAL (m_score m)); eexists; exists k;
    (split; [reflexivity|]); (split; [exact Hk|exact Hr3]).
Qed.


(** X17.  Teaching a question does not change the answers to the
    messages that share no token with it. *)
Theorem aprender_no_afecta (s s' : store) (q' a' q : ustring) :
  guardar_entrada ucd s q' a' = Ok s' ->
  moderada ucd q -> moderada ucd q' ->
  (forall k, In k (tokenizar ucd q) -> ~ In k (tokenizar ucd q')) ->
  responder ucd s' q = responder ucd s q.
Proof.
  intros Hg Hq Hq' Hdis.
  destruct s as [|filas n]; [discriminate|].
  destruct (insertar_filas filas n (normalizar ucd q') a') as [i Hi].
  unfold guardar_entrada in Hg. rewrite Hi in Hg. injection Hg as <-.
  rewrite !responder_tabla, recorrer_app.
  destruct (recorrer ucd (consulta ucd q) centinela filas) as [m|e] eqn:Hm;
    simpl; [|reflexivity].
  set (nueva := {| fid := i; preg := normalizar ucd q'; resp := a' |}).
  assert (Hn : puntuar ucd (consulta ucd q) nueva = Ok fzero).
  { destruct (puntuar_fichas q nueva Hq)
      as (c & Hc & [[-> _]|((k & Hk1 & Hk2) & _)]).
    - apply moderada_normalizar; assumption.
    - exact Hc.
    - exfalso. simpl in Hk2. rewrite tokenizar_normalizar in Hk2.
      exact (Hdis k Hk1 Hk2). }
  rewrite (paso_deja ucd _ m nueva fzero Hn).
  - reflexivity.
  - eapply recorrer_mono; [exact Hm|reflexivity].
Qed.

End Mejor.

(* ================================================================= *)
(** ** Exceptions *)





(* ================================================================= *)
(** ** Row ids *)

Lemma foldr_max_cota (n : Z) (l : list Z) :
  Forall (fun i => i <= n) l -> foldr Z.max n l = n.
Proof.
  induction 1 as [|i l Hi _ IH]; simpl; [reflexivity|]. rewrite IH. lia.
Qed.

Lemma insertar_ids (filas : list fila) (n : Z) (pr : ustring * ustring) :
  ids_en_orden (Tabla filas n) ->
  ids_en_orden (Tabla (fst (insertar (filas, n) pr))
                  (snd (insertar (filas, n) pr))) /\
  snd (insertar (filas, n) pr) = n + 1 /\
  fst (insertar (filas, n) pr)
  = filas ++ [{| fid := n + 1; preg := fst pr; resp := snd pr |}].
Proof.
  intros [Hn Hids]. unfold insertar.
  assert (Hmax : foldr Z.max n (map fid filas) = n).
  { apply foldr_max_cota. rewrite Hids. apply List.Forall_forall.
    intros i Hi. apply in_map_iff in Hi as (j & <- & Hj).
    apply in_seq in Hj. lia. }
  rewrite Hmax. simpl. split; [|auto]. split.
  - rewrite length_app. simpl. lia.
  - rewrite length_app, map_app, Hids. simpl.
    rewrite Nat.add_1_r, seq_S, map_app. simpl. do 2 f_equal. lia.
Qed.

Lemma iniciar_db_ids (s : store) :
  ids_en_orden s -> ids_en_orden (iniciar_db s).
Proof.
  destruct s as [|[|f filas] n].
  - intros _. vm_compute. auto.
  - intros [-> _]. vm_compute. auto.
  - intros H. exact H.
Qed.

Lemma guardar_entrada_ids (ucd : UCD) (s s' : store) (q a : ustring) :
  ids_en_orden s -> guardar_entrada ucd s q a = Ok s' -> ids_en_orden s'.
Proof.
  destruct s as [|filas n]; [discriminate|]. intros H. unfold guardar_entrada.
  destruct (insertar_ids filas n (normalizar ucd q, a) H) as (Hi & _ & _).
  destruct (insertar (filas, n) (normalizar ucd q, a)) as [filas' n'].
  intros [= <-]. exact Hi.
Qed.

Lemma alcanzable_ids (ucd : UCD) (s : store) :
  alcanzable ucd s -> ids_en_orden s.
Proof.
  induction 1 as [|s _ IH|s s' q a _ IH Hg].
  - exact I.
  - apply iniciar_db_ids, IH.
  - eapply guardar_entrada_ids; eauto.
Qed.

(** X19.  The ids of the rows.  In every store the program reaches, the
    rows carry the ids 1, 2, 3, ... in their order: no two rows share an
    id, the id -1 of the sentinel is the id of no row, and
    [guardar_entrada] gives the new row the number of rows plus one. *)
Theorem ids_consecutivos (ucd : UCD) (s : store) :
  alcanzable ucd s ->
  map fid (filas_de s) = map Z.of_nat (List.seq 1 (length (filas_de s))) /\
  List.NoDup (map fid (filas_de s)) /\
  ~ In (m_id centinela) (map fid (filas_de s)) /\
  (forall s' q a, guardar_entrada ucd s q a = Ok s' ->
     filas_de s' =
     filas_de s ++ [{| fid := Z.of_nat (length (filas_de s)) + 1;
                       preg := normalizar ucd q; resp := a |}]).
Proof.
  intros Hs. apply alcanzable_ids in Hs.
  assert (Hids : map fid (filas_de s)
                 = map Z.of_nat (List.seq 1 (length (filas_de s)))).
  { destruct s as [|filas n]; [reflexivity|]. exact (proj2 Hs). }
  split; [exact Hids|]. split; [|split].
  - rewrite Hids. apply Finite.Injective_map_NoDup; [|apply List.seq_NoDup].
    intros i j. apply Nat2Z.inj.
  - rewrite Hids. intros Hin. apply in_map_iff in Hin as (j & Hj & _).
    simpl in Hj. lia.
  - intros s' q a. destruct s as [|filas n]; [discriminate|].
    unfold guardar_entrada.
    destruct (insertar_ids filas n (normalizar ucd q, a) Hs) as (_ & _ & Hf).
    destruct (insertar (filas, n) (normalizar ucd q, a)) as [filas' n'].
    intros [= <-]. simpl in *. rewrite Hf. destruct Hs as [-> _]. reflexivity.
Qed.

(* ================================================================= *)
(** ** The console loop *)

Section ConsolaProp.

Variable ucd : UCD.

Lemma ensenada_mas (pre0 ins : list entrada) (l : list fila) :
  Forall (ensenada ucd ins) l -> Forall (ensenada ucd (pre0 ++ ins)) l.
Proof.
  intros Hl. eapply Forall_impl; [exact Hl|].
  intros f (pre & t & u & post & -> & H). exists (pre0 ++ pre), t, u, post.
  rewrite <- app_assoc. auto.
Qed.

Lemma nonempty_no_vacia (t : ustring) : nonempty t = true -> t <> [].
Proof. destruct t; discriminate. Qed.

(** X20.  A session only adds rows.  The rows of the table that [repl]
    leaves are the rows it found, followed by one new row for each
    "Listo. Ya lo aprendí." it printed; there are no more of these than
    misses reported; and each new row holds two consecutive lines of the
    session, the question stripped and normalized, the answer stripped
    and not empty. *)
Theorem repl_solo_agrega (s : store) (ins : list entrada) :
  exists nuevas,
    filas_de (almacen (repl ucd s ins)) = filas_de s ++ nuevas /\
    length nuevas = cuenta es_aprendido (impresos (repl ucd s ins)) /\
    (length nuevas <= cuenta es_fallo (impresos (repl ucd s ins)))%nat /\
    Forall (ensenada ucd ins) nuevas.
Proof.
  unfold repl, cuenta. simpl.
  functional induction (bucle ucd s ins); simpl;
    try (exists []; rewrite app_nil_r; repeat split;
         [simpl; lia|constructor]).
  - destruct IHs0 as (nuevas & H1 & H2 & H3 & H4). exists nuevas.
    repeat split; try assumption.
    exact (ensenada_mas [Linea t] r nuevas H4).
  - destruct IHs0 as (nuevas & H1 & H2 & H3 & H4).
    match goal with
    | Hg : guardar_entrada _ _ _ _ = Ok _ |- _ =>
        destruct (guardar_entrada_filas ucd _ _ _ _ Hg) as [i Hi]
    end.
    exists ({| fid := i; preg := normalizar ucd (strip (isspace ucd) t);
               resp := strip (isspace ucd) t2 |} :: nuevas).
    rewrite H1, Hi, <- app_assoc. simpl.
    repeat split; try lia.
    constructor.
    + exists [], t, t2, r2. simpl. repeat split; auto.
      apply nonempty_no_vacia. assumption.
    + exact (ensenada_mas [Linea t; Linea t2] r2 nuevas H4).
  - destruct IHs0 as (nuevas & H1 & H2 & H3 & H4). exists nuevas.
    simpl. repeat split; try assumption; try lia.
    exact (ensenada_mas [Linea t; Linea t2] r2 nuevas H4).
  - destruct IHs0 as (nuevas & H1 & H2 & H3 & H4). exists nuevas.
    repeat split; try assumption.
    exact (ensenada_mas [Linea t] r nuevas H4).
Qed.

Lemma bucle_saliendo (s : store) (ins : list entrada) :
  termino (bucle ucd s ins) = Salida <->
  In Saliendo (impresos (bucle ucd s ins)).
Proof.
  functional induction (bucle ucd s ins); simpl; intuition congruence.
Qed.

Lemma bucle_fin_de_entrada (s : store) (ins : list entrada) :
  termino (bucle ucd s ins) = FinDeEntrada -> ~ In CtrlC ins.
Proof.
  functional induction (bucle ucd s ins); simpl; intuition congruence.
Qed.

Lemma bucle_salida (s : store) (ins : list entrada) :
  termino (bucle ucd s ins) = Salida ->
  In CtrlC ins /\ exists o, impresos (bucle ucd s ins) = o ++ [Saliendo].
Proof.
  functional induction (bucle ucd s ins); simpl; try discriminate;
    try (intros H; destruct (IHs0 H) as (Hin & o & ->); split; [auto|]);
    try (intros _; split; [auto|]).
  - exists [Indicador]. reflexivity.
  - exists (Indicador :: BotAcierto res :: o). reflexivity.
  - exists [Indicador; BotFallo res; BotPregunta; IndicadorRespuesta].
    reflexivity.
  - exists (Indicador :: BotFallo res :: BotPregunta :: IndicadorRespuesta
              :: BotAprendido :: o). reflexivity.
  - exists (Indicador :: BotFallo res :: BotPregunta :: IndicadorRespuesta
              :: o). reflexivity.
  - exists (Indicador :: o). reflexivity.
Qed.

(** X21.  How a session ends.  [repl] leaves its loop only on Ctrl+C:
    it returns exactly when it has printed "Saliendo…", which is then
    the last thing printed, and the entries then hold a Ctrl+C.  A
    session that ends because the input ran out held no Ctrl+C. *)
Theorem repl_salida (s : store) (ins : list entrada) :
  (termino (repl ucd s ins) = Salida <->
   In Saliendo (impresos (repl ucd s ins))) /\
  (termino (repl ucd s ins) = Salida ->
   In CtrlC ins /\ exists o, impresos (repl ucd s ins) = o ++ [Saliendo]) /\
  (termino (repl ucd s ins) = FinDeEntrada -> ~ In CtrlC ins).
Proof.
  unfold repl. simpl. split; [|split; [|apply bucle_fin_de_entrada]].
  - rewrite bucle_saliendo. split; [auto|].
    intros [H|H]; [discriminate|exact H].
  - intros H. destruct (bucle_salida s ins H) as (Hin & o & Ho).
    split; [exact Hin|]. rewrite Ho. exists (Bienvenida :: o). reflexivity.
Qed.




Hypothesis Hok : ucd_ok ucd.






End ConsolaProp.

(* ================================================================= *)
(** ** The worked inputs, evaluated *)

Lemma umbral_frontera_testigo :
  responder ucd_latin kb_umbral q_umbral
  = Ok {| coincidencia := true; respuesta := U "veinticinco";
          puntaje := UMBRAL; pregunta_coincidente := Some (preg fila_umbral) |}.
Proof.
  refine (proj2 (proj2 (umbral_frontera ucd_latin kb_umbral q_umbral
            (candidato fila_umbral UMBRAL) (normalizar ucd_latin q_umbral) _)) _);
    vm_compute; reflexivity.
Defined.

Lemma enye_no_se_conserva_testigo :
  ~ In ENYE (normalizar ucd_latin [97; 241; 111]%N).
Proof.
  exact (enye_no_se_conserva ucd_latin (nfd_sin_enye _ ucd_latin_ok)
           [97; 241; 111]%N).
Defined.

(** "año" is normalized to "ano". *)
Example normalizar_anyo :
  normalizar ucd_latin [97; 241; 111]%N = [97; 110; 111]%N.
Proof. reflexivity. Qed.

Lemma desempate_testigo :
  mejor_coincidencia ucd_latin
    (Tabla ([] ++ fila_hola :: filas_medio ++ fila_hola_bis :: []) 4)
    (U "Hola!!")
  = Ok (candidato fila_hola fone, U "hola!!").
Proof.
  refine (proj2 (proj2 (proj2 (desempate ucd_latin (U "Hola!!") 4
            [] filas_medio [] fila_hola fila_hola_bis fone _ _))) _ _ _).
  - vm_compute; reflexivity.
  - vm_compute; reflexivity.
  - vm_compute; reflexivity.
  - constructor.
  - repeat (constructor;
            [eexists; split; [vm_compute; reflexivity|vm_compute; reflexivity]|]).
    constructor.
Defined.

Lemma pregunta_normalizada_testigo :
  guardar_entrada ucd_latin (iniciar_db SinTabla) q_banyo (U "Al fondo.")
    = Ok kb_banyo /\
  todas_normalizadas ucd_latin kb_banyo.
Proof.
  assert (H : guardar_entrada ucd_latin (iniciar_db SinTabla) q_banyo
                (U "Al fondo.") = Ok kb_banyo) by (vm_compute; reflexivity).
  split; [exact H|].
  exact (proj2 (proj2 (proj2
           (pregunta_normalizada_invariante ucd_latin ucd_latin_ok)))
           kb_banyo
           (alc_guardar ucd_latin _ _ _ _
              (alc_iniciar ucd_latin _ (alc_vacio ucd_latin)) H)).
Defined.

(** The similarity of a map to itself is not always 1.0, and it can
    exceed 1. *)
Lemma coseno_propio_no_es_uno :
  v_ab <> ∅ /\ no_negativo v_ab /\
  similitud_coseno v_ab v_ab = Ok bajo_uno /\ fltb bajo_uno fone = true /\
  similitud_coseno v_abc v_abc = Ok sobre_uno /\ fltb fone sobre_uno = true.
Proof.
  split; [|split; [apply vectorizar_no_negativo|]].
  - intros H. apply (f_equal (fun m => m !! U "a")) in H.
    vm_compute in H. discriminate.
  - repeat split; vm_compute; reflexivity.
Qed.

Lemma coseno_cotas_testigo :
  exists c, similitud_coseno v_ab v_ab = Ok c /\ finito c = true /\
    (0 <= F2R c <= 1 + bpow (-49))%R /\
    (v_ab = ∅ -> c = fzero) /\
    (v_ab = v_ab -> 0 < sumsq v_ab -> (Rabs (F2R c - 1) <= bpow (-49))%R).
Proof.
  apply (coseno_cotas v_ab v_ab).
  - apply vectorizar_no_negativo.
  - apply vectorizar_no_negativo.
  - vm_compute. reflexivity.
  - vm_compute. reflexivity.
Defined.

(** A count of 2^512 is too large for [math.sqrt]. *)
Lemma coseno_desborda :
  similitud_coseno ∅ {[ U "x" := 2 ^ 512 ]} = Raise OverflowError.
Proof. vm_compute. reflexivity. Qed.

(** A question without a token is still a miss after it is taught, and
    a question taught twice keeps its first answer. *)
Lemma aprender_sin_efecto :
  (s' ← guardar_entrada ucd_latin (iniciar_db SinTabla) (U "???") (U "No lo se");
   responder ucd_latin s' (U "???"))
  = Ok {| coincidencia := false; respuesta := SIN_RESPUESTA;
          puntaje := fzero; pregunta_coincidente := None |} /\
  (s' ← guardar_entrada ucd_latin (iniciar_db SinTabla) (U "hola") (U "Buenas.");
   responder ucd_latin s' (U "hola"))
  = Ok {| coincidencia := true; respuesta := resp fila_hola;
          puntaje := fone; pregunta_coincidente := Some (U "hola") |} /\
  resp fila_hola <> U "Buenas.".
Proof.
  split; [vm_compute; reflexivity|]. split; [vm_compute; reflexivity|].
  vm_compute. discriminate.
Qed.

Lemma aprender_y_preguntar_testigo :
  exists c, similitud_coseno (consulta ucd_latin q_banyo)
              (consulta ucd_latin q_banyo) = Ok c /\
    (Rabs (F2R c - 1) <= bpow (-49))%R /\
    (Forall (fun f => exists t,
               puntuar ucd_latin (consulta ucd_latin q_banyo) f = Ok t /\
               fltb t c = true) (filas_de (iniciar_db SinTabla)) ->
     responder ucd_latin kb_banyo q_banyo
     = Ok {| coincidencia := true; respuesta := U "Al fondo."; puntaje := fone;
             pregunta_coincidente := Some (normalizar ucd_latin q_banyo) |}) /\
    (forall r, responder ucd_latin (iniciar_db SinTabla) q_banyo = Ok r ->
     coincidencia r = false ->
     responder ucd_latin kb_banyo q_banyo
     = Ok {| coincidencia := true; respuesta := U "Al fondo."; puntaje := fone;
             pregunta_coincidente := Some (normalizar ucd_latin q_banyo) |}).
Proof.
  apply (aprender_y_preguntar ucd_latin (iniciar_db SinTabla) kb_banyo
           q_banyo (U "Al fondo.")).
  - vm_compute. reflexivity.
  - vm_compute. discriminate.
  - vm_compute. reflexivity.
Defined.

(** The round trip of "¿Dónde está el BAÑO?", evaluated. *)
Example aprender_banyo :
  responder ucd_latin (iniciar_db SinTabla) q_banyo
  = Ok {| coincidencia := false; respuesta := SIN_RESPUESTA;
          puntaje := fzero; pregunta_coincidente := None |} /\
  responder ucd_latin kb_banyo q_banyo
  = Ok {| coincidencia := true; respuesta := U "Al fondo."; puntaje := fone;
          pregunta_coincidente := Some (U "donde esta el bano?") |}.
Proof. split; vm_compute; reflexivity. Qed.

Lemma puntaje_redondeado_testigo :
  exists r, responder ucd_latin (Tabla [fila_redondeo] 1) (U "a") = Ok r /\
    coincidencia r = fleb UMBRAL crudo_redondeo /\
    puntaje r = round3 crudo_redondeo /\
    (forall sg m e, crudo_redondeo = S754_finite sg m e ->
       exists k : Z, 0 <= k /\
         (Rabs (1000 * (IZR (Zpos m) * bpow e) - IZR k) <= 1 / 2)%R /\
         puntaje r = match k with
                     | Zpos p => nearest_quotient sg p 1000
                     | _ => S754_zero sg
                     end).
Proof.
  apply (puntaje_redondeado ucd_latin (Tabla [fila_redondeo] 1) (U "a")
           (candidato fila_redondeo crudo_redondeo) (U "a")).
  vm_compute. reflexivity.
Defined.

(** A raw score just below the threshold is a miss, though it is
    reported as 0.72. *)
Example fallo_con_puntaje_072 :
  responder ucd_latin (Tabla [fila_redondeo] 1) (U "a")
  = Ok {| coincidencia := false; respuesta := SIN_RESPUESTA;
          puntaje := UMBRAL; pregunta_coincidente := None |} /\
  fltb crudo_redondeo UMBRAL = true /\ round3 crudo_redondeo = UMBRAL.
Proof. repeat split; vm_compute; reflexivity. Qed.

(** The end-to-end scenario of the specification. *)
Example escenario :
  responder ucd_latin (iniciar_db SinTabla) (U "Hola!!")
  = Ok {| coincidencia := true; respuesta := resp fila_hola; puntaje := fone;
          pregunta_coincidente := Some (U "hola") |} /\
  responder ucd_latin (iniciar_db SinTabla) (U "cuentame un chiste")
  = Ok {| coincidencia := false; respuesta := SIN_RESPUESTA;
          puntaje := fzero; pregunta_coincidente := None |} /\
  (s' ← guardar_entrada ucd_latin (iniciar_db SinTabla)
          (U "cuentame un chiste") (U "No se chistes");
   responder ucd_latin s' (U "cuentame un chiste"))
  = Ok {| coincidencia := true; respuesta := U "No se chistes";
          puntaje := fone;
          pregunta_coincidente := Some (U "cuentame un chiste") |}.
Proof. repeat split; vm_compute; reflexivity. Qed.

(* ================================================================= *)
(** ** The further properties, on the worked inputs *)

Lemma normalizar_forma_testigo :
  (forall c, In c (normalizar ucd_latin q_banyo) -> estable c = true) /\
  (forall pre post,
     normalizar ucd_latin q_banyo <> pre ++ SPACE :: SPACE :: post) /\
  (forall r, normalizar ucd_latin q_banyo <> SPACE :: r) /\
  (forall r, normalizar ucd_latin q_banyo <> r ++ [SPACE]).
Proof. exact (normalizar_forma ucd_latin q_banyo ucd_latin_ok). Defined.

Lemma normalizar_idempotente_testigo :
  normalizar ucd_latin (normalizar ucd_latin q_banyo)
    = normalizar ucd_latin q_banyo /\
  tokenizar ucd_latin (normalizar ucd_latin q_banyo)
    = tokenizar ucd_latin q_banyo.
Proof. exact (normalizar_idempotente ucd_latin q_banyo ucd_latin_ok). Defined.

Lemma normalizar_puntos_fijos_testigo :
  (normalizar ucd_latin (U "como estas") = U "como estas" <->
   limpia (U "como estas") = true) /\
  ((exists texto, U "como estas" = normalizar ucd_latin texto) <->
   limpia (U "como estas") = true).
Proof.
  exact (normalizar_puntos_fijos ucd_latin (U "como estas") ucd_latin_ok).
Defined.

Lemma tokenizar_fichas_testigo :
  U "bano" <> [] /\ forall c, In c (U "bano") -> is_az c || is_09 c = true.
Proof.
  apply (tokenizar_fichas ucd_latin q_banyo (U "bano") ucd_latin_ok).
  vm_compute. tauto.
Defined.

(** The tokens of "¿Dónde está el BAÑO?". *)
Example tokenizar_banyo :
  tokenizar ucd_latin q_banyo = [U "donde"; U "esta"; U "el"; U "bano"].
Proof. reflexivity. Qed.

Lemma coseno_fichas_comunes_testigo :
  exists c,
    similitud_coseno (vectorizar [U "a"; U "b"]) (vectorizar [U "b"; U "c"])
    = Ok c /\
    ((exists k, In k [U "a"; U "b"] /\ In k [U "b"; U "c"]) ->
     fltb fzero c = true) /\
    ((forall k, In k [U "a"; U "b"] -> ~ In k [U "b"; U "c"]) -> c = fzero).
Proof.
  apply (coseno_fichas_comunes [U "a"; U "b"] [U "b"; U "c"]);
    vm_compute; reflexivity.
Defined.

Lemma coseno_precision_testigo :
  exists c, similitud_coseno v_ab v_abc = Ok c /\
    (Rabs (F2R c
           - IZR (dot v_ab v_abc)
             / (sqrt (IZR (sumsq v_ab)) * sqrt (IZR (sumsq v_abc))))
     <= bpow (-49) *
        (IZR (dot v_ab v_abc)
         / (sqrt (IZR (sumsq v_ab)) * sqrt (IZR (sumsq v_abc)))))%R.
Proof.
  apply (coseno_precision v_ab v_abc).
  - apply vectorizar_no_negativo.
  - apply vectorizar_no_negativo.
  - split; vm_compute; reflexivity.
  - split; vm_compute; reflexivity.
Defined.

Lemma mejor_es_maximo_testigo :
  U "hola!!" = normalizar ucd_latin (U "Hola!!") /\
  Forall (fun f => exists t,
            puntuar ucd_latin (consulta ucd_latin (U "Hola!!")) f = Ok t /\
            fltb (m_score (candidato fila_hola fone)) t = false)
    (filas_de (iniciar_db SinTabla)) /\
  (candidato fila_hola fone = centinela \/
   exists f, In f (filas_de (iniciar_db SinTabla)) /\
     puntuar ucd_latin (consulta ucd_latin (U "Hola!!")) f
       = Ok (m_score (candidato fila_hola fone)) /\
     candidato fila_hola fone
       = candidato f (m_score (candidato fila_hola fone)) /\
     fltb fzero (m_score (candidato fila_hola fone)) = true).
Proof.
  apply (mejor_es_maximo ucd_latin (iniciar_db SinTabla) (U "Hola!!")
           (candidato fila_hola fone) (U "hola!!")).
  vm_compute. reflexivity.
Defined.

Lemma acierto_es_fila_testigo :
  exists f t, In f (filas_de (iniciar_db SinTabla)) /\
    puntuar ucd_latin (consulta ucd_latin (U "Hola!!")) f = Ok t /\
    fleb UMBRAL t = true /\
    respuesta (acierto (candidato fila_hola fone)) = resp f /\
    pregunta_coincidente (acierto (candidato fila_hola fone))
      = Some (preg f) /\
    puntaje (acierto (candidato fila_hola fone)) = round3 t.
Proof.
  apply (acierto_es_fila ucd_latin (iniciar_db SinTabla) (U "Hola!!")
           (acierto (candidato fila_hola fone))).
  - vm_compute. reflexivity.
  - reflexivity.
Defined.

Lemma responder_bolsa_testigo :
  responder ucd_latin (iniciar_db SinTabla) (U "como estas")
  = responder ucd_latin (iniciar_db SinTabla) (U "Estas, COMO?").
Proof.
  apply (responder_bolsa ucd_latin ucd_latin_ok (iniciar_db SinTabla)
           (U "como estas") (U "Estas, COMO?")).
  change (Permutation [U "como"; U "estas"] [U "estas"; U "como"]).
  apply perm_swap.
Defined.

Lemma centinela_sin_fichas_comunes_testigo :
  exists m,
    mejor_coincidencia ucd_latin (Tabla filas_semilla 3)
      (U "cuentame un chiste")
    = Ok (m, normalizar ucd_latin (U "cuentame un chiste")) /\
    (m = centinela <->
     Forall (fun f => forall k,
               In k (tokenizar ucd_latin (U "cuentame un chiste")) ->
               ~ In k (tokenizar ucd_latin (preg f))) filas_semilla) /\
    (m = centinela ->
     responder ucd_latin (Tabla filas_semilla 3) (U "cuentame un chiste")
     = Ok {| coincidencia := false; respuesta := SIN_RESPUESTA;
             puntaje := fzero; pregunta_coincidente := None |}).
Proof.
  apply (centinela_sin_fichas_comunes ucd_latin ucd_latin_ok filas_semilla 3
           (U "cuentame un chiste")).
  - vm_compute. reflexivity.
  - repeat (constructor; [vm_compute; reflexivity|]). constructor.
Defined.

Lemma responder_total_testigo :
  exists r k,
    responder ucd_latin (Tabla filas_semilla 3) (U "de que hablamos") = Ok r /\
    0 <= k <= 1000 /\ puntaje r = milesimas k.
Proof.
  apply (responder_total ucd_latin ucd_latin_ok filas_semilla 3
           (U "de que hablamos")).
  - vm_compute. reflexivity.
  - repeat (constructor; [vm_compute; reflexivity|]). constructor.
Defined.

(** "de que hablamos" against the seeds: two of the five tokens of the
    third seed, a miss reported as 0.516. *)
Example responder_de_que_hablamos :
  responder ucd_latin (Tabla filas_semilla 3) (U "de que hablamos")
  = Ok {| coincidencia := false; respuesta := SIN_RESPUESTA;
          puntaje := milesimas 516; pregunta_coincidente := None |}.
Proof. vm_compute. reflexivity. Qed.

Lemma aprender_no_olvida_testigo :
  coincidencia (acierto (candidato fila_hola fone)) = true /\
  (acierto (candidato fila_hola fone) = acierto (candidato fila_hola fone) \/
   (respuesta (acierto (candidato fila_hola fone)) = U "Al fondo." /\
    pregunta_coincidente (acierto (candidato fila_hola fone))
      = Some (normalizar ucd_latin q_banyo) /\
    exists f t t', In f (filas_de (iniciar_db SinTabla)) /\
      puntuar ucd_latin (consulta ucd_latin (U "Hola!!")) f = Ok t /\
      puntaje (acierto (candidato fila_hola fone)) = round3 t /\
      similitud_coseno (consulta ucd_latin (U "Hola!!"))
        (consulta ucd_latin q_banyo) = Ok t' /\
      puntaje (acierto (candidato fila_hola fone)) = round3 t' /\
      fltb t t' = true)).
Proof.
  apply (aprender_no_olvida ucd_latin (iniciar_db SinTabla) kb_banyo q_banyo
           (U "Al fondo.") (U "Hola!!")
           (acierto (candidato fila_hola fone))
           (acierto (candidato fila_hola fone))).
  - vm_compute. reflexivity.
  - vm_compute. reflexivity.
  - reflexivity.
  - vm_compute. reflexivity.
Defined.

Lemma aprender_no_afecta_testigo :
  responder ucd_latin kb_banyo (U "como estas")
  = responder ucd_latin (iniciar_db SinTabla) (U "como estas").
Proof.
  apply (aprender_no_afecta ucd_latin ucd_latin_ok (iniciar_db SinTabla)
           kb_banyo q_banyo (U "Al fondo.") (U "como estas")).
  - vm_compute. reflexivity.
  - vm_compute. reflexivity.
  - vm_compute. reflexivity.
  - intros k Hk Hk'. vm_compute in Hk, Hk'.
    destruct Hk as [<-|[<-|[]]];
      repeat (destruct Hk' as [Hk'|Hk']; [discriminate Hk'|]); exact Hk'.
Defined.

Lemma ids_consecutivos_testigo :
  map fid (filas_de kb_banyo)
    = map Z.of_nat (List.seq 1 (length (filas_de kb_banyo))) /\
  List.NoDup (map fid (filas_de kb_banyo)) /\
  ~ In (m_id centinela) (map fid (filas_de kb_banyo)) /\
  (forall s' q a, guardar_entrada ucd_latin kb_banyo q a = Ok s' ->
     filas_de s' =
     filas_de kb_banyo ++ [{| fid := Z.of_nat (length (filas_de kb_banyo)) + 1;
                              preg := normalizar ucd_latin q; resp := a |}]).
Proof.
  apply (ids_consecutivos ucd_latin kb_banyo).
  apply (alc_guardar ucd_latin (iniciar_db SinTabla) kb_banyo q_banyo
           (U "Al fondo.")).
  - apply alc_iniciar, alc_vacio.
  - vm_compute. reflexivity.
Defined.



(** The session of "¿Dónde está el BAÑO?", run from an empty database. *)
Example sesion_banyo :
  principal ucd_latin SinTabla entradas_banyo
  = {| impresos :=
         [Bienvenida;
          Indicador; BotFallo (fallo centinela); BotPregunta;
          IndicadorRespuesta; BotAprendido;
          Indicador;
          BotAcierto {| coincidencia := true; respuesta := U "Al fondo.";
                        puntaje := fone;
                        pregunta_coincidente := Some (U "donde esta el bano?") |};
          Indicador; Saliendo];
       almacen := kb_banyo;
       termino := Salida |}.
Proof. vm_compute. reflexivity. Qed.
